(** * LinkUp: the website entity tree, path resolution and link validation

    A shallow embedding of [linkup.go].  Go strings are byte strings, so
    they are Rocq [string]s (lists of 8-bit [ascii]).  Entities are heap
    cells addressed by natural numbers, because the Go code shares them
    through pointers ([parent] back references, [children] maps) and
    mutates them in place.  Every operation of the package is a
    computation in a small state-and-failure monad over that heap. *)

From Stdlib Require Import ZArith Ascii String.
From stdpp Require Import gmap strings list pretty.

Local Open Scope string_scope.
Local Open Scope Z_scope.
Local Open Scope list_scope.

#[local] Set Warnings "-register-all".

(** ** The functions of Go's [strings] and [unicode/utf8] that the package calls *)

Module strings.

Definition byte (n : nat) : ascii := ascii_of_nat n.

Definition bytes (l : list nat) : string := string_of_list_ascii (map byte l).

(** [s[i:]] and [s[:i]] on in-range indices. *)
Fixpoint slice_from (i : nat) (s : string) : string :=
  match i, s with
  | O, _ => s
  | S i', String _ s' => slice_from i' s'
  | S _, EmptyString => EmptyString
  end.

Fixpoint slice_to (i : nat) (s : string) : string :=
  match i, s with
  | O, _ => EmptyString
  | S i', String c s' => String c (slice_to i' s')
  | S _, EmptyString => EmptyString
  end.

Definition HasPrefix (s p : string) : bool := String.prefix p s.

(** [strings.Split(s, sep)] for a one-byte separator: always at least one
    piece, empty pieces are kept. *)
Fixpoint Split (s : string) (sep : ascii) : list string :=
  match s with
  | EmptyString => [EmptyString]
  | String c s' =>
      if Ascii.eqb c sep then EmptyString :: Split s' sep
      else match Split s' sep with
           | [] => [String c EmptyString]
           | piece :: pieces => String c piece :: pieces
           end
  end.

Fixpoint LastIndex_from (i : Z) (last : Z) (s : string) (c : ascii) : Z :=
  match s with
  | EmptyString => last
  | String a s' => LastIndex_from (i + 1) (if Ascii.eqb a c then i else last) s' c
  end.

(** [strings.LastIndex(s, sep)] for a one-byte [sep]; [-1] when absent. *)
Definition LastIndex (s : string) (c : ascii) : Z := LastIndex_from 0 (-1) s c.

(** [strings.Replace(s, old, new, -1)] for one-byte [old] and [new]. *)
Fixpoint Replace (s : string) (old new : ascii) : string :=
  match s with
  | EmptyString => EmptyString
  | String c s' => String (if Ascii.eqb c old then new else c) (Replace s' old new)
  end.

(** The UTF-8 encodings of the runes for which [unicode.IsSpace] holds:
    tab, LF, VT, FF, CR, space, U+0085, U+00A0, U+1680, U+2000..U+200A,
    U+2028, U+2029, U+202F, U+205F, U+3000. *)
Definition spaceRunes : list string :=
  map bytes
    [ [9]; [10]; [11]; [12]; [13]; [32]; [194; 133]; [194; 160]; [225; 154; 128];
      [226; 128; 128]; [226; 128; 129]; [226; 128; 130]; [226; 128; 131];
      [226; 128; 132]; [226; 128; 133]; [226; 128; 134]; [226; 128; 135];
      [226; 128; 136]; [226; 128; 137]; [226; 128; 138]; [226; 128; 168];
      [226; 128; 169]; [226; 128; 175]; [226; 129; 159]; [227; 128; 128] ]%nat.

Fixpoint matchPrefix (pats : list string) (s : string) : option nat :=
  match pats with
  | [] => None
  | p :: pats' => if String.prefix p s then Some (String.length p) else matchPrefix pats' s
  end.

Fixpoint trimPrefixes (fuel : nat) (pats : list string) (s : string) : string :=
  match fuel with
  | O => s
  | S fuel' =>
      match matchPrefix pats s with
      | Some n => trimPrefixes fuel' pats (slice_from n s)
      | None => s
      end
  end.

Definition TrimLeftSpace (s : string) : string :=
  trimPrefixes (String.length s) spaceRunes s.

(** Trailing runes are decoded backwards; on the reversed string that is
    stripping the reversed encodings. *)
Definition TrimRightSpace (s : string) : string :=
  String.rev (trimPrefixes (String.length s) (map String.rev spaceRunes) (String.rev s)).

Definition TrimSpace (s : string) : string := TrimRightSpace (TrimLeftSpace s).

Definition inRange (lo hi : nat) (c : ascii) : bool :=
  (Nat.leb lo (nat_of_ascii c) && Nat.leb (nat_of_ascii c) hi)%bool.

Definition cont (s : string) (lo hi : nat) : option string :=
  match s with
  | String c s' => if inRange lo hi c then Some s' else None
  | EmptyString => None
  end.

(** The width returned by [utf8.DecodeRuneInString]: 0 for the empty
    string, 1 for an ASCII byte or an invalid encoding, else the length
    of the well-formed encoding at the head of [s]. *)
Definition DecodeRuneInString_size (s : string) : nat :=
  match s with
  | EmptyString => 0%nat
  | String c s' =>
      let b := nat_of_ascii c in
      let two := match cont s' 128 191 with Some _ => 2%nat | None => 1%nat end in
      let three lo hi :=
        match cont s' lo hi with
        | Some s2 => match cont s2 128 191 with Some _ => 3%nat | None => 1%nat end
        | None => 1%nat
        end in
      let four lo hi :=
        match cont s' lo hi with
        | Some s2 =>
            match cont s2 128 191 with
            | Some s3 => match cont s3 128 191 with Some _ => 4%nat | None => 1%nat end
            | None => 1%nat
            end
        | None => 1%nat
        end in
      if Nat.ltb b 128 then 1%nat
      else if inRange 194 223 c then two
      else if Nat.eqb b 224 then three 160%nat 191%nat
      else if Nat.eqb b 237 then three 128%nat 159%nat
      else if inRange 225 239 c then three 128%nat 191%nat
      else if Nat.eqb b 240 then four 144%nat 191%nat
      else if inRange 241 243 c then four 128%nat 191%nat
      else if Nat.eqb b 244 then four 128%nat 143%nat
      else 1%nat
  end.

End strings.

(** ** Entities and the heap *)

(** A [*fsEntity]: the address of a cell of the heap.  Go's [nil] is [None]
    of [option ptr]. *)
Abbreviation ptr := nat (only parsing).

Record fsEntity := mkFSEntity {
  name : string;
  fullname : string;
  directory : bool;
  children : gmap string ptr;
  parent : option ptr;
  ids : gmap string Z;
  hrefs : list string
}.

Record Website := mkWebsite { root : ptr }.

Definition with_fullname (v : string) (e : fsEntity) : fsEntity :=
  mkFSEntity (name e) v (directory e) (children e) (parent e) (ids e) (hrefs e).
Definition with_directory (v : bool) (e : fsEntity) : fsEntity :=
  mkFSEntity (name e) (fullname e) v (children e) (parent e) (ids e) (hrefs e).
Definition with_children (v : gmap string ptr) (e : fsEntity) : fsEntity :=
  mkFSEntity (name e) (fullname e) (directory e) v (parent e) (ids e) (hrefs e).
Definition with_parent (v : option ptr) (e : fsEntity) : fsEntity :=
  mkFSEntity (name e) (fullname e) (directory e) (children e) v (ids e) (hrefs e).
Definition with_ids (v : gmap string Z) (e : fsEntity) : fsEntity :=
  mkFSEntity (name e) (fullname e) (directory e) (children e) (parent e) v (hrefs e).
Definition with_hrefs (v : list string) (e : fsEntity) : fsEntity :=
  mkFSEntity (name e) (fullname e) (directory e) (children e) (parent e) (ids e) v.

(** The state a run of the package acts on: the entities allocated so far
    (address = position) and the URLs probed so far, oldest first. *)
Record world := mkWorld {
  heap : list fsEntity;
  probes : list string
}.

Definition init_world : world := mkWorld [] [].

(** ** The monad: state passing over [world]; [None] is a run that does
    not return (a read through a dangling address, or a loop out of fuel). *)

Definition M (A : Type) : Type := world → option (A * world).

Global Instance M_ret : MRet M := λ A a w, Some (a, w).
Global Instance M_bind : MBind M := λ A B f m w,
  match m w with
  | Some (a, w') => f a w'
  | None => None
  end.

Definition stuck {A : Type} : M A := λ _, None.

Definition deref (p : ptr) : M fsEntity := λ w,
  match heap w !! p with
  | Some e => Some (e, w)
  | None => None
  end.

Definition alloc (e : fsEntity) : M ptr := λ w,
  Some (length (heap w), mkWorld (heap w ++ [e]) (probes w)).

Definition modify (p : ptr) (f : fsEntity → fsEntity) : M unit := λ w,
  match heap w !! p with
  | Some e => Some (tt, mkWorld (<[p := f e]> (heap w)) (probes w))
  | None => None
  end.

(** Go's [int] is 64 bits wide here. *)
Definition wrap_int (z : Z) : Z := (z + 2 ^ 63) mod 2 ^ 64 - 2 ^ 63.

(** ** Errors: the values built by [fmt.Errorf], and their messages *)

Inductive error :=
| DuplicateEntity (name : string)
| ReadError (msg : string)
| DuplicateIdentifier (page id : string) (count : Z)
| ExternalProbeFailed (page href : string)
| ExternalStatusError (page : string) (status : Z) (href : string)
| IncompleteFragment (page : string)
| BrokenSamePageLink (page href : string)
| BrokenAbsoluteLink (page href : string)
| BrokenRelativeLink (page href : string)
| BrokenFragmentTarget (page href target : string).

Definition Error (e : error) : string :=
  match e with
  | DuplicateEntity n => "file already registered with name '" +:+ n +:+ "'"
  | ReadError msg => msg
  | DuplicateIdentifier page id count =>
      page +:+ ": id '" +:+ id +:+ "' appears " +:+ pretty count
           +:+ " times on the page (it should only appear once)"
  | ExternalProbeFailed page href =>
      page +:+ ": encountered error when pinging '" +:+ href +:+ "'"
  | ExternalStatusError page status href =>
      page +:+ ": encountered status code " +:+ pretty status +:+ " when pinging '" +:+ href +:+ "'"
  | IncompleteFragment page => page +:+ ": incomplete target '#'"
  | BrokenSamePageLink page href => page +:+ ": broken same page link '" +:+ href +:+ "'"
  | BrokenAbsoluteLink page href => page +:+ ": broken link '" +:+ href +:+ "'"
  | BrokenRelativeLink page href => page +:+ ": broken relative link '" +:+ href +:+ "'"
  | BrokenFragmentTarget page href target =>
      page +:+ ": broken target link '" +:+ href +:+ "#" +:+ target +:+ "'"
  end.

(** ** The entity tree *)

Definition allocateFSEntity (name : string) : M ptr :=
  alloc (mkFSEntity name "" false ∅ None ∅ []).

Definition New : M Website :=
  ent ← allocateFSEntity "/";
  modify ent (with_directory true);;
  mret (mkWebsite ent).

Definition prepareFileName (name : string) : string :=
  if strings.HasPrefix name "/" then
    strings.slice_from (strings.DecodeRuneInString_size name) name
  else name.

(** The loop of [calcFullName].  It follows [parent] pointers; the fuel
    bounds the number of iterations, and a chain longer than the heap (a
    cycle, on which the Go loop spins for ever) ends in [stuck]. *)
Fixpoint calcFullName_loop (fuel : nat) (current : option ptr) (fullname : string)
  : M string :=
  match current with
  | None => mret fullname
  | Some c =>
      e ← deref c;
      match parent e with
      | None => mret fullname
      | Some _ =>
          match fuel with
          | O => stuck
          | S fuel' =>
              calcFullName_loop fuel' (parent e)
                (if Nat.eqb (String.length fullname) 0 then name e
                 else name e +:+ "/" +:+ fullname)
          end
      end
  end.

Definition calcFullName (entity : ptr) : M string := λ w,
  calcFullName_loop (length (heap w)) (Some entity) "" w.

Fixpoint createFSEntity (parent : ptr) (components : list string) : M (option ptr) :=
  match components with
  | [] => mret (Some parent)
  | c0 :: rest =>
      p ← deref parent;
      if directory p then
        match children p !! c0 with
        | Some child => createFSEntity child rest
        | None =>
            child ← allocateFSEntity c0;
            modify child (with_parent (Some parent));;
            fn ← calcFullName child;
            modify child (with_fullname fn);;
            modify parent (λ e, with_children (<[c0 := child]> (children e)) e);;
            if Nat.ltb 1 (length components) then
              modify child (with_directory true);;
              createFSEntity child rest
            else mret (Some child)
        end
      else mret None
  end.

Definition newFSEntity (root : ptr) (path : string) : M (option ptr) :=
  createFSEntity root (strings.Split path "/").

Definition AddFile (w : Website) (name : string) : M (option error) :=
  let name := prepareFileName name in
  ent ← newFSEntity (root w) name;
  match ent with
  | None => mret (Some (DuplicateEntity name))
  | Some _ => mret None
  end.

(** ** Documents

    What [goquery] hands to [visitNode]: a node with the lower-cased name
    that [strings.ToLower(goquery.NodeName(s))] yields, its attributes in
    document order, and its element children. *)
Inductive node := Node (nodeName : string) (attrs : list (string * string)) (kids : list node).

Fixpoint Attr (attrs : list (string * string)) (key : string) : option string :=
  match attrs with
  | [] => None
  | (k, v) :: attrs' => if String.eqb k key then Some v else Attr attrs' key
  end.

Definition appendHref (entity : ptr) (href : string) : M unit :=
  modify entity (λ e, with_hrefs (hrefs e ++ [href]) e).

Fixpoint appendSrcset (entity : ptr) (images : list string) : M unit :=
  match images with
  | [] => mret tt
  | image :: images' =>
      let index := strings.LastIndex image " " in
      (if index <? 0 then appendHref entity image
       else appendHref entity (strings.slice_to (Z.to_nat index) image));;
      appendSrcset entity images'
  end.

Definition whenAttr (attrs : list (string * string)) (key : string) (f : string → M unit)
  : M unit :=
  match Attr attrs key with
  | Some v => f v
  | None => mret tt
  end.

Definition isLinkTag (n : string) : bool := String.eqb n "a" || String.eqb n "link".
Definition isSourceTag (n : string) : bool :=
  String.eqb n "script" || String.eqb n "img" || String.eqb n "source".

Fixpoint visitNode (entity : ptr) (s : node) {struct s} : M unit :=
  match s with
  | Node nodeName attrs kids =>
      (if isLinkTag nodeName then whenAttr attrs "href" (appendHref entity)
       else if isSourceTag nodeName then
         whenAttr attrs "src" (appendHref entity);;
         whenAttr attrs "srcset" (λ srcsets, appendSrcset entity (strings.Split srcsets ","))
       else mret tt);;
      whenAttr attrs "id" (λ id,
        modify entity (λ e, with_ids (<[id := wrap_int (default 0 (ids e !! id) + 1)]> (ids e)) e));;
      (fix each (l : list node) : M unit :=
         match l with
         | [] => mret tt
         | k :: l' => visitNode entity k;; each l'
         end) kids
  end.

(** [reader] is what [goquery.NewDocumentFromReader] makes of the
    [io.Reader]: the error it returns, or the document node.  ([AddDocument]
    opens the file of that name and calls this function; printing the
    error is left out.) *)
Definition AddDocumentFromReader (w : Website) (name : string) (reader : string + node)
  : M (option error) :=
  let name := prepareFileName name in
  entity ← newFSEntity (root w) name;
  match entity with
  | None => mret (Some (DuplicateEntity name))
  | Some entity =>
      match reader with
      | inl err => mret (Some (ReadError err))
      | inr doc => visitNode entity doc;; mret None
      end
  end.

(** ** Path resolution *)

Definition indexFiles : list string := ["index.html"; "index.htm"; "index.tmpl"].

Fixpoint firstIndex (kids : gmap string ptr) (names : list string) : option ptr :=
  match names with
  | [] => None
  | index :: names' =>
      match kids !! index with
      | Some ent => Some ent
      | None => firstIndex kids names'
      end
  end.

Fixpoint isPathValid (entity : option ptr) (components : list string) {struct components}
  : M (option ptr) :=
  match entity with
  | None => mret None
  | Some p =>
      e ← deref p;
      match components with
      | [] =>
          if directory e then mret (firstIndex (children e) indexFiles)
          else mret (Some p)
      | c0 :: rest =>
          if String.eqb c0 ".." then isPathValid (parent e) rest
          else match children e !! c0 with
               | Some child => isPathValid (Some child) rest
               | None => mret None
               end
      end
  end.

Fixpoint nonEmptyPieces (components : list string) : list string :=
  match components with
  | [] => []
  | c :: components' =>
      if Nat.ltb 0 (String.length c) then c :: nonEmptyPieces components'
      else nonEmptyPieces components'
  end.

Definition splitPath (path : string) : list string :=
  nonEmptyPieces (strings.Split path "/").

(** ** Validation *)

Section Validation.

(** The HTTP collaborator behind [ping]: from the URLs probed so far and
    the URL of a HEAD request, the error of [http.NewRequest] or
    [client.Do], or the status code of the response. *)
Variable transport : list string → string → string + Z.

Definition httpHead (url : string) : M (string + Z) := λ w,
  Some (transport (probes w) url, mkWorld (heap w) (probes w ++ [url])).

Definition ping (url : string) : M (Z * option string) :=
  resp ← httpHead url;
  match resp with
  | inl err => mret (0, Some err)
  | inr StatusCode => mret (StatusCode, None)
  end.

(** The tail of the loop body of [validate]: the fragment check on the
    entity a path resolved to. *)
Definition checkTarget (page : fsEntity) (errors : list error)
    (hashIndex : Z) (href target : string) (targetEnt : ptr) : M (list error) :=
  if 0 <? hashIndex then
    t ← deref targetEnt;
    match ids t !! target with
    | Some _ => mret errors
    | None => mret (errors ++ [BrokenFragmentTarget (fullname page) href target])
    end
  else mret errors.

(** One iteration of [for _, href := range entity.hrefs]. *)
Definition validateHref (website : Website) (entity : ptr) (errors : list error)
    (href : string) : M (list error) :=
  page ← deref entity;
  let href := strings.TrimSpace href in
  let href := strings.Replace href "\" "/" in
  if strings.HasPrefix href "http" then
    r ← ping href;
    match snd r with
    | Some _ => mret (errors ++ [ExternalProbeFailed (fullname page) href])
    | None =>
        if negb (fst r =? 200)
        then mret (errors ++ [ExternalStatusError (fullname page) (fst r) href])
        else mret errors
    end
  else if String.eqb href "#" then mret (errors ++ [IncompleteFragment (fullname page)])
  else if String.eqb href "/" then mret errors
  else
    let hashIndex := strings.LastIndex href "#" in
    if hashIndex =? 0 then
      let target := strings.slice_from (strings.DecodeRuneInString_size href) href in
      match ids page !! target with
      | Some _ => mret errors
      | None => mret (errors ++ [BrokenSamePageLink (fullname page) href])
      end
    else
      let target :=
        if 0 <? hashIndex
        then strings.TrimSpace (strings.slice_from (Z.to_nat (hashIndex + 1)) href)
        else "" in
      let href :=
        if 0 <? hashIndex
        then strings.TrimSpace (strings.slice_to (Z.to_nat hashIndex) href)
        else href in
      if strings.HasPrefix href "/" then
        targetEnt ← isPathValid (Some (root website)) (splitPath href);
        match targetEnt with
        | None => mret (errors ++ [BrokenAbsoluteLink (fullname page) href])
        | Some t => checkTarget page errors hashIndex href target t
        end
      else
        targetEnt ← isPathValid (parent page) (splitPath href);
        match targetEnt with
        | None => mret (errors ++ [BrokenRelativeLink (fullname page) href])
        | Some t => checkTarget page errors hashIndex href target t
        end.

Fixpoint validateHrefs (website : Website) (entity : ptr) (errors : list error)
    (hrefs : list string) : M (list error) :=
  match hrefs with
  | [] => mret errors
  | href :: hrefs' =>
      errors' ← validateHref website entity errors href;
      validateHrefs website entity errors' hrefs'
  end.

(** [for name, count := range entity.ids]. *)
Fixpoint duplicateIds (page : fsEntity) (errors : list error) (l : list (string * Z))
  : list error :=
  match l with
  | [] => errors
  | (name, count) :: l' =>
      duplicateIds page
        (if 1 <? count then errors ++ [DuplicateIdentifier (fullname page) name count]
         else errors) l'
  end.

(** [validate] recurses through [children]; the fuel bounds the depth of
    the descent.  Go ranges over a map in an unspecified order: here the
    order is the one of [map_to_list]. *)
Fixpoint validate (fuel : nat) (website : Website) (entity : ptr) : M (list error) :=
  match fuel with
  | O => stuck
  | S fuel' =>
      e ← deref entity;
      if directory e then
        (fix each (errors : list error) (l : list (string * ptr)) : M (list error) :=
           match l with
           | [] => mret errors
           | (_, child) :: l' =>
               errs ← validate fuel' website child;
               each (errors ++ errs) l'
           end) [] (map_to_list (children e))
      else
        validateHrefs website entity
          (duplicateIds e [] (map_to_list (ids e))) (hrefs e)
  end.

Definition Validate (w : Website) : M (list error) := λ s,
  validate (length (heap s)) w (root w) s.

End Validation.

(** ** Notions the statements are written with *)

(** Following [children] only: the entity a sequence of names leads to. *)
Fixpoint walk (h : list fsEntity) (p : ptr) (components : list string) : option ptr :=
  match components with
  | [] => Some p
  | c :: rest =>
      match h !! p with
      | Some e =>
          match children e !! c with
          | Some q => walk h q rest
          | None => None
          end
      | None => None
      end
  end.

(** What every heap built by the package satisfies: a [children] entry
    leads from a directory to a live entity that names it as its parent
    under that very name, and [parent] pointers go to older entities. *)
Record heap_wf (h : list fsEntity) : Prop := mkHeapWf {
  wf_child : ∀ p e c q, h !! p = Some e → children e !! c = Some q →
    directory e = true ∧ ∃ e', h !! q = Some e' ∧ parent e' = Some p ∧ name e' = c;
  wf_parent : ∀ q e p, h !! q = Some e → parent e = Some p → (p < q)%nat
}.

Definition tree_ok (site : Website) (h : list fsEntity) : Prop :=
  heap_wf h ∧ ∃ r, h !! root site = Some r ∧ directory r = true ∧ parent r = None.

(** The worlds a program reaches with one website: [New], then any
    number of registrations and validations. *)
Inductive reachable (site : Website) : world → Prop :=
| reach_New w0 w :
    heap_wf (heap w0) → New w0 = Some (site, w) → reachable site w
| reach_AddFile w name r w' :
    reachable site w → AddFile site name w = Some (r, w') → reachable site w'
| reach_AddDocument w name reader r w' :
    reachable site w → AddDocumentFromReader site name reader w = Some (r, w') →
    reachable site w'
| reach_Validate transport w errs w' :
    reachable site w → Validate transport site w = Some (errs, w') → reachable site w'.

(** [h'] extends [h]: every entity of [h] is still there with the same
    fields, except that a directory may have gained children. *)
Definition extends (h h' : list fsEntity) : Prop :=
  (length h ≤ length h')%nat ∧
  ∀ q e, h !! q = Some e →
    ∃ e', h' !! q = Some e' ∧ name e' = name e ∧ fullname e' = fullname e ∧
          directory e' = directory e ∧ parent e' = parent e ∧
          ids e' = ids e ∧ hrefs e' = hrefs e ∧
          (∀ c x, children e !! c = Some x → children e' !! c = Some x).

(** What [validate] does to a raw reference before it classifies it. *)
Definition sanitize (href : string) : string :=
  strings.Replace (strings.TrimSpace href) "\" "/".

(** The heap after [createFSEntity] has hung a new entity [c0] under
    [parent]. *)
Definition attach (h : list fsEntity) (parent : ptr) (p : fsEntity)
    (c0 fn : string) (dir : bool) : list fsEntity :=
  <[parent := with_children (<[c0 := length h]> (children p)) p]>
    (h ++ [mkFSEntity c0 fn dir ∅ (Some parent) ∅ []]).

(** On a heap [h], [m] returns, leaves the heap as it is, and its result
    satisfies [Q]. *)
Definition reads {A : Type} (h : list fsEntity) (m : M A) (Q : A → Prop) : Prop :=
  ∀ w, heap w = h → ∃ a w', m w = Some (a, w') ∧ heap w' = h ∧ Q a.

(** [h'] has the entities of [h] with the same place in the tree. *)
Definition same_tree (h h' : list fsEntity) : Prop :=
  length h = length h' ∧
  ∀ q e, h !! q = Some e →
    ∃ e', h' !! q = Some e' ∧ name e' = name e ∧ fullname e' = fullname e ∧
          directory e' = directory e ∧ parent e' = parent e ∧ children e' = children e.

(** A computation that returns on every world where [entity] is live, and
    leaves the tree and the probes as they are. *)
Definition annotates (entity : ptr) (m : M unit) : Prop :=
  ∀ w, is_Some (heap w !! entity) →
    ∃ w', m w = Some (tt, w') ∧ probes w' = probes w ∧ same_tree (heap w) (heap w').

(** ** Registration scripts *)

(** One call of the registration interface. *)
Inductive registration :=
| RegFile (name : string)
| RegDocument (name : string) (reader : string + node).

Definition regName (r : registration) : string :=
  match r with
  | RegFile name => name
  | RegDocument name _ => name
  end.

Definition register (site : Website) (r : registration) : M (option error) :=
  match r with
  | RegFile name => AddFile site name
  | RegDocument name reader => AddDocumentFromReader site name reader
  end.

Fixpoint registerAll (site : Website) (rs : list registration) : M (list (option error)) :=
  match rs with
  | [] => mret []
  | r :: rs' =>
      err ← register site r;
      errs ← registerAll site rs';
      mret (err :: errs)
  end.

(** The names [newFSEntity] walks for a registered file name. *)
Definition segments (name : string) : list string :=
  strings.Split (prepareFileName name) "/".

(** A file name none of whose segments is empty or [".."]. *)
Definition plain (name : string) : Prop :=
  Forall (λ c, c ≠ "" ∧ c ≠ "..") (segments name).

(** The bookkeeping of a run of registrations: [reg] lists the registered
    paths with their entities; each is a leaf at its path, and every
    entity below the root lies on a registered path. *)
Definition registry_ok (site : Website) (h : list fsEntity)
    (reg : list (list string * ptr)) : Prop :=
  tree_ok site h ∧
  (∀ q e, (q, e) ∈ reg →
     walk h (root site) q = Some e ∧ ∃ ee, h !! e = Some ee ∧ directory ee = false) ∧
  (∀ q x, q ≠ [] → walk h (root site) q = Some x →
     ∃ q' e', (q', e') ∈ reg ∧ q `prefix_of` q').

(** [q] is no prefix of a registered path, and none is a prefix of [q]. *)
Definition apart (q : list string) (reg : list (list string * ptr)) : Prop :=
  ∀ q' e', (q', e') ∈ reg → ¬ q `prefix_of` q' ∧ ¬ q' `prefix_of` q.

(** ** A small website, used to exercise the statements *)

Definition home_doc : node :=
  Node "html" []
    [Node "body" []
       [Node "h1" [("id", "intro")] [];
        Node "a" [("href", "blog/")] []]].

Definition post_doc : node :=
  Node "html" []
    [Node "body" []
       [Node "h1" [("id", "top")] [];
        Node "a" [("href", " # ")] [];
        Node "a" [("href", "/")] [];
        Node "a" [("href", "#top")] [];
        Node "a" [("href", "..\index.html#intro")] [];
        Node "a" [("href", "http://example.com/")] []]].

Definition demo_script : list registration :=
  [ RegDocument "/index.html" (inr home_doc);
    RegDocument "/blog/post.html" (inr post_doc);
    RegFile "/blog/index.htm";
    RegFile "/blog/index.tmpl" ].

Definition demo_site : Website := mkWebsite 0.

Definition demo_world : world :=
  match (site ← New; registerAll site demo_script) init_world with
  | Some (_, w) => w
  | None => init_world
  end.

(** Three of its entities, as they sit in [demo_world]. *)
Definition demo_root : fsEntity :=
  mkFSEntity "/" "" true (<["blog" := 2%nat]> (<["index.html" := 1%nat]> ∅)) None ∅ [].

Definition demo_blog : fsEntity :=
  mkFSEntity "blog" "blog" true
    (<["index.tmpl" := 5%nat]> (<["index.htm" := 4%nat]> (<["post.html" := 3%nat]> ∅)))
    (Some 0%nat) ∅ [].

Definition demo_post : fsEntity :=
  mkFSEntity "post.html" "blog/post.html" false ∅ (Some 2%nat) (<["top" := 1]> ∅)
    [" # "; "/"; "#top"; "..\index.html#intro"; "http://example.com/"].

(** A script of two plain paths, neither under the other. *)
Definition two_files : list registration :=
  [RegFile "/index.html"; RegFile "blog/post.html"].

(** A page whose only reference is [#a#b]. *)
Definition two_hashes_doc : node := Node "a" [("href", "#a#b")] [].

(** A page with one link. *)
Definition one_link_doc : node := Node "a" [("href", "x")] [].

(** A network on which every host answers 404. *)
Definition demo_transport : list string → string → string + Z := λ _ _, inr 404.

(** ** Notions for the further statements *)

(** The pieces of a path, joined by [/]. *)
Fixpoint joinPath (pieces : list string) : string :=
  match pieces with
  | [] => ""
  | [c] => c
  | c :: rest => c +:+ "/" +:+ joinPath rest
  end.

(** No byte of [s] is [c]. *)
Definition free_of (c : ascii) (s : string) : Prop :=
  ∀ i, String.get i s ≠ Some c.

(** What the loop of [calcFullName] has in [fullname] once it has climbed
    from the end of the path [q] to the root, starting with [acc]. *)
Definition joinAcc (q : list string) (acc : string) : string :=
  match q, acc with
  | [], _ => acc
  | _, EmptyString => joinPath q
  | _, _ => joinPath q +:+ "/" +:+ acc
  end.

(** Every entity at the end of a path of non-empty names from the root
    carries that path, joined by [/], as its full name. *)
Definition names_ok (site : Website) (h : list fsEntity) : Prop :=
  ∀ q x ex, Forall (λ c, c ≠ "") q →
    walk h (root site) q = Some x → h !! x = Some ex → fullname ex = joinPath q.

(** A page without defect, in a heap [h]: no identifier occurs twice, and
    each of its references that is not external passes the loop body of
    [validate] without an error, in every world with that heap. *)
Definition clean_page (transport : list string → string → string + Z)
    (site : Website) (h : list fsEntity) (x : ptr) (ex : fsEntity) : Prop :=
  (∀ id n, ids ex !! id = Some n → n ≤ 1) ∧
  ∀ href, href ∈ hrefs ex → strings.HasPrefix (sanitize href) "http" = false →
    ∀ w0, heap w0 = h → validateHref transport site x [] href w0 = Some ([], w0).

(** The loop [for _, child := range entity.children] of [validate], by
    name: [validate] at fuel [S fuel] runs it at fuel [fuel]. *)
Definition validateChildren (transport : list string → string → string + Z)
    (fuel : nat) (website : Website)
  : list error → list (string * ptr) → M (list error) :=
  fix each (errors : list error) (l : list (string * ptr)) : M (list error) :=
    match l with
    | [] => mret errors
    | (_, child) :: l' =>
        errs ← validate transport fuel website child;
        each (errors ++ errs) l'
    end.

(** A website on which every page is in order: the home page links to the
    directory [blog/], which has an index file. *)
Definition clean_script : list registration :=
  [ RegDocument "/index.html" (inr home_doc);
    RegFile "/blog/index.htm" ].

Definition clean_world : world :=
  match (site ← New; registerAll site clean_script) init_world with
  | Some (_, w) => w
  | None => init_world
  end.

Definition clean_root : fsEntity :=
  mkFSEntity "/" "" true (<["blog" := 2%nat]> (<["index.html" := 1%nat]> ∅)) None ∅ [].

Definition clean_home : fsEntity :=
  mkFSEntity "index.html" "index.html" false ∅ (Some 0%nat) (<["intro" := 1]> ∅) ["blog/"].

Definition clean_blog : fsEntity :=
  mkFSEntity "blog" "blog" true (<["index.htm" := 3%nat]> ∅) (Some 0%nat) ∅ [].

Definition clean_index : fsEntity :=
  mkFSEntity "index.htm" "blog/index.htm" false ∅ (Some 2%nat) ∅ [].

(** A network that cannot be reached at all. *)
Definition dead_transport : list string → string → string + Z :=
  λ _ _, inl "network is unreachable".

(** ** What a scan collects, as pure functions of the document *)

(** An entry of a [srcset] attribute without its descriptor: the [if]
    inside [for _, image := range images]. *)
Definition cutDescriptor (image : string) : string :=
  let index := strings.LastIndex image " " in
  if index <? 0 then image else strings.slice_to (Z.to_nat index) image.

(** The references the [switch] of [visitNode] appends for one element. *)
Definition nodeLinks (nodeName : string) (attrs : list (string * string)) : list string :=
  if isLinkTag nodeName then
    match Attr attrs "href" with Some href => [href] | None => [] end
  else if isSourceTag nodeName then
    match Attr attrs "src" with Some src => [src] | None => [] end ++
    match Attr attrs "srcset" with
    | Some srcsets => cutDescriptor <$> strings.Split srcsets ","
    | None => []
    end
  else [].

(** The references of a document, in document order. *)
Fixpoint links (s : node) : list string :=
  match s with
  | Node nodeName attrs kids =>
      nodeLinks nodeName attrs ++
      (fix each (l : list node) : list string :=
         match l with
         | [] => []
         | k :: l' => links k ++ each l'
         end) kids
  end.

(** The [id] attributes of a document, in document order. *)
Fixpoint idsOf (s : node) : list string :=
  match s with
  | Node _ attrs kids =>
      match Attr attrs "id" with Some id => [id] | None => [] end ++
      (fix each (l : list node) : list string :=
         match l with
         | [] => []
         | k :: l' => idsOf k ++ each l'
         end) kids
  end.

(** [entity.ids[id]++]. *)
Definition bump (m : gmap string Z) (id : string) : gmap string Z :=
  <[id := wrap_int (default 0 (m !! id) + 1)]> m.

(** An entity after [hs] has been appended to its references and the
    identifiers [ns] have been counted, one after the other. *)
Definition note (hs ns : list string) (e : fsEntity) : fsEntity :=
  with_ids (foldl bump (ids e) ns) (with_hrefs (hrefs e ++ hs) e).

(** [m] returns on every world where [entity] is live, and all it does is
    [note hs ns] on that entity. *)
Definition notes (entity : ptr) (m : M unit) (hs ns : list string) : Prop :=
  ∀ w e, heap w !! entity = Some e →
    m w = Some (tt, mkWorld (<[entity := note hs ns e]> (heap w)) (probes w)).

(** The number of times [id] occurs in [l]. *)
Definition occurrences (id : string) (l : list string) : nat :=
  length (filter (λ x, x = id) l).

(** ** Documents on disk *)

Section Files.

(** The file system behind [AddDocument]: for a file name, the error of
    [os.Open], or what [goquery.NewDocumentFromReader] makes of the open
    file. *)
Variable fs : string → string + (string + node).

(** The error of [os.Open] is returned as it is, like that of [goquery];
    printing it and closing the file are left out. *)
Definition AddDocument (w : Website) (name : string) : M (option error) :=
  let name := prepareFileName name in
  match fs name with
  | inl err => mret (Some (ReadError err))
  | inr file => AddDocumentFromReader w name file
  end.

End Files.

(** ** What a report is made of *)

(** [err] reports an identifier that occurs more than once on [ex]. *)
Definition duplicated (ex : fsEntity) (err : error) : Prop :=
  ∃ id n, ids ex !! id = Some n ∧ 1 < n ∧ err = DuplicateIdentifier (fullname ex) id n.

(** A page on which an identifier occurs twice. *)
Definition twice_doc : node :=
  Node "div" [("id", "a")] [Node "p" [("id", "a")] []].

Definition twice_script : list registration := [RegDocument "/p.html" (inr twice_doc)].

Definition twice_world : world :=
  match (site ← New; registerAll site twice_script) init_world with
  | Some (_, w) => w
  | None => init_world
  end.

Definition twice_page : fsEntity :=
  mkFSEntity "p.html" "p.html" false ∅ (Some 0%nat) (<["a" := 2]> ∅) [].

(** ** Validation under any order of [range] *)

(** [for _, child := range entity.children], the visit of a child being
    [visit]. *)
Definition rangeOver (visit : ptr → M (list error))
  : list error → list (string * ptr) → M (list error) :=
  fix each (errors : list error) (l : list (string * ptr)) : M (list error) :=
    match l with
    | [] => mret errors
    | (_, child) :: l' =>
        errs ← visit child;
        each (errors ++ errs) l'
    end.

Section RangeOrder.

Variable transport : list string → string → string + Z.

(** Go hands out the entries of a map in an order it does not specify and
    that changes from one [range] to the next.  Here the order of each
    [range] of a run is given from outside: [rangeChildren entity] is the
    order for [entity.children], [rangeIds entity] the one for
    [entity.ids]. *)
Variable rangeChildren : ptr → gmap string ptr → list (string * ptr).
Variable rangeIds : ptr → gmap string Z → list (string * Z).

(** [validate], with the order of each [range] taken from
    [rangeChildren] and [rangeIds]. *)
Fixpoint validateBy (fuel : nat) (website : Website) (entity : ptr) : M (list error) :=
  match fuel with
  | O => stuck
  | S fuel' =>
      e ← deref entity;
      if directory e then
        (fix each (errors : list error) (l : list (string * ptr)) : M (list error) :=
           match l with
           | [] => mret errors
           | (_, child) :: l' =>
               errs ← validateBy fuel' website child;
               each (errors ++ errs) l'
           end) [] (rangeChildren entity (children e))
      else
        validateHrefs transport website entity
          (duplicateIds e [] (rangeIds entity (ids e))) (hrefs e)
  end.

Definition ValidateBy (w : Website) : M (list error) := λ s,
  validateBy (length (heap s)) w (root w) s.

End RangeOrder.

(** An order [range] may take: the entries of the map, each once. *)
Definition range_order {A : Type} (range : ptr → gmap string A → list (string * A)) : Prop :=
  ∀ p m, range p m ≡ₚ map_to_list m.

(** The order of [map_to_list], and the opposite one. *)
Definition ascending {A : Type} : ptr → gmap string A → list (string * A) :=
  λ _ m, map_to_list m.
Definition descending {A : Type} : ptr → gmap string A → list (string * A) :=
  λ _ m, reverse (map_to_list m).

(** What the [ids] loop of [validate] adds for one entry. *)
Definition duplicateId (page : fsEntity) (kv : string * Z) : list error :=
  if 1 <? kv.2 then [DuplicateIdentifier (fullname page) kv.1 kv.2] else [].

(** Two pages with one error each and no external reference. *)
Definition offline_script : list registration :=
  [ RegDocument "/a.html" (inr two_hashes_doc);
    RegDocument "/b.html" (inr twice_doc) ].

Definition offline_world : world :=
  match (site ← New; registerAll site offline_script) init_world with
  | Some (_, w) => w
  | None => init_world
  end.

(** * Properties *)

(** ** The model on the examples of the test suite *)

Example Split_keeps_empty_pieces :
  strings.Split "a//b/" "/" = ["a"; ""; "b"; ""] ∧ strings.Split "" "/" = [""].
Proof. split; reflexivity. Qed.

Example splitPath_drops_empty_pieces : splitPath "/a//b/" = ["a"; "b"].
Proof. reflexivity. Qed.

Example LastIndex_examples :
  strings.LastIndex "a#b#c" "#" = 3 ∧ strings.LastIndex "abc" "#" = -1.
Proof. split; reflexivity. Qed.

Example TrimSpace_example :
  strings.TrimSpace ("  " +:+ strings.bytes [194; 160]%nat +:+ "a b"
                     +:+ strings.bytes [10; 226; 128; 131]%nat) = "a b".
Proof. vm_compute. reflexivity. Qed.

Example prepareFileName_examples :
  prepareFileName "/blog/index.html" = "blog/index.html" ∧
  prepareFileName "blog/index.html" = "blog/index.html" ∧
  prepareFileName "//a" = "/a".
Proof. split_and!; reflexivity. Qed.

(** [TestInvalidRelativeLinks]: one broken relative link, with its message. *)
Example broken_relative_link_message :
  fst <$> (site ← New;
           AddDocumentFromReader site "/blog/index.html"
             (inr (Node "a" [("href", "../blog/second-post.html")] []));;
           errs ← Validate demo_transport site;
           mret (Error <$> errs)) init_world
  = Some ["blog/index.html: broken relative link '../blog/second-post.html'"].
Proof. vm_compute. reflexivity. Qed.

(** Two elements with the same [id], a 404, and the empty website. *)
Example duplicate_id_and_status_messages :
  fst <$> (site ← New;
           AddDocumentFromReader site "index.html"
             (inr (Node "body" [("id", "x")]
                     [Node "p" [("id", "x")] [];
                      Node "a" [("href", "https://example.com/missing")] []]));;
           errs ← Validate demo_transport site;
           mret (Error <$> errs)) init_world
  = Some ["index.html: id 'x' appears 2 times on the page (it should only appear once)";
          "index.html: encountered status code 404 when pinging 'https://example.com/missing'"]
  ∧ fst <$> (site ← New; Validate demo_transport site) init_world = Some [].
Proof. split; vm_compute; reflexivity. Qed.

(** Two plain paths, registered and then resolved from the root. *)
Example two_files_resolve :
  fst <$> (site ← New;
           registerAll site two_files;;
           index ← isPathValid (Some (root site)) (splitPath "/index.html");
           post ← isPathValid (Some (root site)) (splitPath "blog/post.html");
           blog ← isPathValid (Some (root site)) (splitPath "blog");
           mret (index, post, blog)) init_world
  = Some (Some 1%nat, Some 3%nat, None).
Proof. vm_compute. reflexivity. Qed.

(** ** Running the monad *)

Lemma bind_run {A B : Type} (m : M A) (f : A → M B) (w : world) :
  (m ≫= f) w = match m w with Some (a, w') => f a w' | None => None end.
Proof. reflexivity. Qed.

Lemma ret_run {A : Type} (a : A) (w : world) : (mret a : M A) w = Some (a, w).
Proof. reflexivity. Qed.

Lemma deref_run (p : ptr) (e : fsEntity) (w : world) :
  heap w !! p = Some e → deref p w = Some (e, w).
Proof. intros H. unfold deref. by rewrite H. Qed.

Lemma modify_run (p : ptr) (f : fsEntity → fsEntity) (e : fsEntity) (w : world) :
  heap w !! p = Some e →
  modify p f w = Some (tt, mkWorld (<[p := f e]> (heap w)) (probes w)).
Proof. intros H. unfold modify. by rewrite H. Qed.

Ltac run_deref H := rewrite bind_run; unfold deref at 1; cbn [heap]; rewrite H.

(** ** Reference shapes *)

Lemma LastIndex_from_range (s : string) (c : ascii) (i last : Z) :
  strings.LastIndex_from i last s c = last ∨ i ≤ strings.LastIndex_from i last s c.
Proof.
  revert i last. induction s as [|a s IH]; intros i last; simpl; [by left|].
  destruct (IH (i + 1) (if Ascii.eqb a c then i else last)) as [-> | Hle].
  - destruct (Ascii.eqb a c); [right; lia | by left].
  - right. lia.
Qed.

Lemma LastIndex_zero_head (s : string) (c : ascii) :
  strings.LastIndex s c = 0 → ∃ s', s = String c s'.
Proof.
  unfold strings.LastIndex. destruct s as [|a s]; simpl; [lia|].
  destruct (Ascii.eqb_spec a c) as [-> | Hne]; [eauto|].
  intros H. destruct (LastIndex_from_range s c (0 + 1) (-1)); lia.
Qed.

Lemma LastIndex_from_occurrence (s : string) (c : ascii) (j : nat) (i last : Z) :
  String.get j s = Some c → i + Z.of_nat j ≤ strings.LastIndex_from i last s c.
Proof.
  revert j i last. induction s as [|a s IH]; intros j i last; simpl; [done|].
  destruct j as [|j].
  - intros [= ->]. rewrite Ascii.eqb_refl.
    destruct (LastIndex_from_range s c (i + 1) i); lia.
  - intros Hj. specialize (IH j (i + 1) (if Ascii.eqb a c then i else last) Hj). lia.
Qed.

(** A byte [c] at a position greater than 0 puts [LastIndex] above 0. *)
Lemma LastIndex_occurrence_pos (s : string) (c : ascii) (j : nat) :
  (0 < j)%nat → String.get j s = Some c → 0 < strings.LastIndex s c.
Proof.
  intros Hj Hget. pose proof (LastIndex_from_occurrence s c j 0 (-1) Hget).
  unfold strings.LastIndex. lia.
Qed.

Lemma LastIndex_pos_not_special (s : string) :
  0 < strings.LastIndex s "#" → String.eqb s "#" = false ∧ String.eqb s "/" = false.
Proof.
  intros H. split; apply String.eqb_neq; intros ->; vm_compute in H; discriminate.
Qed.

(** ** Walks *)

Lemma walk_app (h : list fsEntity) (p : ptr) (q1 q2 : list string) :
  walk h p (q1 ++ q2) = walk h p q1 ≫= λ d, walk h d q2.
Proof.
  revert p. induction q1 as [|c q1 IH]; intros p; simpl; [done|].
  destruct (h !! p) as [e|]; [|done].
  destruct (children e !! c) as [q|]; [|done]. apply IH.
Qed.

Lemma walk_snoc (h : list fsEntity) (p : ptr) (q : list string) (c : string) (x : ptr) :
  walk h p (q ++ [c]) = Some x ↔
  ∃ d e, walk h p q = Some d ∧ h !! d = Some e ∧ children e !! c = Some x.
Proof.
  rewrite walk_app. split.
  - destruct (walk h p q) as [d|]; simpl; [|done].
    destruct (h !! d) as [e|] eqn:He; [|done].
    destruct (children e !! c) as [y|] eqn:Hc; [|done].
    intros [= <-]. eauto.
  - intros (d & e & -> & He & Hc). simpl. by rewrite He, Hc.
Qed.

Lemma walk_valid (h : list fsEntity) (p x : ptr) (q : list string) :
  heap_wf h → is_Some (h !! p) → walk h p q = Some x → is_Some (h !! x).
Proof.
  intros Hwf. revert p. induction q as [|c q IH]; intros p Hp; simpl.
  - by intros [= <-].
  - destruct (h !! p) as [e|] eqn:He; [|done].
    destruct (children e !! c) as [y|] eqn:Hc; [|done].
    apply IH. destruct (wf_child _ Hwf _ _ _ _ He Hc) as (_ & e' & -> & _). eauto.
Qed.

Lemma walk_extends (h h' : list fsEntity) (p x : ptr) (q : list string) :
  extends h h' → walk h p q = Some x → walk h' p q = Some x.
Proof.
  intros [_ Hext]. revert p. induction q as [|c q IH]; intros p; simpl; [done|].
  destruct (h !! p) as [e|] eqn:He; [|done].
  destruct (children e !! c) as [y|] eqn:Hc; [|done].
  destruct (Hext _ _ He) as (e' & -> & _ & _ & _ & _ & _ & _ & Hch).
  rewrite (Hch _ _ Hc). apply IH.
Qed.

Lemma extends_refl (h : list fsEntity) : extends h h.
Proof. split; [done|]. intros q e He. exists e. naive_solver. Qed.

Lemma extends_trans (h1 h2 h3 : list fsEntity) :
  extends h1 h2 → extends h2 h3 → extends h1 h3.
Proof.
  intros [Hl1 H1] [Hl2 H2]. split; [lia|]. intros q e He.
  destruct (H1 _ _ He) as (e2 & He2 & ? & ? & ? & ? & ? & ? & Hc2).
  destruct (H2 _ _ He2) as (e3 & He3 & ? & ? & ? & ? & ? & ? & Hc3).
  exists e3. repeat split; try congruence. intros c x Hc. eauto.
Qed.

(** Two walks from the root that end in the same entity spell the same path. *)
Lemma walk_unique (site : Website) (h : list fsEntity) (q1 q2 : list string) (x : ptr) :
  tree_ok site h →
  walk h (root site) q1 = Some x → walk h (root site) q2 = Some x → q1 = q2.
Proof.
  intros [Hwf (r & Hr & _ & Hrp)]. revert q2 x.
  assert (Hroot : ∀ q c, walk h (root site) (q ++ [c]) = Some (root site) → False).
  { intros q c (d & e & _ & He & Hc)%walk_snoc.
    destruct (wf_child _ Hwf _ _ _ _ He Hc) as (_ & e' & He' & Hp & _). congruence. }
  induction q1 as [|c1 q1 IH] using rev_ind; intros q2 x H1 H2.
  - simpl in H1. injection H1 as <-.
    destruct q2 as [|c2 q2 _] using rev_ind; [done|]. by destruct (Hroot _ _ H2).
  - destruct q2 as [|c2 q2 _] using rev_ind.
    { simpl in H2. injection H2 as <-. by destruct (Hroot _ _ H1). }
    apply walk_snoc in H1 as (d1 & e1 & Hw1 & He1 & Hc1).
    apply walk_snoc in H2 as (d2 & e2 & Hw2 & He2 & Hc2).
    destruct (wf_child _ Hwf _ _ _ _ He1 Hc1) as (_ & x1 & Hx1 & Hp1 & Hn1).
    destruct (wf_child _ Hwf _ _ _ _ He2 Hc2) as (_ & x2 & Hx2 & Hp2 & Hn2).
    assert (x1 = x2) as -> by congruence.
    assert (d1 = d2) as -> by congruence.
    rewrite (IH _ _ Hw1 Hw2). congruence.
Qed.

(** ** Hanging a new entity under a directory *)

Section attach.
Variables (h : list fsEntity) (parent : ptr) (p : fsEntity) (c0 fn : string) (dir : bool).
Hypothesis Hparent : h !! parent = Some p.

Let h' := attach h parent p c0 fn dir.
Let fresh := mkFSEntity c0 fn dir ∅ (Some parent) ∅ [].

Lemma attach_length : length h' = S (length h).
Proof.
  unfold h', attach. rewrite length_insert, length_app. simpl. lia.
Qed.

Lemma attach_parent_lt : (parent < length h)%nat.
Proof. by eapply lookup_lt_Some. Qed.

Lemma attach_lookup_fresh : h' !! length h = Some fresh.
Proof.
  pose proof attach_parent_lt. unfold h', attach.
  rewrite list_lookup_insert_ne by lia. by rewrite list_lookup_middle.
Qed.

Lemma attach_lookup_parent :
  h' !! parent = Some (with_children (<[c0 := length h]> (children p)) p).
Proof.
  pose proof attach_parent_lt. unfold h', attach.
  apply list_lookup_insert_eq. rewrite length_app. lia.
Qed.

Lemma attach_lookup_other (q : ptr) :
  q ≠ parent → (q < length h)%nat → h' !! q = h !! q.
Proof.
  intros Hne Hlt. unfold h', attach.
  rewrite list_lookup_insert_ne by done. by apply lookup_app_l.
Qed.

Lemma attach_lookup_inv (q : ptr) (e : fsEntity) :
  h' !! q = Some e →
  (q = length h ∧ e = fresh) ∨
  (q = parent ∧ e = with_children (<[c0 := length h]> (children p)) p) ∨
  (q ≠ parent ∧ h !! q = Some e).
Proof.
  intros He. pose proof (lookup_lt_Some _ _ _ He) as Hlt.
  rewrite attach_length in Hlt. pose proof attach_parent_lt.
  destruct (decide (q = length h)) as [->|].
  { left. rewrite attach_lookup_fresh in He. naive_solver. }
  destruct (decide (q = parent)) as [->|].
  { right; left. rewrite attach_lookup_parent in He. naive_solver. }
  right; right. rewrite attach_lookup_other in He by (done || lia). done.
Qed.

Hypothesis Hnew : children p !! c0 = None.

Lemma attach_extends : extends h h'.
Proof.
  split; [rewrite attach_length; lia|]. intros q e He.
  pose proof (lookup_lt_Some _ _ _ He) as Hlt.
  destruct (decide (q = parent)) as [->|Hne].
  - rewrite attach_lookup_parent. eexists; split; [done|].
    assert (e = p) as -> by congruence. simpl. repeat split; try done.
    intros c x Hc. rewrite lookup_insert_ne; [done|congruence].
  - rewrite attach_lookup_other by done. exists e. naive_solver.
Qed.

Lemma attach_heap_wf : heap_wf h → directory p = true → heap_wf h'.
Proof.
  intros Hwf Hdir. pose proof attach_extends as [_ Hext]. split.
  - intros x e c y He Hc.
    destruct (attach_lookup_inv _ _ He) as [[-> ->]|[[-> ->]|[Hne He0]]].
    + done.
    + simpl in *. split; [done|].
      destruct (decide (c0 = c)) as [<-|Hc0].
      * rewrite lookup_insert_eq in Hc. injection Hc as <-.
        rewrite attach_lookup_fresh. eauto.
      * rewrite lookup_insert_ne in Hc by done.
        destruct (wf_child _ Hwf _ _ _ _ Hparent Hc) as (_ & e' & He' & Hp & Hn).
        destruct (Hext _ _ He') as (e'' & -> & ? & _ & _ & ? & _). exists e''.
        split; [done|]. split; congruence.
    + destruct (wf_child _ Hwf _ _ _ _ He0 Hc) as (? & e' & He' & Hp & Hn).
      split; [done|].
      destruct (Hext _ _ He') as (e'' & -> & ? & _ & _ & ? & _). exists e''.
      split; [done|]. split; congruence.
  - intros q e pp He Hp.
    destruct (attach_lookup_inv _ _ He) as [[-> ->]|[[-> ->]|[Hne He0]]].
    + simpl in Hp. injection Hp as <-. apply attach_parent_lt.
    + simpl in Hp. by eapply (wf_parent _ Hwf).
    + by eapply (wf_parent _ Hwf).
Qed.

Lemma attach_tree_ok (site : Website) :
  tree_ok site h → directory p = true → tree_ok site h'.
Proof.
  intros [Hwf (r & Hr & Hd & Hp)] Hdir. split; [by apply attach_heap_wf|].
  destruct attach_extends as [_ Hext].
  destruct (Hext _ _ Hr) as (r' & Hr' & _ & _ & ? & ? & _).
  exists r'. split; [done|]. split; congruence.
Qed.

(** The walks of the new heap: the old ones, and the one that ends in
    the new entity. *)
Lemma attach_walk_inv (site : Website) (pre q : list string) (x : ptr) :
  tree_ok site h → walk h (root site) pre = Some parent →
  walk h' (root site) q = Some x →
  walk h (root site) q = Some x ∨ (x = length h ∧ q = pre ++ [c0]).
Proof.
  intros Hok Hpre. revert x. induction q as [|c q IH] using rev_ind; intros x.
  { simpl. by left. }
  intros (d & e & Hd & He & Hc)%walk_snoc.
  destruct (IH _ Hd) as [Hd0 | [-> ->]].
  - destruct (attach_lookup_inv _ _ He) as [[-> ->]|[[-> ->]|[Hne He0]]].
    + done.
    + simpl in Hc. destruct (decide (c0 = c)) as [<-|Hc0].
      * rewrite lookup_insert_eq in Hc. injection Hc as <-. right.
        split; [done|]. by rewrite (walk_unique _ _ _ _ _ Hok Hd0 Hpre).
      * rewrite lookup_insert_ne in Hc by done. left.
        apply walk_snoc. eauto.
    + left. apply walk_snoc. eauto.
  - rewrite attach_lookup_fresh in He. injection He as <-. done.
Qed.

Lemma attach_walk_fresh (site : Website) (pre : list string) :
  walk h (root site) pre = Some parent →
  walk h' (root site) (pre ++ [c0]) = Some (length h).
Proof.
  intros Hpre. apply walk_snoc. exists parent. eexists.
  split; [by eapply walk_extends; [apply attach_extends|]|].
  split; [apply attach_lookup_parent|]. simpl. apply lookup_insert_eq.
Qed.

End attach.

(** ** [calcFullName] and the creation step of [createFSEntity] *)

Lemma calcFullName_loop_total (w : world) :
  (∀ q e p, heap w !! q = Some e → parent e = Some p → (p < q)%nat) →
  ∀ fuel c acc, (c < length (heap w))%nat → (c ≤ fuel)%nat →
  ∃ fn, calcFullName_loop fuel (Some c) acc w = Some (fn, w).
Proof.
  intros Hpar. induction fuel as [|fuel IH]; intros c acc Hc Hfuel.
  - destruct (lookup_lt_is_Some_2 _ _ Hc) as [e He]. simpl. run_deref He.
    destruct (parent e) as [p|] eqn:Hp; [|by eexists].
    specialize (Hpar _ _ _ He Hp). lia.
  - destruct (lookup_lt_is_Some_2 _ _ Hc) as [e He]. simpl. run_deref He.
    destruct (parent e) as [p|] eqn:Hp; [|by eexists].
    specialize (Hpar _ _ _ He Hp). apply IH; lia.
Qed.

Lemma insert_snoc {A : Type} (l : list A) (a b : A) :
  <[length l := b]> (l ++ [a]) = l ++ [b].
Proof.
  rewrite insert_app_r_alt by lia. by rewrite Nat.sub_diag.
Qed.

Lemma createFSEntity_new (w : world) (par : ptr) (p : fsEntity)
    (c0 : string) (rest : list string) :
  heap_wf (heap w) → heap w !! par = Some p →
  directory p = true → children p !! c0 = None →
  ∃ fn,
    createFSEntity par (c0 :: rest) w =
    let w1 := mkWorld (attach (heap w) par p c0 fn (bool_decide (rest ≠ []))) (probes w) in
    match rest with
    | [] => Some (Some (length (heap w)), w1)
    | _ :: _ => createFSEntity (length (heap w)) rest w1
    end.
Proof.
  intros Hwf Hp Hdir Hnew. destruct w as [h pr]. simpl in *.
  pose proof (lookup_lt_Some _ _ _ Hp) as Hlt.
  set (blank := mkFSEntity c0 "" false ∅ (Some par) ∅ []).
  destruct (calcFullName_loop_total (mkWorld (h ++ [blank]) pr)) with
    (fuel := length (h ++ [blank])) (c := length h) (acc := "") as [fn Hfn].
  { simpl. intros q e pp He Hpp.
    destruct (decide (q = length h)) as [->|Hq].
    - rewrite list_lookup_middle in He by done. injection He as <-.
      simpl in Hpp. injection Hpp as <-. done.
    - pose proof (lookup_lt_Some _ _ _ He) as Hq'. rewrite length_app in Hq'. simpl in Hq'.
      rewrite lookup_app_l in He by lia. by eapply (wf_parent _ Hwf). }
  { simpl. rewrite length_app. simpl. lia. }
  { rewrite length_app. lia. }
  exists fn. cbn [createFSEntity].
  run_deref Hp. rewrite Hdir, Hnew.
  rewrite bind_run. unfold allocateFSEntity at 1, alloc at 1. cbn [heap probes].
  rewrite bind_run.
  erewrite modify_run by (cbn [heap]; by apply list_lookup_middle).
  cbn [heap probes]. rewrite insert_snoc.
  rewrite bind_run. unfold calcFullName at 1. cbn [heap].
  unfold with_parent at 1 2. cbn [name fullname directory children ids hrefs].
  fold blank. rewrite Hfn.
  rewrite bind_run.
  erewrite modify_run by (cbn [heap]; by apply list_lookup_middle).
  cbn [heap probes]. rewrite insert_snoc.
  rewrite bind_run.
  erewrite modify_run by (cbn [heap]; by apply lookup_app_l_Some).
  cbn [heap probes with_fullname blank name directory children parent ids hrefs].
  destruct rest as [|c1 rest].
  - cbn [length Nat.ltb Nat.leb]. rewrite ret_run. rewrite bool_decide_eq_false_2 by naive_solver.
    done.
  - cbn [length Nat.ltb Nat.leb]. rewrite bind_run.
    rewrite bool_decide_eq_true_2 by done.
    erewrite modify_run; cycle 1.
    { cbn [heap]. rewrite list_lookup_insert_ne by lia. by apply list_lookup_middle. }
    cbn [heap probes]. f_equal. unfold attach. f_equal.
    rewrite list_insert_insert_ne by lia. by rewrite insert_snoc.
Qed.

(** ** What [createFSEntity] does to a tree *)

Ltac split6 := split; [|split; [|split; [|split; [|split]]]].

Lemma createFSEntity_spec (site : Website) (comps : list string) :
  ∀ (par : ptr) (pre : list string) (w : world),
  tree_ok site (heap w) → walk (heap w) (root site) pre = Some par →
  ∃ r w',
    createFSEntity par comps w = Some (r, w') ∧
    probes w' = probes w ∧
    tree_ok site (heap w') ∧
    extends (heap w) (heap w') ∧
    (∀ q x, walk (heap w') (root site) q = Some x →
       walk (heap w) (root site) q = Some x ∨
       ((length (heap w) ≤ x)%nat ∧
        ∃ k ex, (length pre < k ≤ length (pre ++ comps))%nat ∧
                q = take k (pre ++ comps) ∧
                heap w' !! x = Some ex ∧
                directory ex = bool_decide (k < length (pre ++ comps))%nat)) ∧
    match r with
    | Some e => walk (heap w') (root site) (pre ++ comps) = Some e
    | None =>
        w' = w ∧
        ∃ k l el, (k < length comps)%nat ∧ walk (heap w) par (take k comps) = Some l ∧
                  heap w !! l = Some el ∧ directory el = false
    end.
Proof.
  induction comps as [|c0 rest IH]; intros par pre w Hok Hpre.
  { exists (Some par), w. rewrite app_nil_r.
    split6; try done; [apply extends_refl | by left]. }
  assert (is_Some (heap w !! par)) as [p Hp].
  { destruct Hok as [Hwf (r & Hr & _)]. eapply walk_valid; eauto. }
  destruct (directory p) eqn:Hdir; cycle 1.
  { exists None, w. split6; try done.
    - cbn [createFSEntity]. run_deref Hp. by rewrite Hdir.
    - apply extends_refl.
    - by left.
    - split; [done|]. exists 0%nat, par, p. simpl. split_and!; try done. lia. }
  destruct (children p !! c0) as [child|] eqn:Hc0.
  - assert (Hpre' : walk (heap w) (root site) (pre ++ [c0]) = Some child).
    { apply walk_snoc. eauto. }
    destruct (IH child (pre ++ [c0]) w Hok Hpre')
      as (r & w' & Hrun & Hpr & Hok' & Hext & Hinv & Hres).
    rewrite <- app_assoc in Hinv, Hres. simpl in Hinv, Hres.
    exists r, w'. split6; try done.
    + cbn [createFSEntity]. run_deref Hp. by rewrite Hdir, Hc0.
    + intros q x Hq. destruct (Hinv q x Hq) as [?|(Hx & k & ex & Hk & ?)]; [by left|right].
      split; [done|]. exists k, ex. split; [|done].
      rewrite length_app in Hk. simpl in Hk. lia.
    + destruct r as [e|]; [done|]. destruct Hres as (-> & k & l & el & Hk & Hw & Hl & Hd).
      split; [done|]. exists (S k), l, el. simpl. rewrite Hp, Hc0.
      split_and!; try done. lia.
  - destruct (createFSEntity_new w par p c0 rest) as [fn Hrun]; try done; [apply Hok|].
    cbv zeta in Hrun.
    set (h1 := attach (heap w) par p c0 fn (bool_decide (rest ≠ []))) in *.
    assert (Hok1 : tree_ok site h1) by by apply attach_tree_ok.
    assert (Hext1 : extends (heap w) h1) by by apply attach_extends.
    assert (Hpre1 : walk h1 (root site) (pre ++ [c0]) = Some (length (heap w))).
    { by apply attach_walk_fresh. }
    assert (Hfresh1 : h1 !! length (heap w) =
              Some (mkFSEntity c0 fn (bool_decide (rest ≠ [])) ∅ (Some par) ∅ [])).
    { by eapply attach_lookup_fresh. }
    destruct rest as [|c1 rest].
    + exists (Some (length (heap w))), (mkWorld h1 (probes w)).
      split6; try done.
      intros q x Hq. cbn [heap] in Hq.
      destruct (attach_walk_inv _ _ _ _ _ _ Hp site pre q x Hok Hpre Hq) as [?|[-> ->]];
        [by left|right].
      split; [done|]. exists (S (length pre)). eexists.
      rewrite length_app. simpl.
      split; [lia|]. split; [|split; [apply Hfresh1|]].
      * rewrite take_ge; [done|]. rewrite length_app. simpl. lia.
      * cbn [directory]. rewrite bool_decide_eq_false_2 by naive_solver.
        rewrite bool_decide_eq_false_2 by lia. done.
    + destruct (IH (length (heap w)) (pre ++ [c0]) (mkWorld h1 (probes w)) Hok1 Hpre1)
        as (r & w' & Hrun' & Hpr & Hok' & Hext & Hinv & Hres).
      cbn [heap probes] in *.
      rewrite <- app_assoc in Hinv, Hres. simpl in Hinv, Hres.
      exists r, w'. split6; try done.
      * by rewrite Hrun.
      * by eapply extends_trans.
      * intros q x Hq.
        destruct (Hinv q x Hq) as [Hq1|(Hx & k & ex & Hk & ?)].
        -- destruct (attach_walk_inv _ _ _ _ _ _ Hp site pre q x Hok Hpre Hq1)
             as [?|[-> ->]]; [by left|right].
           split; [done|]. exists (S (length pre)).
           destruct Hext as [_ Hext]. destruct (Hext _ _ Hfresh1) as (ex & Hex & _ & _ & Hd & _).
           exists ex. rewrite length_app. simpl.
           split; [lia|]. split; [|split; [done|]].
           ++ replace (S (length pre)) with (length pre + 1)%nat by lia.
              by rewrite take_app_add.
           ++ rewrite Hd. cbn [directory].
              rewrite (bool_decide_eq_true_2 (c1 :: rest ≠ [])) by done.
              rewrite bool_decide_eq_true_2 by lia. done.
        -- right. pose proof (proj1 Hext1) as Hlen. split; [lia|]. exists k, ex. split; [|done].
           rewrite length_app in Hk. simpl in Hk. lia.
      * destruct r as [e|]; [done|]. exfalso.
        destruct Hres as (-> & k & l & el & Hk & Hw & Hl & Hd). cbn [heap] in *.
        destruct k as [|k]; simpl in Hw.
        -- injection Hw as <-. rewrite Hfresh1 in Hl. injection Hl as <-.
           simpl in Hd. discriminate Hd.
        -- rewrite Hfresh1 in Hw. simpl in Hw. by rewrite lookup_empty in Hw.
Qed.

(** ** Computations that only read the heap *)

Lemma reads_ret {A : Type} (h : list fsEntity) (a : A) (Q : A → Prop) :
  Q a → reads h (mret a) Q.
Proof. intros HQ w Hw. exists a, w. by rewrite ret_run. Qed.

Lemma reads_bind {A B : Type} (h : list fsEntity) (m : M A) (f : A → M B)
    (Q : A → Prop) (R : B → Prop) :
  reads h m Q → (∀ a, Q a → reads h (f a) R) → reads h (m ≫= f) R.
Proof.
  intros Hm Hf w Hw. destruct (Hm w Hw) as (a & w1 & Hrun & Hw1 & HQ).
  destruct (Hf a HQ w1 Hw1) as (b & w2 & Hrun2 & Hw2 & HR).
  exists b, w2. by rewrite bind_run, Hrun.
Qed.

Lemma reads_deref (h : list fsEntity) (p : ptr) (e : fsEntity) :
  h !! p = Some e → reads h (deref p) (λ x, x = e).
Proof.
  intros He w <-. exists e, w. by rewrite (deref_run _ _ _ He).
Qed.

Lemma firstIndex_Some (kids : gmap string ptr) (names : list string) (x : ptr) :
  firstIndex kids names = Some x → ∃ c, kids !! c = Some x.
Proof.
  induction names as [|n names IH]; simpl; [done|].
  destruct (kids !! n) as [y|] eqn:Hy; [|done]. intros [= <-]. eauto.
Qed.

Lemma isPathValid_reads (h : list fsEntity) (comps : list string) :
  heap_wf h → ∀ (start : option ptr),
  (∀ p, start = Some p → is_Some (h !! p)) →
  reads h (isPathValid start comps) (λ r, ∀ t, r = Some t → is_Some (h !! t)).
Proof.
  intros Hwf. induction comps as [|c0 rest IH]; intros [p|] Hstart;
    try (apply reads_ret; done);
    destruct (Hstart p eq_refl) as [e He]; cbn [isPathValid];
    (eapply reads_bind; [by apply reads_deref|]); intros ? ->.
  - destruct (directory e); apply reads_ret.
    + intros t (c & Hc)%firstIndex_Some.
      destruct (wf_child _ Hwf _ _ _ _ He Hc) as (_ & e' & -> & _). eauto.
    + intros t [= <-]. eauto.
  - destruct (String.eqb c0 "..").
    + apply IH. intros q Hq. pose proof (wf_parent _ Hwf _ _ _ He Hq) as Hlt.
      apply lookup_lt_is_Some_2. apply lookup_lt_Some in He. lia.
    + destruct (children e !! c0) as [child|] eqn:Hc; [|by apply reads_ret].
      apply IH. intros q [= <-].
      destruct (wf_child _ Hwf _ _ _ _ He Hc) as (_ & e' & -> & _). eauto.
Qed.

(** [isPathValid] never writes: it hands back the world it was given. *)
Lemma isPathValid_world (comps : list string) (start : option ptr) (w : world)
    (r : option ptr) (w' : world) :
  isPathValid start comps w = Some (r, w') → w' = w.
Proof.
  revert start. induction comps as [|c0 rest IH]; intros [p|]; cbn [isPathValid];
    try (rewrite ret_run; congruence);
    rewrite bind_run; unfold deref at 1; destruct (heap w !! p) as [e|]; try done.
  - destruct (directory e); rewrite ret_run; congruence.
  - destruct (String.eqb c0 ".."); [apply IH|].
    destruct (children e !! c0); [apply IH|rewrite ret_run; congruence].
Qed.

Section ValidationReads.
Variable transport : list string → string → string + Z.

Lemma ping_run (url : string) (w : world) :
  ping transport url w =
  Some (match transport (probes w) url with
        | inl err => (0, Some err)
        | inr status => (status, None)
        end, mkWorld (heap w) (probes w ++ [url])).
Proof.
  unfold ping. rewrite bind_run. unfold httpHead.
  by destruct (transport (probes w) url).
Qed.

Lemma ping_reads (h : list fsEntity) (url : string) :
  reads h (ping transport url) (λ _, True).
Proof. intros w <-. rewrite ping_run. by eexists _, _. Qed.

Lemma checkTarget_reads (h : list fsEntity) (page : fsEntity) (errors : list error)
    (hashIndex : Z) (href target : string) (t : ptr) :
  is_Some (h !! t) →
  reads h (checkTarget page errors hashIndex href target t) (λ _, True).
Proof.
  intros [te Hte]. unfold checkTarget. destruct (0 <? hashIndex); [|by apply reads_ret].
  eapply reads_bind; [by apply reads_deref|]. intros ? ->.
  destruct (ids te !! target); by apply reads_ret.
Qed.

Lemma validateHref_reads (site : Website) (h : list fsEntity) (entity : ptr)
    (errors : list error) (href : string) :
  tree_ok site h → is_Some (h !! entity) →
  reads h (validateHref transport site entity errors href) (λ _, True).
Proof.
  intros [Hwf (r & Hr & _)] [page Hpage]. unfold validateHref.
  eapply reads_bind; [by apply reads_deref|]. intros ? ->.
  destruct (strings.HasPrefix _ "http").
  { eapply reads_bind; [apply ping_reads|]. intros [status err] _. simpl.
    destruct err; [by apply reads_ret|]. destruct (negb _); by apply reads_ret. }
  destruct (String.eqb _ "#"); [by apply reads_ret|].
  destruct (String.eqb _ "/"); [by apply reads_ret|].
  destruct (_ =? 0).
  { destruct (ids page !! _); by apply reads_ret. }
  destruct (strings.HasPrefix _ "/").
  - eapply reads_bind; [apply isPathValid_reads; [done|]|].
    { intros p [= <-]. eauto. }
    intros [t|] Ht; [|by apply reads_ret]. apply checkTarget_reads. eauto.
  - eapply reads_bind; [apply isPathValid_reads; [done|]|].
    { intros p Hp. pose proof (wf_parent _ Hwf _ _ _ Hpage Hp).
      apply lookup_lt_is_Some_2. apply lookup_lt_Some in Hpage. lia. }
    intros [t|] Ht; [|by apply reads_ret]. apply checkTarget_reads. eauto.
Qed.

Lemma validateHrefs_reads (site : Website) (h : list fsEntity) (entity : ptr)
    (l : list string) (errors : list error) :
  tree_ok site h → is_Some (h !! entity) →
  reads h (validateHrefs transport site entity errors l) (λ _, True).
Proof.
  intros Hok He. revert errors. induction l as [|href l IH]; intros errors; simpl.
  - by apply reads_ret.
  - eapply reads_bind; [by apply validateHref_reads|]. intros errors' _. apply IH.
Qed.

Lemma validate_reads (site : Website) (h : list fsEntity) :
  tree_ok site h → ∀ (fuel : nat) (entity : ptr),
  (entity < length h)%nat → (length h - entity ≤ fuel)%nat →
  reads h (validate transport fuel site entity) (λ _, True).
Proof.
  intros Hok. pose proof Hok as [Hwf _].
  induction fuel as [|fuel IH]; intros entity Hlt Hfuel; [lia|].
  destruct (lookup_lt_is_Some_2 _ _ Hlt) as [e He]. cbn [validate].
  eapply reads_bind; [by apply reads_deref|]. intros ? ->.
  destruct (directory e); [|apply validateHrefs_reads; eauto].
  assert (Hkids : Forall (λ kv, entity < kv.2 < length h)%nat (map_to_list (children e))).
  { apply Forall_forall. intros [c q] Hcq%elem_of_map_to_list. simpl.
    destruct (wf_child _ Hwf _ _ _ _ He Hcq) as (_ & e' & He' & Hp & _).
    pose proof (wf_parent _ Hwf _ _ _ He' Hp). apply lookup_lt_Some in He'. lia. }
  generalize (@nil error). induction Hkids as [|[c q] l Hq _ IHl]; intros errors.
  - by apply reads_ret.
  - simpl in Hq. eapply reads_bind; [apply IH; lia|]. intros errs _. apply IHl.
Qed.

Lemma Validate_reads (site : Website) (h : list fsEntity) :
  tree_ok site h → reads h (Validate transport site) (λ _, True).
Proof.
  intros Hok w <-. unfold Validate.
  destruct Hok as [Hwf (r & Hr & Hrest)].
  apply validate_reads; [by split; eauto| |lia|done].
  by eapply lookup_lt_Some.
Qed.

End ValidationReads.

(** ** Document registration only touches [hrefs] and [ids] *)

Lemma same_tree_refl (h : list fsEntity) : same_tree h h.
Proof. split; [done|]. intros q e He. exists e. naive_solver. Qed.

Lemma same_tree_trans (h1 h2 h3 : list fsEntity) :
  same_tree h1 h2 → same_tree h2 h3 → same_tree h1 h3.
Proof.
  intros [Hl1 H1] [Hl2 H2]. split; [congruence|]. intros q e He.
  destruct (H1 _ _ He) as (e2 & He2 & ? & ? & ? & ? & ?).
  destruct (H2 _ _ He2) as (e3 & He3 & ? & ? & ? & ? & ?).
  exists e3. split_and!; congruence.
Qed.

Lemma same_tree_sym (h h' : list fsEntity) : same_tree h h' → same_tree h' h.
Proof.
  intros [Hl H]. split; [done|]. intros q e' He'.
  assert (is_Some (h !! q)) as [e He].
  { apply lookup_lt_is_Some_2. apply lookup_lt_Some in He'. lia. }
  destruct (H _ _ He) as (e'' & He'' & ? & ? & ? & ? & ?).
  assert (e'' = e') as -> by congruence. exists e. split_and!; congruence.
Qed.

Lemma same_tree_walk (h h' : list fsEntity) (p : ptr) (q : list string) :
  same_tree h h' → walk h' p q = walk h p q.
Proof.
  intros Hs. pose proof (same_tree_sym _ _ Hs) as Hs'.
  destruct Hs as [Hl H]. destruct Hs' as [_ H'].
  revert p. induction q as [|c q IH]; intros p; simpl; [done|].
  destruct (h !! p) as [e|] eqn:He.
  - destruct (H _ _ He) as (e' & -> & _ & _ & _ & _ & ->).
    destruct (children e !! c); [apply IH|done].
  - destruct (h' !! p) as [e'|] eqn:He'; [|done].
    destruct (H' _ _ He') as (e & ? & _). congruence.
Qed.

Lemma same_tree_heap_wf (h h' : list fsEntity) :
  same_tree h h' → heap_wf h → heap_wf h'.
Proof.
  intros Hs Hwf. pose proof (same_tree_sym _ _ Hs) as [_ H']. destruct Hs as [_ H].
  split.
  - intros p e' c q He' Hc.
    destruct (H' _ _ He') as (e & He & _ & _ & Hd & _ & Hch).
    rewrite <- Hch in Hc.
    destruct (wf_child _ Hwf _ _ _ _ He Hc) as (? & x & Hx & ? & ?).
    split; [congruence|].
    destruct (H _ _ Hx) as (x' & -> & ? & _ & _ & ? & _). exists x'.
    split_and!; congruence.
  - intros q e' p He' Hp.
    destruct (H' _ _ He') as (e & He & _ & _ & _ & Hpar & _).
    eapply (wf_parent _ Hwf); [done|congruence].
Qed.

Lemma same_tree_tree_ok (site : Website) (h h' : list fsEntity) :
  same_tree h h' → tree_ok site h → tree_ok site h'.
Proof.
  intros Hs [Hwf (r & Hr & Hd & Hp)]. split; [by eapply same_tree_heap_wf|].
  destruct Hs as [_ H]. destruct (H _ _ Hr) as (r' & -> & _ & _ & ? & ? & _).
  exists r'. split_and!; congruence.
Qed.

Lemma annotates_ret (entity : ptr) : annotates entity (mret tt).
Proof. intros w _. exists w. split_and!; [done..|apply same_tree_refl]. Qed.

Lemma annotates_seq (entity : ptr) (m k : M unit) :
  annotates entity m → annotates entity k → annotates entity (m ;; k).
Proof.
  intros Hm Hk w Hw. destruct (Hm w Hw) as (w1 & Hrun1 & Hp1 & Hs1).
  destruct (Hk w1) as (w2 & Hrun2 & Hp2 & Hs2).
  { apply lookup_lt_is_Some. destruct Hs1 as [<- _]. by apply lookup_lt_is_Some. }
  exists w2. rewrite bind_run, Hrun1. split_and!; [done|congruence|].
  by eapply same_tree_trans.
Qed.

Lemma annotates_modify (entity : ptr) (f : fsEntity → fsEntity) :
  (∀ e, name (f e) = name e ∧ fullname (f e) = fullname e ∧
        directory (f e) = directory e ∧ parent (f e) = parent e ∧
        children (f e) = children e) →
  annotates entity (modify entity f).
Proof.
  intros Hf w [e He]. eexists. rewrite (modify_run _ _ _ _ He).
  split_and!; [done..|]. cbn [heap]. split; [by rewrite length_insert|].
  intros q x Hx. destruct (decide (q = entity)) as [->|Hne].
  - rewrite list_lookup_insert_eq by by eapply lookup_lt_Some.
    assert (x = e) as -> by congruence. exists (f e). split; [done|]. apply Hf.
  - rewrite list_lookup_insert_ne by done. exists x. by split_and!.
Qed.

Lemma annotates_appendHref (entity : ptr) (href : string) :
  annotates entity (appendHref entity href).
Proof. by apply annotates_modify. Qed.

Lemma annotates_appendSrcset (entity : ptr) (images : list string) :
  annotates entity (appendSrcset entity images).
Proof.
  induction images as [|image images IH]; simpl; [apply annotates_ret|].
  apply annotates_seq; [|done].
  destruct (_ <? 0); apply annotates_appendHref.
Qed.

Lemma annotates_whenAttr (entity : ptr) (attrs : list (string * string))
    (key : string) (f : string → M unit) :
  (∀ v, annotates entity (f v)) → annotates entity (whenAttr attrs key f).
Proof.
  intros Hf. unfold whenAttr. destruct (Attr attrs key); [done|apply annotates_ret].
Qed.

Lemma node_kids_ind (P : node → Prop) :
  (∀ n attrs kids, Forall P kids → P (Node n attrs kids)) → ∀ s, P s.
Proof.
  intros H. fix IH 1. intros [n attrs kids]. apply H.
  induction kids as [|k kids IHkids]; constructor; [apply IH|apply IHkids].
Qed.

Lemma annotates_visitNode (entity : ptr) (s : node) : annotates entity (visitNode entity s).
Proof.
  induction s as [n attrs kids IH] using node_kids_ind. cbn [visitNode].
  apply annotates_seq; [|apply annotates_seq].
  - destruct (isLinkTag n); [apply annotates_whenAttr, annotates_appendHref|].
    destruct (isSourceTag n); [|apply annotates_ret].
    apply annotates_seq; apply annotates_whenAttr; intros v;
      [apply annotates_appendHref|apply annotates_appendSrcset].
  - apply annotates_whenAttr. intros v. by apply annotates_modify.
  - induction IH as [|k kids Hk _ IHkids]; [apply annotates_ret|].
    by apply annotates_seq.
Qed.

(** ** The invariant holds in every reachable world *)

Lemma New_run (w0 : world) :
  New w0 = Some (mkWebsite (length (heap w0)),
                 mkWorld (heap w0 ++ [mkFSEntity "/" "" true ∅ None ∅ []]) (probes w0)).
Proof.
  unfold New. rewrite bind_run. unfold allocateFSEntity, alloc. rewrite bind_run.
  erewrite modify_run by (cbn [heap]; by apply list_lookup_middle).
  cbn [heap probes]. by rewrite insert_snoc.
Qed.

Lemma New_tree_ok (w0 w : world) (site : Website) :
  heap_wf (heap w0) → New w0 = Some (site, w) → tree_ok site (heap w).
Proof.
  intros Hwf. rewrite New_run. intros [= <- <-]. cbn [heap root].
  assert (Hold : ∀ q e, (heap w0 ++ [mkFSEntity "/" "" true ∅ None ∅ []]) !! q = Some e →
            (q = length (heap w0) ∧ e = mkFSEntity "/" "" true ∅ None ∅ []) ∨
            heap w0 !! q = Some e).
  { intros q e He. destruct (decide (q = length (heap w0))) as [->|Hne].
    - rewrite list_lookup_middle in He by done. left. naive_solver.
    - right. pose proof (lookup_lt_Some _ _ _ He) as Hlt.
      rewrite length_app in Hlt. simpl in Hlt. rewrite lookup_app_l in He by lia. done. }
  split; [split|].
  - intros p e c q He Hc. destruct (Hold _ _ He) as [[-> ->]|He0]; [done|].
    destruct (wf_child _ Hwf _ _ _ _ He0 Hc) as (? & e' & He' & ?).
    split; [done|]. exists e'. split; [|done]. by apply lookup_app_l_Some.
  - intros q e p He Hp. destruct (Hold _ _ He) as [[-> ->]|He0]; [done|].
    by eapply (wf_parent _ Hwf).
  - eexists. split; [by apply list_lookup_middle|done].
Qed.

Lemma newFSEntity_spec (site : Website) (path : string) (w : world) :
  tree_ok site (heap w) →
  let comps := strings.Split path "/" in
  ∃ r w',
    newFSEntity (root site) path w = Some (r, w') ∧
    probes w' = probes w ∧
    tree_ok site (heap w') ∧
    extends (heap w) (heap w') ∧
    (∀ q x, walk (heap w') (root site) q = Some x →
       walk (heap w) (root site) q = Some x ∨
       ((length (heap w) ≤ x)%nat ∧
        ∃ k ex, (0 < k ≤ length comps)%nat ∧ q = take k comps ∧
                heap w' !! x = Some ex ∧
                directory ex = bool_decide (k < length comps)%nat)) ∧
    match r with
    | Some e => walk (heap w') (root site) comps = Some e
    | None =>
        w' = w ∧
        ∃ k l el, (k < length comps)%nat ∧
                  walk (heap w) (root site) (take k comps) = Some l ∧
                  heap w !! l = Some el ∧ directory el = false
    end.
Proof.
  intros Hok comps.
  exact (createFSEntity_spec site comps (root site) [] w Hok eq_refl).
Qed.

Lemma AddFile_run (site : Website) (name : string) (w : world) :
  AddFile site name w =
  match newFSEntity (root site) (prepareFileName name) w with
  | Some (Some _, w') => Some (None, w')
  | Some (None, w') => Some (Some (DuplicateEntity (prepareFileName name)), w')
  | None => None
  end.
Proof.
  unfold AddFile. rewrite bind_run.
  destruct (newFSEntity _ _ w) as [[[e|] w']|]; done.
Qed.

Lemma AddDocumentFromReader_run (site : Website) (name : string)
    (reader : string + node) (w : world) :
  AddDocumentFromReader site name reader w =
  match newFSEntity (root site) (prepareFileName name) w with
  | Some (Some entity, w') =>
      match reader with
      | inl err => Some (Some (ReadError err), w')
      | inr doc =>
          match visitNode entity doc w' with
          | Some (_, w'') => Some (None, w'')
          | None => None
          end
      end
  | Some (None, w') => Some (Some (DuplicateEntity (prepareFileName name)), w')
  | None => None
  end.
Proof.
  unfold AddDocumentFromReader. rewrite bind_run.
  destruct (newFSEntity _ _ w) as [[[e|] w']|]; try done.
  destruct reader as [err|doc]; [done|]. rewrite bind_run.
  by destruct (visitNode e doc w') as [[[] w'']|].
Qed.

Lemma AddFile_tree_ok (site : Website) (name : string) (w : world) :
  tree_ok site (heap w) →
  ∃ r w', AddFile site name w = Some (r, w') ∧ tree_ok site (heap w') ∧
          probes w' = probes w.
Proof.
  intros Hok. rewrite AddFile_run.
  destruct (newFSEntity_spec site (prepareFileName name) w Hok)
    as (r & w' & -> & Hpr & Hok' & _).
  destruct r; eauto.
Qed.

Lemma AddDocumentFromReader_tree_ok (site : Website) (name : string)
    (reader : string + node) (w : world) :
  tree_ok site (heap w) →
  ∃ r w', AddDocumentFromReader site name reader w = Some (r, w') ∧
          tree_ok site (heap w') ∧ probes w' = probes w.
Proof.
  intros Hok. rewrite AddDocumentFromReader_run.
  destruct (newFSEntity_spec site (prepareFileName name) w Hok)
    as (r & w' & -> & Hpr & Hok' & _ & _ & Hres).
  destruct r as [e|]; [|eauto]. destruct reader as [err|doc]; [eauto|].
  destruct (annotates_visitNode e doc w') as (w'' & -> & Hpr' & Hs).
  { destruct Hok' as [Hwf (r & Hr & _)]. eapply walk_valid; eauto. }
  exists None, w''. split_and!; [done| |congruence]. by eapply same_tree_tree_ok.
Qed.

Lemma reachable_tree_ok (site : Website) (w : world) :
  reachable site w → tree_ok site (heap w).
Proof.
  induction 1 as [w0 w Hwf HNew|w name r w' _ IH Hrun|w name reader r w' _ IH Hrun
                 |tr w errs w' _ IH Hrun].
  - by eapply New_tree_ok.
  - destruct (AddFile_tree_ok site name w IH) as (? & ? & Hrun' & ? & _). congruence.
  - destruct (AddDocumentFromReader_tree_ok site name reader w IH)
      as (? & ? & Hrun' & ? & _). congruence.
  - destruct (Validate_reads tr site _ IH w eq_refl) as (? & ? & Hrun' & Hh & _).
    assert (heap w' = heap w) as -> by congruence. done.
Qed.

(** ** Registering paths that do not overlap *)

Lemma Split_nonempty (s : string) (sep : ascii) : strings.Split s sep ≠ [].
Proof.
  destruct s as [|c s]; simpl; [done|].
  destruct (Ascii.eqb c sep); [done|]. by destruct (strings.Split s sep).
Qed.

Lemma nonEmptyPieces_id (l : list string) :
  Forall (λ c, c ≠ "") l → nonEmptyPieces l = l.
Proof.
  induction 1 as [|c l Hc _ IH]; simpl; [done|].
  destruct c; [done|]. simpl. by rewrite IH.
Qed.

Lemma prepareFileName_slash (s : string) : prepareFileName (String "/" s) = s.
Proof. unfold prepareFileName, strings.HasPrefix. simpl. by destruct s. Qed.

Lemma prepareFileName_other (s : string) :
  strings.HasPrefix s "/" = false → prepareFileName s = s.
Proof. unfold prepareFileName. by intros ->. Qed.

Lemma splitPath_prepareFileName (name : string) :
  splitPath name = nonEmptyPieces (segments name).
Proof.
  unfold splitPath, segments. destruct (strings.HasPrefix name "/") eqn:Hpre.
  - destruct name as [|c s]; [discriminate Hpre|].
    unfold strings.HasPrefix in Hpre. cbn [String.prefix] in Hpre.
    destruct (ascii_dec "/" c) as [<-|]; [|discriminate Hpre].
    rewrite prepareFileName_slash. reflexivity.
  - by rewrite prepareFileName_other.
Qed.

Lemma splitPath_plain (name : string) : plain name → splitPath name = segments name.
Proof.
  intros Hp. rewrite splitPath_prepareFileName. apply nonEmptyPieces_id.
  eapply Forall_impl; [apply Hp|]. by intros c [Hc _].
Qed.

(** On a path without [".."], [isPathValid] follows [children]; when the
    walk ends in a leaf, that leaf is the answer. *)
Lemma isPathValid_leaf (w : world) (q : list string) (e : ptr) (ee : fsEntity) :
  Forall (λ c, c ≠ "..") q → heap w !! e = Some ee → directory ee = false →
  ∀ p, walk (heap w) p q = Some e → isPathValid (Some p) q w = Some (Some e, w).
Proof.
  intros Hq He Hleaf. induction Hq as [|c q Hc _ IH]; intros p; simpl.
  - intros [= ->]. run_deref He. by rewrite Hleaf.
  - destruct (heap w !! p) as [pe|] eqn:Hp; [|done].
    destruct (children pe !! c) as [x|] eqn:Hx; [|done]. intros Hw.
    run_deref Hp. apply String.eqb_neq in Hc. rewrite Hc, Hx. by apply IH.
Qed.

Lemma registry_ok_New (w0 w : world) (site : Website) :
  heap_wf (heap w0) → New w0 = Some (site, w) → registry_ok site (heap w) [].
Proof.
  intros Hwf HNew. split; [by eapply New_tree_ok|]. split.
  { intros q e Hin. by apply elem_of_nil in Hin. }
  rewrite New_run in HNew. injection HNew as <- <-. cbn [heap root].
  intros [|c q] x Hq; [done|]. simpl. rewrite list_lookup_middle by done.
  simpl. by rewrite lookup_empty.
Qed.

Lemma registry_ok_same_tree (site : Website) (h h' : list fsEntity)
    (reg : list (list string * ptr)) :
  same_tree h h' → registry_ok site h reg → registry_ok site h' reg.
Proof.
  intros Hs (Hok & H1 & H2). split; [by eapply same_tree_tree_ok|]. split.
  - intros q e Hin. destruct (H1 _ _ Hin) as (Hw & ee & Hee & Hd).
    rewrite (same_tree_walk _ _ _ _ Hs). split; [done|].
    destruct Hs as [_ Hs]. destruct (Hs _ _ Hee) as (ee' & -> & _ & _ & ? & _).
    exists ee'. split; congruence.
  - intros q x Hq. rewrite (same_tree_walk _ _ _ _ Hs). by apply H2.
Qed.

(** A leaf has no children, so a walk that reaches it stops there. *)
Lemma walk_from_leaf (h : list fsEntity) (l : ptr) (el : fsEntity)
    (q : list string) (x : ptr) :
  heap_wf h → h !! l = Some el → directory el = false →
  walk h l q = Some x → q = [].
Proof.
  intros Hwf Hl Hd. destruct q as [|c q]; [done|]. simpl. rewrite Hl.
  destruct (children el !! c) as [y|] eqn:Hc; [|done].
  destruct (wf_child _ Hwf _ _ _ _ Hl Hc) as [? _]. congruence.
Qed.

(** Registering a path apart from all registered ones creates a leaf for it. *)
Lemma newFSEntity_apart (site : Website) (name : string) (w : world)
    (reg : list (list string * ptr)) :
  registry_ok site (heap w) reg → apart (segments name) reg →
  ∃ e w', newFSEntity (root site) (prepareFileName name) w = Some (Some e, w') ∧
          probes w' = probes w ∧
          registry_ok site (heap w') ((segments name, e) :: reg).
Proof.
  intros (Hok & H1 & H2) Hapart.
  destruct (newFSEntity_spec site (prepareFileName name) w Hok)
    as (r & w' & Hrun & Hpr & Hok' & Hext & Hinv & Hres).
  fold (segments name) in Hinv, Hres. cbv zeta in Hinv, Hres.
  pose proof (Split_nonempty (prepareFileName name) "/") as Hne.
  fold (segments name) in Hne.
  destruct Hok as [Hwf (rt & Hrt & Hrtd & Hrtp)].
  destruct r as [e|]; cycle 1.
  { exfalso. destruct Hres as (_ & k & l & el & Hk & Hw & Hl & Hd).
    destruct k as [|k].
    { rewrite take_0 in Hw. simpl in Hw. congruence. }
    destruct (H2 (take (S k) (segments name)) l) as (q' & e' & Hin & [suffix ->]); [|done|].
    { destruct (segments name); simpl; done. }
    destruct (H1 _ _ Hin) as (Hw' & _).
    rewrite walk_app, Hw in Hw'. simpl in Hw'.
    rewrite (walk_from_leaf _ _ _ _ _ Hwf Hl Hd Hw'), app_nil_r in Hin.
    destruct (Hapart _ _ Hin) as [_ Hno]. apply Hno. apply prefix_take. }
  exists e, w'. split; [done|]. split; [done|].
  assert (Hfresh : ∃ ee, heap w' !! e = Some ee ∧ directory ee = false).
  { destruct (Hinv _ _ Hres) as [Hold|(_ & k & ex & Hk & Htake & Hex & Hdir)].
    - destruct (H2 _ _ Hne Hold) as (q' & e' & Hin & Hpre).
      by destruct (Hapart _ _ Hin) as [Hno _].
    - exists ex. split; [done|]. rewrite Hdir. apply bool_decide_eq_false_2.
      apply (f_equal length) in Htake. rewrite length_take in Htake. lia. }
  split; [done|]. split.
  - intros q x [[= -> ->]|Hin]%elem_of_cons; [done|].
    destruct (H1 _ _ Hin) as (Hw & ee & Hee & Hd).
    split; [by eapply walk_extends|].
    destruct Hext as [_ Hext]. destruct (Hext _ _ Hee) as (ee' & -> & _ & _ & ? & _).
    exists ee'. split; congruence.
  - intros q x Hq Hw. destruct (Hinv _ _ Hw) as [Hold|(_ & k & ex & Hk & -> & _)].
    + destruct (H2 _ _ Hq Hold) as (q' & e' & Hin & Hpre).
      exists q', e'. split; [by apply list_elem_of_further|done].
    + exists (segments name), e. split; [apply list_elem_of_here|apply prefix_take].
Qed.

Lemma register_apart (site : Website) (r : registration) (w : world)
    (reg : list (list string * ptr)) :
  registry_ok site (heap w) reg → apart (segments (regName r)) reg →
  ∃ e w1 err w',
    newFSEntity (root site) (prepareFileName (regName r)) w = Some (Some e, w1) ∧
    register site r w = Some (err, w') ∧
    (∀ n, err ≠ Some (DuplicateEntity n)) ∧
    registry_ok site (heap w') ((segments (regName r), e) :: reg).
Proof.
  intros Hreg Hapart.
  destruct (newFSEntity_apart site (regName r) w reg Hreg Hapart)
    as (e & w1 & Hrun & Hpr & Hreg1).
  exists e, w1. destruct r as [name|name [err|doc]]; cbn [register regName] in *.
  - exists None, w1. by rewrite AddFile_run, Hrun.
  - exists (Some (ReadError err)), w1. by rewrite AddDocumentFromReader_run, Hrun.
  - destruct (annotates_visitNode e doc w1) as (w' & Hvisit & _ & Hs).
    { destruct Hreg1 as (_ & H1 & _).
      destruct (H1 (segments name) e) as (_ & ee & -> & _); [apply list_elem_of_here|eauto]. }
    exists None, w'. rewrite AddDocumentFromReader_run, Hrun, Hvisit.
    split_and!; [done..|]. by eapply registry_ok_same_tree.
Qed.

Lemma registerAll_cons (site : Website) (r : registration) (rs : list registration)
    (w w1 w' : world) (err : option error) (errs : list (option error)) :
  register site r w = Some (err, w1) → registerAll site rs w1 = Some (errs, w') →
  registerAll site (r :: rs) w = Some (err :: errs, w').
Proof.
  intros H1 H2. cbn [registerAll]. rewrite bind_run, H1, bind_run, H2. done.
Qed.

(** Scripts whose paths are pairwise apart run to the end, and every path
    stays registered with the entity that [newFSEntity] returned for it. *)
Lemma registerAll_apart (site : Website) (rs : list registration) :
  ∀ (w : world) (reg : list (list string * ptr)),
  registry_ok site (heap w) reg →
  (∀ r, r ∈ rs → apart (segments (regName r)) reg) →
  (∀ i j a b, i ≠ j → rs !! i = Some a → rs !! j = Some b →
     ¬ segments (regName a) `prefix_of` segments (regName b)) →
  ∃ errs w' reg',
    registerAll site rs w = Some (errs, w') ∧
    Forall (λ err, ∀ n, err ≠ Some (DuplicateEntity n)) errs ∧
    registry_ok site (heap w') reg' ∧
    (∀ qe, qe ∈ reg → qe ∈ reg') ∧
    ∀ i r, rs !! i = Some r →
      ∃ es wi e wi',
        registerAll site (take i rs) w = Some (es, wi) ∧
        newFSEntity (root site) (prepareFileName (regName r)) wi = Some (Some e, wi') ∧
        (segments (regName r), e) ∈ reg'.
Proof.
  induction rs as [|r rs IH]; intros w reg Hreg Hapart Hpair.
  { exists [], w, reg. split_and!; done. }
  unfold apart in Hapart.
  destruct (register_apart site r w reg Hreg) as (e & w1 & err & w2 & Hnew & Hrun & Herr & Hreg2).
  { intros q' e' Hin. eapply Hapart; [apply list_elem_of_here|done]. }
  destruct (IH w2 ((segments (regName r), e) :: reg) Hreg2)
    as (errs & w' & reg' & Hall & Herrs & Hreg' & Hsub & Hres).
  { intros r' Hr' q' e' [[= -> ->]|Hin]%elem_of_cons.
    - apply list_elem_of_lookup in Hr' as [j Hj].
      split; [apply (Hpair (S j) 0%nat r' r)|apply (Hpair 0%nat (S j) r r')]; done.
    - eapply Hapart; [by apply list_elem_of_further|done]. }
  { intros i j a b Hij Ha Hb. apply (Hpair (S i) (S j)); [lia|done..]. }
  exists (err :: errs), w', reg'. split_and!.
  - by eapply registerAll_cons.
  - by constructor.
  - done.
  - intros qe Hqe. by apply Hsub, list_elem_of_further.
  - intros [|i] r' Hi; simpl in Hi.
    + injection Hi as <-. exists [], w, e, w1. split_and!; [done..|].
      apply Hsub, list_elem_of_here.
    + destruct (Hres i r' Hi) as (es & wi & e' & wi' & Htake & Hnew' & Hin).
      exists (err :: es), wi, e', wi'. split_and!; [|done..].
      cbn [take]. by eapply registerAll_cons.
Qed.

Lemma registerAll_reachable (site : Website) (rs : list registration) :
  ∀ w errs w', reachable site w → registerAll site rs w = Some (errs, w') →
  reachable site w'.
Proof.
  induction rs as [|r rs IH]; intros w errs w' Hw; cbn [registerAll].
  { rewrite ret_run. by intros [= _ <-]. }
  rewrite bind_run. destruct (register site r w) as [[err w1]|] eqn:Hr; [|done].
  rewrite bind_run. destruct (registerAll site rs w1) as [[errs1 w2]|] eqn:Hrs; [|done].
  rewrite ret_run. intros [= _ <-]. eapply IH; [|done].
  destruct r as [name|name reader]; simpl in Hr.
  - by eapply reach_AddFile.
  - by eapply reach_AddDocument.
Qed.

Lemma init_world_wf : heap_wf (heap init_world).
Proof. split; simpl; intros * H; by rewrite lookup_nil in H. Qed.

Lemma demo_reachable : reachable demo_site demo_world.
Proof.
  eapply (registerAll_reachable demo_site demo_script _ _ demo_world).
  - eapply (reach_New _ init_world); [apply init_world_wf|reflexivity].
  - vm_compute. reflexivity.
Qed.

(** * Statements about the package *)

(** ** Path resolution *)

(** C4: resolving the empty component list at a directory returns, and it
    returns an entity exactly when the directory has a child named
    [index.html], [index.htm] or [index.tmpl]; the child returned is the
    first present one in that order, and nothing is returned when none is
    present. *)
Theorem directory_resolves_to_its_index (w : world) (p : ptr) (e : fsEntity) :
  heap w !! p = Some e → directory e = true →
  ∃ r, isPathValid (Some p) [] w = Some (r, w) ∧
       (is_Some r ↔ is_Some (children e !! "index.html") ∨
                    is_Some (children e !! "index.htm") ∨
                    is_Some (children e !! "index.tmpl")) ∧
       r = match children e !! "index.html" with
           | Some x => Some x
           | None =>
               match children e !! "index.htm" with
               | Some x => Some x
               | None => children e !! "index.tmpl"
               end
           end.
Proof.
  intros He Hdir. exists (firstIndex (children e) indexFiles).
  split; [|split; [|cbn [firstIndex indexFiles]; by repeat case_match]].
  - cbn [isPathValid]. run_deref He. by rewrite Hdir.
  - cbn [firstIndex indexFiles]. rewrite !is_Some_alt. repeat case_match; intuition congruence.
Qed.

Lemma directory_resolves_to_its_index_witness :
  ∃ r, isPathValid (Some 2%nat) [] demo_world = Some (r, demo_world) ∧ r = Some 4%nat.
Proof.
  destruct (directory_resolves_to_its_index demo_world 2%nat demo_blog)
    as (r & Hrun & _ & Hr); [vm_compute; reflexivity|reflexivity|].
  exists r. split; [exact Hrun|]. vm_compute in Hr. exact Hr.
Defined.




(** ** Validation of one reference *)

Lemma HasPrefix_hash_http (s : string) : strings.HasPrefix (String "#" s) "http" = false.
Proof. reflexivity. Qed.

Lemma append_assoc (a b c : string) : (a +:+ b) +:+ c = a +:+ (b +:+ c).
Proof.
  induction a as [|x a IH]; [reflexivity|].
  change (String x ((a +:+ b) +:+ c) = String x (a +:+ (b +:+ c))). by rewrite IH.
Qed.

Section Claims.
Variable transport : list string → string → string + Z.

(** C6: a reference that is exactly [#] once trimmed and with its
    backslashes turned into slashes adds an [IncompleteFragment] error
    for the page and nothing else; one that is exactly [/] adds no error;
    in both cases the world is handed back untouched (no probe, no
    resolution). *)
Theorem bare_hash_and_bare_slash (site : Website) (w : world) (entity : ptr)
    (page : fsEntity) (errors : list error) (href : string) :
  heap w !! entity = Some page →
  (sanitize href = "#" →
     validateHref transport site entity errors href w
     = Some (errors ++ [IncompleteFragment (fullname page)], w)) ∧
  (sanitize href = "/" →
     validateHref transport site entity errors href w = Some (errors, w)).
Proof.
  intros Hpage. unfold validateHref, sanitize.
  split; intros Hs; run_deref Hpage; rewrite Hs; reflexivity.
Qed.

(** C7, as the code has it: a reference whose last [#] is at position 0
    (it begins with [#] and has no other [#]), other than the bare [#]
    and not external, is checked against the identifiers of the page
    that holds it and against nothing else: with [target] the text after
    the [#], no error when [target] is among the page's identifiers, a
    [BrokenSamePageLink] error when it is not. *)
Theorem same_page_fragment (site : Website) (w : world) (entity : ptr)
    (page : fsEntity) (errors : list error) (href : string) :
  heap w !! entity = Some page →
  sanitize href ≠ "#" →
  strings.LastIndex (sanitize href) "#" = 0 →
  ∃ target,
    sanitize href = String "#" target ∧
    validateHref transport site entity errors href w
    = Some (match ids page !! target with
            | Some _ => errors
            | None => errors ++ [BrokenSamePageLink (fullname page) (sanitize href)]
            end, w).
Proof.
  intros Hpage Hne Hlast.
  destruct (LastIndex_zero_head _ _ Hlast) as [target Htarget].
  exists target. split; [done|].
  unfold validateHref. fold (sanitize href). run_deref Hpage.
  rewrite Hlast. rewrite Htarget in *.
  rewrite HasPrefix_hash_http.
  apply String.eqb_neq in Hne. rewrite Hne.
  replace (String.eqb (String "#" target) "/") with false by reflexivity.
  cbn [Z.eqb]. replace (strings.DecodeRuneInString_size (String "#" target)) with 1%nat
    by reflexivity.
  cbn [strings.slice_from]. by destruct (ids page !! target).
Qed.

(** C8: a reference with a [#] at a position [j] greater than 0 that is
    not external is cut at its last [#] into a path part and a fragment,
    both trimmed; the path part is resolved from the root when it begins with
    [/] and from the parent directory of the page otherwise; a failed
    resolution is a broken-link error, and after a successful one a
    [BrokenFragmentTarget] error is added exactly when the fragment is
    not among the identifiers of the entity the path resolved to. *)
Theorem path_with_fragment (site : Website) (w : world) (entity : ptr)
    (page : fsEntity) (errors : list error) (href : string) (j : nat) :
  reachable site w →
  heap w !! entity = Some page →
  strings.HasPrefix (sanitize href) "http" = false →
  (0 < j)%nat → String.get j (sanitize href) = Some "#"%char →
  let hashIndex := strings.LastIndex (sanitize href) "#" in
  let path := strings.TrimSpace (strings.slice_to (Z.to_nat hashIndex) (sanitize href)) in
  let fragment :=
    strings.TrimSpace (strings.slice_from (Z.to_nat (hashIndex + 1)) (sanitize href)) in
  let absolute := strings.HasPrefix path "/" in
  ∃ r,
    isPathValid (if absolute then Some (root site) else parent page) (splitPath path) w
    = Some (r, w) ∧
    match r with
    | None =>
        validateHref transport site entity errors href w
        = Some (errors ++ [if absolute then BrokenAbsoluteLink (fullname page) path
                           else BrokenRelativeLink (fullname page) path], w)
    | Some t =>
        ∃ te, heap w !! t = Some te ∧
              validateHref transport site entity errors href w
              = Some (match ids te !! fragment with
                      | Some _ => errors
                      | None => errors ++ [BrokenFragmentTarget (fullname page) path fragment]
                      end, w)
    end.
Proof.
  intros Hreach Hpage Hhttp Hj Hget hashIndex path fragment absolute.
  pose proof (LastIndex_occurrence_pos _ _ _ Hj Hget) as Hpos.
  pose proof (reachable_tree_ok _ _ Hreach) as [Hwf (rt & Hrt & _)].
  destruct (LastIndex_pos_not_special _ Hpos) as [Hhash Hslash].
  assert (Hstart : ∀ p, (if absolute then Some (root site) else parent page) = Some p →
                        is_Some (heap w !! p)).
  { intros p Hp. destruct absolute; [injection Hp as <-; eauto|].
    pose proof (wf_parent _ Hwf _ _ _ Hpage Hp).
    apply lookup_lt_is_Some_2. apply lookup_lt_Some in Hpage. lia. }
  destruct (isPathValid_reads (heap w) (splitPath path) Hwf _ Hstart w eq_refl)
    as (r & w' & Hrun & _ & Hr).
  assert (w' = w) as -> by by eapply isPathValid_world.
  exists r. split; [done|].
  assert (Hbody : validateHref transport site entity errors href w =
            match r with
            | None => Some (errors ++ [if absolute then BrokenAbsoluteLink (fullname page) path
                                       else BrokenRelativeLink (fullname page) path], w)
            | Some t => checkTarget page errors hashIndex path fragment t w
            end).
  { unfold validateHref. fold (sanitize href). run_deref Hpage.
    rewrite Hhttp, Hhash, Hslash. fold hashIndex.
    replace (hashIndex =? 0) with false by (symmetry; apply Z.eqb_neq; lia).
    replace (0 <? hashIndex) with true by (symmetry; apply Z.ltb_lt; lia).
    fold path fragment absolute. subst absolute.
    destruct (strings.HasPrefix path "/"); rewrite bind_run, Hrun; by destruct r. }
  rewrite Hbody. destruct r as [t|]; [|done].
  destruct (Hr t eq_refl) as [te Hte]. exists te. split; [done|].
  unfold checkTarget.
  replace (0 <? hashIndex) with true by (symmetry; apply Z.ltb_lt; lia).
  run_deref Hte. by destruct (ids te !! fragment).
Qed.

(** C9: for a reference that begins with [http] once sanitized,
    validation makes exactly one probe, of that URL, and leaves the heap
    alone; its outcome is a function of the page's full name, the URL and
    the probe alone, so it is the same on any other website: a transport
    failure adds an error whose message contains "encountered error when
    pinging", a status [N] other than 200 adds one whose message contains
    "encountered status code N when pinging", and status 200 adds none. *)
Theorem external_reference_is_probed_once (site : Website) (w : world) (entity : ptr)
    (page : fsEntity) (errors : list error) (href : string) :
  heap w !! entity = Some page →
  strings.HasPrefix (sanitize href) "http" = true →
  let url := sanitize href in
  let outcome :=
    match transport (probes w) url with
    | inl _ => [ExternalProbeFailed (fullname page) url]
    | inr status =>
        if status =? 200 then [] else [ExternalStatusError (fullname page) status url]
    end in
  validateHref transport site entity errors href w
  = Some (errors ++ outcome, mkWorld (heap w) (probes w ++ [url])) ∧
  (∀ site' w' entity' page',
     heap w' !! entity' = Some page' → fullname page' = fullname page →
     probes w' = probes w →
     validateHref transport site' entity' errors href w'
     = Some (errors ++ outcome, mkWorld (heap w') (probes w' ++ [url]))) ∧
  (∃ pre post, Error (ExternalProbeFailed (fullname page) url)
               = pre +:+ "encountered error when pinging" +:+ post) ∧
  (∀ status, ∃ pre post,
     Error (ExternalStatusError (fullname page) status url)
     = pre +:+ ("encountered status code " +:+ pretty status +:+ " when pinging") +:+ post).
Proof.
  intros Hpage Hhttp url outcome.
  assert (Hgen : ∀ site' w' entity' page',
     heap w' !! entity' = Some page' → fullname page' = fullname page →
     probes w' = probes w →
     validateHref transport site' entity' errors href w'
     = Some (errors ++ outcome, mkWorld (heap w') (probes w' ++ [url]))).
  { intros site' w' entity' page' Hpage' Hname Hprobes.
    subst outcome url. unfold validateHref. fold (sanitize href). run_deref Hpage'.
    rewrite Hhttp, bind_run, ping_run, Hprobes, Hname.
    destruct (transport (probes w) (sanitize href)) as [err|status]; cbn [fst snd]; [done|].
    destruct (status =? 200); cbn [negb]; by rewrite ?app_nil_r. }
  split; [exact (Hgen site w entity page Hpage eq_refl eq_refl)|].
  split; [exact Hgen|]. split.
  - exists (fullname page +:+ ": "), (" '" +:+ url +:+ "'"). cbn [Error].
    by rewrite append_assoc.
  - intros status.
    exists (fullname page +:+ ": "), (" '" +:+ url +:+ "'"). cbn [Error].
    by rewrite !append_assoc.
Qed.

(** C10: in every reachable world [Validate] returns, and the heap it
    leaves is the heap it found: every entity with its name, full name,
    directory flag, children, parent, identifiers and references. *)
Theorem Validate_leaves_the_tree_unchanged (site : Website) (w : world) :
  reachable site w →
  ∃ errs w', Validate transport site w = Some (errs, w') ∧ heap w' = heap w.
Proof.
  intros Hreach.
  destruct (Validate_reads transport site (heap w) (reachable_tree_ok _ _ Hreach) w eq_refl)
    as (errs & w' & Hrun & Hheap & _).
  by exists errs, w'.
Qed.

End Claims.

Lemma demo_post_lookup : heap demo_world !! 3%nat = Some demo_post.
Proof. vm_compute. reflexivity. Qed.

Lemma bare_hash_and_bare_slash_witness :
  validateHref demo_transport demo_site 3%nat [] " # " demo_world
  = Some ([IncompleteFragment "blog/post.html"], demo_world) ∧
  validateHref demo_transport demo_site 3%nat [] "/" demo_world = Some ([], demo_world).
Proof.
  split.
  - apply (proj1 (bare_hash_and_bare_slash demo_transport demo_site demo_world 3%nat
                    demo_post [] " # " demo_post_lookup)).
    vm_compute. reflexivity.
  - apply (proj2 (bare_hash_and_bare_slash demo_transport demo_site demo_world 3%nat
                    demo_post [] "/" demo_post_lookup)).
    vm_compute. reflexivity.
Defined.

Lemma same_page_fragment_witness :
  ∃ target,
    sanitize "#top" = String "#" target ∧
    validateHref demo_transport demo_site 3%nat [] "#top" demo_world
    = Some (match ids demo_post !! target with
            | Some _ => []
            | None => [] ++ [BrokenSamePageLink (fullname demo_post) (sanitize "#top")]
            end, demo_world).
Proof.
  apply (same_page_fragment demo_transport demo_site demo_world 3%nat demo_post [] "#top"
           demo_post_lookup).
  - vm_compute. discriminate.
  - vm_compute. reflexivity.
Defined.

Lemma path_with_fragment_witness :
  validateHref demo_transport demo_site 3%nat [] "..\index.html#intro" demo_world
  = Some ([], demo_world).
Proof.
  destruct (path_with_fragment demo_transport demo_site demo_world 3%nat demo_post []
              "..\index.html#intro" 13 demo_reachable demo_post_lookup)
    as (r & Hrun & Hres).
  - vm_compute. reflexivity.
  - lia.
  - vm_compute. reflexivity.
  - vm_compute in Hrun. injection Hrun as <-.
    destruct Hres as (te & Hte & Hval).
    vm_compute in Hte. injection Hte as <-.
    rewrite Hval. vm_compute. reflexivity.
Defined.

Lemma external_reference_is_probed_once_witness :
  validateHref demo_transport demo_site 3%nat [] "http://example.com/" demo_world
  = Some ([ExternalStatusError "blog/post.html" 404 "http://example.com/"],
          mkWorld (heap demo_world) ["http://example.com/"]).
Proof.
  pose proof (proj1 (external_reference_is_probed_once demo_transport demo_site demo_world
                       3%nat demo_post [] "http://example.com/" demo_post_lookup eq_refl))
    as Hrun.
  rewrite Hrun. vm_compute. reflexivity.
Defined.

Lemma Validate_leaves_the_tree_unchanged_witness :
  ∃ errs w', Validate demo_transport demo_site demo_world = Some (errs, w') ∧
             heap w' = heap demo_world.
Proof.
  exact (Validate_leaves_the_tree_unchanged demo_transport demo_site demo_world
           demo_reachable).
Defined.

(** ** Registration *)

(** A path that already leads somewhere is handed back by
    [createFSEntity] as it is: nothing is created, no [nil] is returned. *)
Lemma createFSEntity_existing (w : world) (comps : list string) :
  heap_wf (heap w) →
  ∀ p e, walk (heap w) p comps = Some e → createFSEntity p comps w = Some (Some e, w).
Proof.
  intros Hwf. induction comps as [|c rest IH]; intros p e; simpl.
  - by intros [= ->].
  - destruct (heap w !! p) as [pe|] eqn:Hp; [|done].
    destruct (children pe !! c) as [q|] eqn:Hq; [|done]. intros Hw.
    destruct (wf_child _ Hwf _ _ _ _ Hp Hq) as [Hdir _].
    run_deref Hp. rewrite Hdir, Hq. by apply IH.
Qed.

Lemma AddFile_existing_path (site : Website) (w : world) (path : string) (e : ptr) :
  reachable site w → walk (heap w) (root site) (segments path) = Some e →
  AddFile site path w = Some (None, w).
Proof.
  intros Hreach Hw. rewrite AddFile_run. unfold newFSEntity. unfold segments in Hw.
  destruct (reachable_tree_ok _ _ Hreach) as [Hwf _].
  by rewrite (createFSEntity_existing w _ Hwf _ _ Hw).
Qed.

(** C1 (what the code does instead): on a fresh website, the second
    [AddFile] of one path returns no error, like the first; and the second
    [AddDocumentFromReader] of one path returns no error either and adds
    the references of the document to the entity a second time. *)
Example second_registration_is_accepted :
  fst <$> (site ← New;
           first ← AddFile site "a.html";
           second ← AddFile site "a.html";
           mret (first, second)) init_world
  = Some (None, None) ∧
  fst <$> (site ← New;
           first ← AddDocumentFromReader site "a.html" (inr one_link_doc);
           before ← deref 1%nat;
           second ← AddDocumentFromReader site "a.html" (inr one_link_doc);
           after ← deref 1%nat;
           mret (first, hrefs before, second, hrefs after)) init_world
  = Some (None, ["x"], None, ["x"; "x"]).
Proof. split; vm_compute; reflexivity. Qed.

(** C2 fails on a path with an empty segment: [a//b] is registered without
    error, on a website that holds nothing else, and resolving [a//b] from
    the root finds nothing. *)
Example empty_segment_is_not_resolved :
  fst <$> (site ← New;
           err ← AddFile site "a//b";
           ent ← newFSEntity (root site) (prepareFileName "a//b");
           found ← isPathValid (Some (root site)) (splitPath "a//b");
           mret (err, ent, found)) init_world
  = Some (None, Some 3%nat, None).
Proof. vm_compute. reflexivity. Qed.

(** C3 fails on [a//b]: its registration creates three entities, the
    middle one named by the empty segment, where the registration of
    [a/b] creates two. *)
Example empty_segment_is_registered :
  (λ r, map name (heap r.2)) <$> (site ← New; AddFile site "a//b") init_world
  = Some ["/"; "a"; ""; "b"] ∧
  (λ r, map name (heap r.2)) <$> (site ← New; AddFile site "a/b") init_world
  = Some ["/"; "a"; "b"] ∧
  splitPath "a//b" = ["a"; "b"].
Proof. split_and!; vm_compute; reflexivity. Qed.

(** C7 fails on [#a#b]: it has a [#] at position 0, is not [#] and not
    external, and [a#b] is not an identifier of the page, yet validation
    reports no [BrokenSamePageLink]: it resolves the path [#a]. *)
Example hash_at_zero_is_not_always_same_page :
  sanitize "#a#b" = "#a#b" ∧
  fst <$> (site ← New;
           AddDocumentFromReader site "index.html" (inr two_hashes_doc);;
           page ← deref 1%nat;
           errs ← Validate demo_transport site;
           mret (ids page !! "a#b", errs)) init_world
  = Some (None, [BrokenRelativeLink "index.html" "#a"]).
Proof. split; vm_compute; reflexivity. Qed.

(** C3, as the code has it: [AddFile] strips one leading [/], splits the
    rest on [/] and walks every piece, the empty ones too (for a name
    without an empty piece these are the pieces of [splitPath]).  When it
    reports no error, every non-empty prefix of the pieces leads from the
    root to an entity named by its last piece; the entities before the
    last piece are directories, and of the entities this call created
    exactly the one for the last piece is a leaf. *)
Theorem registration_walks_every_piece (site : Website) (w : world) (path : string) :
  reachable site w →
  let comps := strings.Split (prepareFileName path) "/" in
  ∃ err w',
    AddFile site path w = Some (err, w') ∧
    (Forall (λ c, c ≠ "") comps → comps = splitPath path) ∧
    (err = None →
     ∀ k, (0 < k ≤ length comps)%nat →
       ∃ x ex,
         walk (heap w') (root site) (take k comps) = Some x ∧
         heap w' !! x = Some ex ∧
         comps !! (k - 1)%nat = Some (name ex) ∧
         ((k < length comps)%nat → directory ex = true) ∧
         ((length (heap w) ≤ x)%nat → directory ex = bool_decide (k < length comps)%nat)).
Proof.
  intros Hreach comps. pose proof (reachable_tree_ok _ _ Hreach) as Hok.
  destruct (newFSEntity_spec site (prepareFileName path) w Hok)
    as (r & w' & Hrun & _ & Hok' & _ & Hinv & Hres).
  fold comps in Hinv, Hres.
  exists (match r with Some _ => None | None => Some (DuplicateEntity (prepareFileName path)) end), w'.
  split; [rewrite AddFile_run, Hrun; by destruct r|]. split.
  { intros Hne. symmetry. rewrite splitPath_prepareFileName. by apply nonEmptyPieces_id. }
  destruct r as [e|]; [|done]. intros _ k Hk.
  destruct Hok' as [Hwf' (rt & Hrt & _)].
  rewrite <- (take_drop k comps), walk_app in Hres.
  destruct (walk (heap w') (root site) (take k comps)) as [x|] eqn:Hx; [|done].
  simpl in Hres.
  destruct (walk_valid _ _ _ _ Hwf' (ltac:(eauto)) Hx) as [ex Hex].
  exists x, ex. split; [done|]. split; [done|].
  destruct (lookup_lt_is_Some_2 comps (k - 1)) as [c Hc]; [lia|].
  assert (Htake : take k comps = take (k - 1) comps ++ [c]).
  { replace k with (S (k - 1)) at 1 by lia. by apply take_S_r. }
  split; [|split].
  - rewrite Htake in Hx. apply walk_snoc in Hx as (d & ed & _ & Hd & Hdc).
    destruct (wf_child _ Hwf' _ _ _ _ Hd Hdc) as (_ & ex' & Hex' & _ & Hname).
    rewrite Hc. congruence.
  - intros Hlt. destruct (drop k comps) as [|c' rest] eqn:Hdrop.
    { apply (f_equal length) in Hdrop. rewrite length_drop in Hdrop. simpl in Hdrop. lia. }
    simpl in Hres. rewrite Hex in Hres.
    destruct (children ex !! c') as [y|] eqn:Hy; [|done].
    by destruct (wf_child _ Hwf' _ _ _ _ Hex Hy).
  - intros Hnew. destruct (Hinv _ _ Hx) as [Hold|(_ & k' & ex' & Hk' & Heq & Hex' & Hdir)].
    + destruct Hok as [Hwf (rt0 & Hrt0 & _)].
      destruct (walk_valid _ _ _ _ Hwf (ltac:(eauto)) Hold) as [? Hlt%lookup_lt_Some]. lia.
    + apply (f_equal length) in Heq. rewrite !length_take in Heq.
      assert (k = k') as <- by lia. congruence.
Qed.

Lemma registration_walks_every_piece_witness :
  let comps := strings.Split (prepareFileName "/blog//draft.html") "/" in
  ∃ err w',
    AddFile demo_site "/blog//draft.html" demo_world = Some (err, w') ∧
    (Forall (λ c, c ≠ "") comps → comps = splitPath "/blog//draft.html") ∧
    (err = None →
     ∀ k, (0 < k ≤ length comps)%nat →
       ∃ x ex,
         walk (heap w') (root demo_site) (take k comps) = Some x ∧
         heap w' !! x = Some ex ∧
         comps !! (k - 1)%nat = Some (name ex) ∧
         ((k < length comps)%nat → directory ex = true) ∧
         ((length (heap demo_world) ≤ x)%nat →
          directory ex = bool_decide (k < length comps)%nat)).
Proof.
  exact (registration_walks_every_piece demo_site demo_world "/blog//draft.html"
           demo_reachable).
Defined.

(** C2, as the code has it: on a fresh website, let registrations (of
    files or of documents) be made whose names have no empty and no [".."]
    segment once one leading [/] is stripped, and none of whose segment
    lists is a prefix of another's (so no two are equal).  Then every
    registration goes through without a [DuplicateEntity] error, and in the
    final tree resolving each name from the root, split by [splitPath],
    returns the entity that [newFSEntity] returned when that name was
    registered. *)
Theorem registered_paths_resolve (w0 : world) (site : Website) (w1 : world)
    (rs : list registration) :
  heap_wf (heap w0) → New w0 = Some (site, w1) →
  Forall (λ r, plain (regName r)) rs →
  (∀ i j a b, i ≠ j → rs !! i = Some a → rs !! j = Some b →
     ¬ segments (regName a) `prefix_of` segments (regName b)) →
  ∃ errs w',
    registerAll site rs w1 = Some (errs, w') ∧
    Forall (λ err, ∀ n, err ≠ Some (DuplicateEntity n)) errs ∧
    ∀ i r, rs !! i = Some r →
      ∃ es wi e wi',
        registerAll site (take i rs) w1 = Some (es, wi) ∧
        newFSEntity (root site) (prepareFileName (regName r)) wi = Some (Some e, wi') ∧
        isPathValid (Some (root site)) (splitPath (regName r)) w' = Some (Some e, w').
Proof.
  intros Hwf HNew Hplain Hpair.
  destruct (registerAll_apart site rs w1 [] (registry_ok_New _ _ _ Hwf HNew))
    as (errs & w' & reg' & Hrun & Herrs & (Hok & H1 & _) & _ & Hres); [|done|].
  { intros r _ q' e' Hin. by apply elem_of_nil in Hin. }
  exists errs, w'. split; [done|]. split; [done|].
  intros i r Hi. destruct (Hres i r Hi) as (es & wi & e & wi' & Htake & Hnew & Hin).
  exists es, wi, e, wi'. split; [done|]. split; [done|].
  destruct (H1 _ _ Hin) as (Hwalk & ee & Hee & Hleaf).
  assert (Hr : plain (regName r)).
  { eapply Forall_forall in Hplain; [done|]. by eapply list_elem_of_lookup_2. }
  rewrite (splitPath_plain _ Hr). eapply isPathValid_leaf; [|done..].
  eapply Forall_impl; [apply Hr|]. by intros c [_ Hc].
Qed.

Lemma two_files_plain : Forall (λ r, plain (regName r)) two_files.
Proof. repeat constructor; vm_compute; congruence. Qed.

Lemma two_files_apart (i j : nat) (a b : registration) :
  i ≠ j → two_files !! i = Some a → two_files !! j = Some b →
  ¬ segments (regName a) `prefix_of` segments (regName b).
Proof.
  destruct i as [|[|i]], j as [|[|j]]; intros Hne; simpl; intros [= <-] [= <-]; try done;
    vm_compute; intros [k Hk]; discriminate Hk.
Qed.

Lemma registered_paths_resolve_witness :
  ∃ errs w',
    registerAll demo_site two_files (mkWorld [mkFSEntity "/" "" true ∅ None ∅ []] [])
    = Some (errs, w') ∧
    Forall (λ err, ∀ n, err ≠ Some (DuplicateEntity n)) errs ∧
    ∀ i r, two_files !! i = Some r →
      ∃ es wi e wi',
        registerAll demo_site (take i two_files)
          (mkWorld [mkFSEntity "/" "" true ∅ None ∅ []] []) = Some (es, wi) ∧
        newFSEntity (root demo_site) (prepareFileName (regName r)) wi = Some (Some e, wi') ∧
        isPathValid (Some (root demo_site)) (splitPath (regName r)) w' = Some (Some e, w').
Proof.
  exact (registered_paths_resolve init_world demo_site
           (mkWorld [mkFSEntity "/" "" true ∅ None ∅ []] []) two_files
           init_world_wf eq_refl two_files_plain two_files_apart).
Defined.

(** * Further properties of the package *)

(** ** [splitPath] and [prepareFileName] *)

Lemma append_cons (c : ascii) (a b : string) : String c a +:+ b = String c (a +:+ b).
Proof. reflexivity. Qed.

Lemma append_nil_l (b : string) : "" +:+ b = b.
Proof. reflexivity. Qed.

Lemma Split_append_sep (a b : string) (sep : ascii) :
  strings.Split (a +:+ String sep b) sep = strings.Split a sep ++ strings.Split b sep.
Proof.
  induction a as [|c a IH].
  - rewrite append_nil_l. simpl. by rewrite Ascii.eqb_refl.
  - rewrite append_cons. simpl. rewrite IH. destruct (Ascii.eqb c sep); [done|].
    pose proof (Split_nonempty a sep). by destruct (strings.Split a sep).
Qed.

Lemma nonEmptyPieces_app (l1 l2 : list string) :
  nonEmptyPieces (l1 ++ l2) = nonEmptyPieces l1 ++ nonEmptyPieces l2.
Proof.
  induction l1 as [|c l1 IH]; simpl; [done|].
  destruct (Nat.ltb 0 (String.length c)); simpl; by rewrite IH.
Qed.

Lemma nonEmptyPieces_Forall (P : string → Prop) (l : list string) :
  Forall P l → Forall (λ c, c ≠ "" ∧ P c) (nonEmptyPieces l).
Proof.
  induction 1 as [|c l Hc _ IH]; simpl; [constructor|].
  destruct c as [|a c]; simpl; [done|]. constructor; [|done]. by split.
Qed.

Lemma Split_free_of (s : string) (sep : ascii) :
  Forall (free_of sep) (strings.Split s sep).
Proof.
  induction s as [|c s IH]; simpl.
  - constructor; [|constructor]. by intros [|i].
  - destruct (Ascii.eqb_spec c sep) as [->|Hne].
    + constructor; [|done]. by intros [|i].
    + pose proof (Split_nonempty s sep).
      destruct (strings.Split s sep) as [|p ps]; [done|].
      inversion IH as [|? ? Hp Hps]; subst. constructor; [|done].
      intros [|i]; simpl; [congruence|apply Hp].
Qed.

(** X1: the pieces [splitPath] returns are never empty and never contain a
    [/]; and splitting [a/b] gives the pieces of [a] followed by those of
    [b], so leading, trailing and repeated slashes change nothing. *)
Theorem splitPath_pieces (a b : string) :
  Forall (λ c, c ≠ "" ∧ free_of "/" c) (splitPath a) ∧
  splitPath (a +:+ "/" +:+ b) = splitPath a ++ splitPath b ∧
  splitPath ("/" +:+ a) = splitPath a ∧
  splitPath (a +:+ "/") = splitPath a.
Proof.
  unfold splitPath. split_and!.
  - apply nonEmptyPieces_Forall, Split_free_of.
  - change (a +:+ "/" +:+ b) with (a +:+ String "/" b).
    by rewrite Split_append_sep, nonEmptyPieces_app.
  - reflexivity.
  - change (a +:+ "/") with (a +:+ String "/" "").
    rewrite Split_append_sep, nonEmptyPieces_app. simpl. by rewrite app_nil_r.
Qed.
(** X2: one leading [/] of a registered name is optional: [AddFile] and
    [AddDocumentFromReader] do to ["/" ++ s] exactly what they do to [s],
    when [s] does not itself begin with [/]. *)
Theorem leading_slash_is_optional (site : Website) (s : string) (reader : string + node)
    (w : world) :
  strings.HasPrefix s "/" = false →
  AddFile site (String "/" s) w = AddFile site s w ∧
  AddDocumentFromReader site (String "/" s) reader w
  = AddDocumentFromReader site s reader w.
Proof.
  intros Hs. rewrite !AddFile_run, !AddDocumentFromReader_run.
  by rewrite prepareFileName_slash, (prepareFileName_other _ Hs).
Qed.

Lemma leading_slash_is_optional_witness :
  AddFile demo_site "/img/logo.png" demo_world = AddFile demo_site "img/logo.png" demo_world ∧
  AddDocumentFromReader demo_site "/img/logo.png" (inr one_link_doc) demo_world
  = AddDocumentFromReader demo_site "img/logo.png" (inr one_link_doc) demo_world.
Proof.
  exact (leading_slash_is_optional demo_site "img/logo.png" (inr one_link_doc) demo_world
           eq_refl).
Defined.

(** ** Resolution *)

Lemma isPathValid_nil_entity (comps : list string) (w : world) :
  isPathValid None comps w = Some (None, w).
Proof. by destruct comps. Qed.

(** X3: on a website fresh from [New] no path resolves, whatever its
    components: not the empty path, not [".."], not a name. *)
Theorem fresh_website_resolves_nothing (w0 : world) (site : Website) (w : world)
    (comps : list string) :
  New w0 = Some (site, w) →
  isPathValid (Some (root site)) comps w = Some (None, w).
Proof.
  rewrite New_run. intros [= <- <-].
  assert (Hroot : (heap w0 ++ [mkFSEntity "/" "" true ∅ None ∅ []]) !! length (heap w0)
                  = Some (mkFSEntity "/" "" true ∅ None ∅ [])).
  { by apply list_lookup_middle. }
  destruct comps as [|c rest]; cbn [isPathValid root]; run_deref Hroot; cbn [directory].
  - reflexivity.
  - destruct (String.eqb c ".."); [apply isPathValid_nil_entity|].
    cbn [children]. by rewrite lookup_empty.
Qed.

Lemma fresh_website_resolves_nothing_witness :
  isPathValid (Some 0%nat) ["index.html"] (mkWorld [mkFSEntity "/" "" true ∅ None ∅ []] [])
  = Some (None, mkWorld [mkFSEntity "/" "" true ∅ None ∅ []] []).
Proof.
  exact (fresh_website_resolves_nothing init_world (mkWebsite 0)
           (mkWorld [mkFSEntity "/" "" true ∅ None ∅ []] []) ["index.html"] eq_refl).
Defined.

(** X4: a path without [".."] is resolved by following [children] from
    the start entity and then applying, at the entity reached, the rule for
    the empty path (a leaf is itself, a directory is its index file); it
    fails exactly when a name is missing on the way or that rule fails. *)
Theorem resolution_follows_children (site : Website) (w : world) (p : ptr)
    (comps : list string) :
  reachable site w → is_Some (heap w !! p) →
  Forall (λ c, c ≠ "..") comps →
  isPathValid (Some p) comps w =
  match walk (heap w) p comps with
  | Some x => isPathValid (Some x) [] w
  | None => Some (None, w)
  end.
Proof.
  intros Hreach Hp Hcomps. destruct (reachable_tree_ok _ _ Hreach) as [Hwf _].
  revert p Hp. induction Hcomps as [|c rest Hc _ IH]; intros p [e He]; [done|].
  cbn [isPathValid walk]. run_deref He.
  apply String.eqb_neq in Hc. rewrite Hc.
  destruct (children e !! c) as [x|] eqn:Hx; [|done].
  apply IH. destruct (wf_child _ Hwf _ _ _ _ He Hx) as (_ & ex & -> & _). eauto.
Qed.

Lemma resolution_follows_children_witness :
  isPathValid (Some 0%nat) ["blog"; "post.html"] demo_world =
  match walk (heap demo_world) 0%nat ["blog"; "post.html"] with
  | Some x => isPathValid (Some x) [] demo_world
  | None => Some (None, demo_world)
  end.
Proof.
  apply (resolution_follows_children demo_site demo_world 0%nat ["blog"; "post.html"]
           demo_reachable).
  - exists demo_root. vm_compute. reflexivity.
  - repeat constructor; discriminate.
Defined.

(** X5: stepping into an existing child and straight back with [".."]
    changes nothing: [c/../rest] resolves as [rest] does, whether the child
    [c] is a directory or a file. *)
Theorem child_then_dotdot_cancels (site : Website) (w : world) (p : ptr) (e : fsEntity)
    (c : string) (x : ptr) (rest : list string) :
  reachable site w → heap w !! p = Some e → children e !! c = Some x → c ≠ ".." →
  isPathValid (Some p) (c :: ".." :: rest) w = isPathValid (Some p) rest w.
Proof.
  intros Hreach He Hx Hc. destruct (reachable_tree_ok _ _ Hreach) as [Hwf _].
  destruct (wf_child _ Hwf _ _ _ _ He Hx) as (_ & ex & Hex & Hpar & _).
  cbn [isPathValid]. run_deref He. apply String.eqb_neq in Hc. rewrite Hc, Hx.
  run_deref Hex. by rewrite Hpar.
Qed.

Lemma child_then_dotdot_cancels_witness :
  isPathValid (Some 2%nat) ["post.html"; ".."; "index.htm"] demo_world
  = isPathValid (Some 2%nat) ["index.htm"] demo_world.
Proof.
  apply (child_then_dotdot_cancels demo_site demo_world 2%nat demo_blog "post.html" 3%nat
           ["index.htm"] demo_reachable).
  - vm_compute. reflexivity.
  - vm_compute. reflexivity.
  - discriminate.
Defined.

(** X6: a leaf never has children.  In every reachable world an entity
    that is not a directory has an empty [children] map, resolves to itself
    on the empty path, and nothing resolves through it by name. *)
Theorem leaf_has_no_children (site : Website) (w : world) (p : ptr) (e : fsEntity) :
  reachable site w → heap w !! p = Some e → directory e = false →
  children e = ∅ ∧
  isPathValid (Some p) [] w = Some (Some p, w) ∧
  ∀ c rest, c ≠ ".." → isPathValid (Some p) (c :: rest) w = Some (None, w).
Proof.
  intros Hreach He Hleaf. destruct (reachable_tree_ok _ _ Hreach) as [Hwf _].
  assert (Hkids : ∀ c, children e !! c = None).
  { intros c. destruct (children e !! c) as [x|] eqn:Hx; [|done].
    destruct (wf_child _ Hwf _ _ _ _ He Hx) as [? _]. congruence. }
  split_and!.
  - apply map_eq. intros c. by rewrite Hkids, lookup_empty.
  - cbn [isPathValid]. run_deref He. by rewrite Hleaf.
  - intros c rest Hc. cbn [isPathValid]. run_deref He.
    apply String.eqb_neq in Hc. by rewrite Hc, Hkids.
Qed.

Lemma leaf_has_no_children_witness :
  children demo_post = ∅ ∧
  isPathValid (Some 3%nat) [] demo_world = Some (Some 3%nat, demo_world) ∧
  ∀ c rest, c ≠ ".." → isPathValid (Some 3%nat) (c :: rest) demo_world = Some (None, demo_world).
Proof.
  exact (leaf_has_no_children demo_site demo_world 3%nat demo_post demo_reachable
           demo_post_lookup eq_refl).
Defined.

(** ** Registration *)

(** X7: [AddFile] always returns in a reachable world, and it fails in
    one case only: when a proper prefix of the segments of the name leads
    to a leaf.  Then the error is [DuplicateEntity] for the name without
    its leading slash and the world is left exactly as it was. *)
Theorem AddFile_fails_only_through_a_leaf (site : Website) (w : world) (path : string) :
  reachable site w →
  ∃ err w',
    AddFile site path w = Some (err, w') ∧
    (err = None ∨ (err = Some (DuplicateEntity (prepareFileName path)) ∧ w' = w)) ∧
    (err ≠ None ↔
     ∃ k l el, (k < length (segments path))%nat ∧
               walk (heap w) (root site) (take k (segments path)) = Some l ∧
               heap w !! l = Some el ∧ directory el = false).
Proof.
  intros Hreach. pose proof (reachable_tree_ok _ _ Hreach) as Hok.
  destruct (newFSEntity_spec site (prepareFileName path) w Hok)
    as (r & w' & Hrun & _ & Hok' & Hext & _ & Hres).
  fold (segments path) in Hres. cbv zeta in Hres.
  rewrite AddFile_run, Hrun. destruct r as [e|].
  - exists None, w'. split; [done|]. split; [by left|]. split; [done|].
    intros (k & l & el & Hk & Hl & Hel & Hleaf). exfalso.
    destruct Hok' as [Hwf' _].
    rewrite <- (take_drop k (segments path)), walk_app in Hres.
    rewrite (walk_extends _ _ _ _ _ Hext Hl) in Hres. simpl in Hres.
    destruct Hext as [_ Hext]. destruct (Hext _ _ Hel) as (el' & Hel' & _ & _ & Hd & _).
    apply (walk_from_leaf _ _ _ _ _ Hwf' Hel') in Hres; [|congruence].
    apply (f_equal length) in Hres. rewrite length_drop in Hres. simpl in Hres. lia.
  - destruct Hres as [-> Hleaf]. eexists _, w. split; [done|]. split; [by right|].
    split; [done|]. by intros [].
Qed.

Lemma AddFile_fails_only_through_a_leaf_witness :
  ∃ err w',
    AddFile demo_site "/blog/post.html/draft" demo_world = Some (err, w') ∧
    (err = None ∨
     (err = Some (DuplicateEntity (prepareFileName "/blog/post.html/draft")) ∧
      w' = demo_world)) ∧
    (err ≠ None ↔
     ∃ k l el, (k < length (segments "/blog/post.html/draft"))%nat ∧
               walk (heap demo_world) (root demo_site)
                 (take k (segments "/blog/post.html/draft")) = Some l ∧
               heap demo_world !! l = Some el ∧ directory el = false).
Proof.
  exact (AddFile_fails_only_through_a_leaf demo_site demo_world "/blog/post.html/draft"
           demo_reachable).
Defined.

(** X8: registering a file a second time does nothing: after an [AddFile]
    that reported no error, the same [AddFile] again reports no error and
    hands back the world unchanged. *)
Theorem AddFile_twice_is_AddFile_once (site : Website) (w w' : world) (path : string) :
  reachable site w → AddFile site path w = Some (None, w') →
  AddFile site path w' = Some (None, w').
Proof.
  intros Hreach Hrun.
  pose proof (reach_AddFile _ _ _ _ _ Hreach Hrun) as Hreach'.
  destruct (newFSEntity_spec site (prepareFileName path) w (reachable_tree_ok _ _ Hreach))
    as (r & w1 & Hnew & _ & _ & _ & _ & Hres).
  rewrite AddFile_run, Hnew in Hrun. destruct r as [e|]; [|done].
  injection Hrun as <-. by eapply AddFile_existing_path.
Qed.

Lemma AddFile_twice_is_AddFile_once_witness :
  AddFile demo_site "/blog/index.htm" demo_world = Some (None, demo_world).
Proof.
  apply (AddFile_twice_is_AddFile_once demo_site demo_world demo_world "/blog/index.htm"
           demo_reachable).
  vm_compute. reflexivity.
Defined.

(** X9: [AddFile] never removes or alters what is registered: it makes no
    probe, every entity keeps its name, full name, directory flag, parent,
    identifiers and references, a directory keeps every child it had, and a
    path without [".."] that led from the root to a leaf still resolves to
    that leaf. *)
Theorem AddFile_keeps_what_is_registered (site : Website) (w w' : world) (path : string)
    (err : option error) :
  reachable site w → AddFile site path w = Some (err, w') →
  probes w' = probes w ∧
  extends (heap w) (heap w') ∧
  ∀ q x ex, Forall (λ c, c ≠ "..") q →
    walk (heap w) (root site) q = Some x → heap w !! x = Some ex → directory ex = false →
    isPathValid (Some (root site)) q w' = Some (Some x, w').
Proof.
  intros Hreach Hrun.
  destruct (newFSEntity_spec site (prepareFileName path) w (reachable_tree_ok _ _ Hreach))
    as (r & w1 & Hnew & Hpr & _ & Hext & _).
  assert (w1 = w') as ->.
  { rewrite AddFile_run, Hnew in Hrun. destruct r; congruence. }
  split; [done|]. split; [done|].
  intros q x ex Hq Hwalk Hex Hleaf.
  pose proof Hext as [_ Hext']. destruct (Hext' _ _ Hex) as (ex' & Hex' & _ & _ & Hd & _).
  eapply isPathValid_leaf; [done|done|congruence|by eapply walk_extends].
Qed.

Lemma AddFile_keeps_what_is_registered_witness :
  ∃ w', AddFile demo_site "/img/logo.png" demo_world = Some (None, w') ∧
        probes w' = probes demo_world ∧
        isPathValid (Some 0%nat) ["blog"; "post.html"] w' = Some (Some 3%nat, w').
Proof.
  destruct (AddFile_tree_ok demo_site "/img/logo.png" demo_world
              (reachable_tree_ok _ _ demo_reachable)) as (err & w' & Hrun & _).
  destruct (AddFile_keeps_what_is_registered demo_site demo_world w' "/img/logo.png" err
              demo_reachable Hrun) as (Hpr & _ & Hkeep).
  assert (err = None) as ->.
  { assert (H : fst <$> AddFile demo_site "/img/logo.png" demo_world = Some None)
      by (vm_compute; reflexivity).
    rewrite Hrun in H. simpl in H. congruence. }
  exists w'. split; [exact Hrun|]. split; [exact Hpr|].
  apply (Hkeep ["blog"; "post.html"] 3%nat demo_post).
  - repeat constructor; discriminate.
  - vm_compute. reflexivity.
  - exact demo_post_lookup.
  - reflexivity.
Defined.

(** X10: a document whose content cannot be read is registered all the
    same: [AddDocumentFromReader] returns the read error, but the name is
    in the tree afterwards, as a path from the root to an entity, and no
    probe was made. *)
Theorem unreadable_document_stays_registered (site : Website) (w w' : world)
    (path msg : string) :
  reachable site w →
  AddDocumentFromReader site path (inl msg) w = Some (Some (ReadError msg), w') →
  probes w' = probes w ∧
  AddFile site path w = Some (None, w') ∧
  ∃ e, walk (heap w') (root site) (segments path) = Some e.
Proof.
  intros Hreach Hrun.
  destruct (newFSEntity_spec site (prepareFileName path) w (reachable_tree_ok _ _ Hreach))
    as (r & w1 & Hnew & Hpr & _ & _ & _ & Hres).
  rewrite AddDocumentFromReader_run, Hnew in Hrun. rewrite AddFile_run, Hnew.
  destruct r as [e|]; [|done]. injection Hrun as <-. eauto.
Qed.

Lemma unreadable_document_stays_registered_witness :
  ∃ w', AddDocumentFromReader demo_site "/about.html" (inl "unexpected EOF") demo_world
        = Some (Some (ReadError "unexpected EOF"), w') ∧
        ∃ e, walk (heap w') (root demo_site) (segments "/about.html") = Some e.
Proof.
  destruct (AddDocumentFromReader_tree_ok demo_site "/about.html" (inl "unexpected EOF")
              demo_world (reachable_tree_ok _ _ demo_reachable)) as (err & w' & Hrun & _).
  assert (err = Some (ReadError "unexpected EOF")) as ->.
  { assert (H : fst <$> AddDocumentFromReader demo_site "/about.html"
                          (inl "unexpected EOF") demo_world
                = Some (Some (ReadError "unexpected EOF"))) by (vm_compute; reflexivity).
    rewrite Hrun in H. simpl in H. congruence. }
  exists w'. split; [exact Hrun|].
  exact (proj2 (proj2 (unreadable_document_stays_registered demo_site demo_world w'
                         "/about.html" "unexpected EOF" demo_reachable Hrun))).
Defined.

(** ** Full names *)

Lemma joinPath_snoc (q : list string) (c : string) :
  q ≠ [] → joinPath (q ++ [c]) = joinPath q +:+ "/" +:+ c.
Proof.
  induction q as [|a q IH]; [done|]. intros _. destruct q as [|b q]; [done|].
  change (joinPath ((a :: b :: q) ++ [c])) with (a +:+ "/" +:+ joinPath ((b :: q) ++ [c])).
  rewrite IH by done.
  change (joinPath (a :: b :: q)) with (a +:+ "/" +:+ joinPath (b :: q)).
  by rewrite !append_assoc.
Qed.

Lemma joinAcc_snoc (q : list string) (c acc : string) :
  c ≠ "" →
  joinAcc q (if Nat.eqb (String.length acc) 0 then c else c +:+ "/" +:+ acc)
  = joinAcc (q ++ [c]) acc.
Proof.
  intros Hc. destruct q as [|a q].
  - destruct acc; [by destruct c|]. simpl. by destruct c.
  - assert (Hq : joinPath ((a :: q) ++ [c]) = joinPath (a :: q) +:+ "/" +:+ c)
      by by apply joinPath_snoc.
    unfold joinAcc. cbn [app]. cbn [app] in Hq. destruct acc as [|b acc].
    + cbn [String.length Nat.eqb]. rewrite Hq. by destruct c.
    + cbn [String.length Nat.eqb]. rewrite Hq, !append_assoc.
      destruct c as [|c0 c]; [done|]. reflexivity.
Qed.

(** The loop of [calcFullName], run from the end of a path of non-empty
    names. *)
Lemma calcFullName_loop_walk (site : Website) (w : world) :
  tree_ok site (heap w) →
  ∀ q x fuel acc, Forall (λ c, c ≠ "") q →
    walk (heap w) (root site) q = Some x → (x ≤ fuel)%nat →
    calcFullName_loop fuel (Some x) acc w = Some (joinAcc q acc, w).
Proof.
  intros [Hwf (rt & Hrt & _ & Hrtp)].
  induction q as [|c q IH] using rev_ind; intros x fuel acc Hq Hwalk Hfuel.
  - simpl in Hwalk. injection Hwalk as <-.
    destruct fuel; simpl; run_deref Hrt; by rewrite Hrtp.
  - apply Forall_app in Hq as [Hq Hc]. rewrite Forall_singleton in Hc.
    apply walk_snoc in Hwalk as (d & ed & Hd & Hed & Hx).
    destruct (wf_child _ Hwf _ _ _ _ Hed Hx) as (_ & ex & Hex & Hpar & Hname).
    pose proof (wf_parent _ Hwf _ _ _ Hex Hpar) as Hlt.
    destruct fuel as [|fuel]; [lia|]. simpl. run_deref Hex. rewrite Hpar, Hname.
    rewrite (IH d fuel _ Hq Hd) by lia. by rewrite joinAcc_snoc.
Qed.

Lemma snoc_extends (h : list fsEntity) (e : fsEntity) : extends h (h ++ [e]).
Proof.
  split; [rewrite length_app; lia|]. intros q x Hx. exists x.
  split; [by apply lookup_app_l_Some|]. by split_and!.
Qed.

Lemma snoc_tree_ok (site : Website) (h : list fsEntity) (e : fsEntity) (par : ptr) :
  tree_ok site h → children e = ∅ → parent e = Some par → (par < length h)%nat →
  tree_ok site (h ++ [e]).
Proof.
  intros [Hwf (rt & Hrt & Hrtd & Hrtp)] Hkids Hpar Hlt.
  assert (Hold : ∀ q x, (h ++ [e]) !! q = Some x →
            (q = length h ∧ x = e) ∨ h !! q = Some x).
  { intros q x Hx. destruct (decide (q = length h)) as [->|Hne].
    - rewrite list_lookup_middle in Hx by done. left. by injection Hx as <-.
    - right. pose proof (lookup_lt_Some _ _ _ Hx) as Hq.
      rewrite length_app in Hq. simpl in Hq. by rewrite lookup_app_l in Hx by lia. }
  split; [split|].
  - intros p x c q Hx Hc. destruct (Hold _ _ Hx) as [[-> ->]|Hx0].
    { by rewrite Hkids, lookup_empty in Hc. }
    destruct (wf_child _ Hwf _ _ _ _ Hx0 Hc) as (? & y & Hy & ?).
    split; [done|]. exists y. split; [by apply lookup_app_l_Some|done].
  - intros q x p Hx Hp. destruct (Hold _ _ Hx) as [[-> ->]|Hx0].
    + congruence.
    + by eapply (wf_parent _ Hwf).
  - exists rt. split; [by apply lookup_app_l_Some|done].
Qed.

(** The creation step of [createFSEntity], given what [calcFullName]
    returns for the new entity. *)
Lemma createFSEntity_new_with (w : world) (par : ptr) (p : fsEntity)
    (c0 fn : string) (rest : list string) :
  heap w !! par = Some p → directory p = true → children p !! c0 = None →
  calcFullName_loop (length (heap w ++ [mkFSEntity c0 "" false ∅ (Some par) ∅ []]))
    (Some (length (heap w))) ""
    (mkWorld (heap w ++ [mkFSEntity c0 "" false ∅ (Some par) ∅ []]) (probes w))
  = Some (fn, mkWorld (heap w ++ [mkFSEntity c0 "" false ∅ (Some par) ∅ []]) (probes w)) →
  createFSEntity par (c0 :: rest) w =
  let w1 := mkWorld (attach (heap w) par p c0 fn (bool_decide (rest ≠ []))) (probes w) in
  match rest with
  | [] => Some (Some (length (heap w)), w1)
  | _ :: _ => createFSEntity (length (heap w)) rest w1
  end.
Proof.
  intros Hp Hdir Hnew Hfn. destruct w as [h pr]. simpl in *.
  pose proof (lookup_lt_Some _ _ _ Hp) as Hlt.
  set (blank := mkFSEntity c0 "" false ∅ (Some par) ∅ []) in *.
  cbn [createFSEntity]. run_deref Hp. rewrite Hdir, Hnew.
  rewrite bind_run. unfold allocateFSEntity at 1, alloc at 1. cbn [heap probes].
  rewrite bind_run.
  erewrite modify_run by (cbn [heap]; by apply list_lookup_middle).
  cbn [heap probes]. rewrite insert_snoc.
  rewrite bind_run. unfold calcFullName at 1. cbn [heap].
  unfold with_parent at 1 2. cbn [name fullname directory children ids hrefs].
  fold blank. rewrite Hfn.
  rewrite bind_run.
  erewrite modify_run by (cbn [heap]; by apply list_lookup_middle).
  cbn [heap probes]. rewrite insert_snoc.
  rewrite bind_run.
  erewrite modify_run by (cbn [heap]; by apply lookup_app_l_Some).
  cbn [heap probes with_fullname blank name directory children parent ids hrefs].
  destruct rest as [|c1 rest].
  - cbn [length Nat.ltb Nat.leb]. rewrite ret_run.
    rewrite bool_decide_eq_false_2 by naive_solver. done.
  - cbn [length Nat.ltb Nat.leb]. rewrite bind_run.
    rewrite bool_decide_eq_true_2 by done.
    erewrite modify_run; cycle 1.
    { cbn [heap]. rewrite list_lookup_insert_ne by lia. by apply list_lookup_middle. }
    cbn [heap probes]. f_equal. unfold attach. f_equal.
    rewrite list_insert_insert_ne by lia. by rewrite insert_snoc.
Qed.

Lemma createFSEntity_new_fullname (site : Website) (w : world) (par : ptr) (p : fsEntity)
    (pre : list string) (c0 : string) (rest : list string) :
  tree_ok site (heap w) → walk (heap w) (root site) pre = Some par →
  heap w !! par = Some p → directory p = true → children p !! c0 = None →
  ∃ fn,
    (Forall (λ c, c ≠ "") (pre ++ [c0]) → fn = joinPath (pre ++ [c0])) ∧
    createFSEntity par (c0 :: rest) w =
    let w1 := mkWorld (attach (heap w) par p c0 fn (bool_decide (rest ≠ []))) (probes w) in
    match rest with
    | [] => Some (Some (length (heap w)), w1)
    | _ :: _ => createFSEntity (length (heap w)) rest w1
    end.
Proof.
  intros Hok Hpre Hp Hdir Hnew.
  pose proof (lookup_lt_Some _ _ _ Hp) as Hlt.
  set (blank := mkFSEntity c0 "" false ∅ (Some par) ∅ []).
  set (w2 := mkWorld (heap w ++ [blank]) (probes w)).
  assert (Hok2 : tree_ok site (heap w2)) by by eapply snoc_tree_ok.
  assert (Hblank : heap w2 !! length (heap w) = Some blank) by by apply list_lookup_middle.
  destruct (calcFullName_loop_total w2) with
    (fuel := length (heap w2)) (c := length (heap w)) (acc := "") as [fn Hfn].
  { destruct Hok2 as [Hwf2 _]. apply (wf_parent _ Hwf2). }
  { cbn [w2 heap]. rewrite length_app. simpl. lia. }
  { cbn [w2 heap]. rewrite length_app. lia. }
  exists fn. split; [|by apply createFSEntity_new_with].
  intros [Hq Hc0]%Forall_app. rewrite Forall_singleton in Hc0.
  assert (Hlen : length (heap w2) = S (length (heap w))).
  { cbn [w2 heap]. rewrite length_app. simpl. lia. }
  rewrite Hlen in Hfn. cbn [calcFullName_loop] in Hfn.
  rewrite bind_run in Hfn. unfold deref at 1 in Hfn. rewrite Hblank in Hfn.
  cbn [parent blank name String.length Nat.eqb] in Hfn.
  rewrite (calcFullName_loop_walk site w2 Hok2 pre par) in Hfn; [| done | | lia].
  - injection Hfn as <-. pose proof (joinAcc_snoc pre c0 "" Hc0) as Hj.
    cbn [String.length Nat.eqb] in Hj. rewrite Hj. by destruct pre.
  - eapply walk_extends; [apply snoc_extends|done].
Qed.

Lemma createFSEntity_names_ok (site : Website) (comps : list string) :
  ∀ (par : ptr) (pre : list string) (w : world) r w',
  tree_ok site (heap w) → names_ok site (heap w) →
  walk (heap w) (root site) pre = Some par →
  createFSEntity par comps w = Some (r, w') → names_ok site (heap w').
Proof.
  induction comps as [|c0 rest IH]; intros par pre w r w' Hok Hnames Hpre.
  { simpl. rewrite ret_run. by intros [= _ <-]. }
  assert (is_Some (heap w !! par)) as [p Hp].
  { destruct Hok as [Hwf (rt & Hrt & _)]. eapply walk_valid; eauto. }
  destruct (directory p) eqn:Hdir; cycle 1.
  { cbn [createFSEntity]. run_deref Hp. rewrite Hdir, ret_run. by intros [= _ <-]. }
  destruct (children p !! c0) as [child|] eqn:Hc0.
  - cbn [createFSEntity]. run_deref Hp. rewrite Hdir, Hc0.
    apply (IH child (pre ++ [c0])); [done..|]. apply walk_snoc. eauto.
  - destruct (createFSEntity_new_fullname site w par p pre c0 rest) as (fn & Hfn & ->);
      [done..|]. cbv zeta.
    set (h1 := attach (heap w) par p c0 fn (bool_decide (rest ≠ []))).
    assert (Hnames1 : names_ok site h1).
    { intros q x ex Hq Hwalk Hex.
      destruct (attach_walk_inv _ _ _ _ _ _ Hp site pre q x Hok Hpre Hwalk) as [Hold|[-> ->]].
      - destruct Hok as [Hwf (rt & Hrt & _)].
        assert (is_Some (heap w !! x)) as [ex0 Hex0]
          by (eapply (walk_valid _ (root site)); [done| |exact Hold]; eauto).
        destruct (attach_extends _ _ _ c0 fn (bool_decide (rest ≠ [])) Hp Hc0) as [_ Hext].
        destruct (Hext _ _ Hex0) as (ex1 & Hex1 & _ & Hfull & _).
        assert (ex1 = ex) as -> by (unfold h1 in Hex; congruence).
        rewrite Hfull. by eapply Hnames.
      - unfold h1 in Hex. rewrite (attach_lookup_fresh _ _ _ _ _ _ Hp) in Hex.
        injection Hex as <-. cbn [fullname]. by apply Hfn. }
    assert (Hok1 : tree_ok site h1) by by apply attach_tree_ok.
    destruct rest as [|c1 rest]; [by intros [= _ <-]|].
    apply (IH (length (heap w)) (pre ++ [c0])); [done..|].
    by apply attach_walk_fresh.
Qed.

Lemma names_ok_same_tree (site : Website) (h h' : list fsEntity) :
  same_tree h h' → names_ok site h → names_ok site h'.
Proof.
  intros Hs Hnames q x ex' Hq Hwalk Hex'.
  rewrite (same_tree_walk _ _ _ _ Hs) in Hwalk.
  destruct (same_tree_sym _ _ Hs) as [_ Hs'].
  destruct (Hs' _ _ Hex') as (ex & Hex & _ & Hfull & _).
  rewrite <- Hfull. by eapply Hnames.
Qed.

Lemma reachable_names_ok (site : Website) (w : world) :
  reachable site w → names_ok site (heap w).
Proof.
  induction 1 as [w0 w Hwf HNew|w name r w' Hreach IH Hrun
                 |w name reader r w' Hreach IH Hrun|tr w errs w' Hreach IH Hrun].
  - rewrite New_run in HNew. injection HNew as <- <-. cbn [heap root].
    intros [|c q] x ex _; simpl.
    + intros [= <-]. rewrite list_lookup_middle by done. by intros [= <-].
    + rewrite list_lookup_middle by done. simpl. by rewrite lookup_empty.
  - pose proof (reachable_tree_ok _ _ Hreach) as Hok.
    rewrite AddFile_run in Hrun. unfold newFSEntity in Hrun.
    destruct (createFSEntity (root site) (strings.Split (prepareFileName name) "/") w)
      as [[ent w1]|] eqn:Hnew; rewrite ?Hnew in Hrun; [|done].
    assert (w1 = w') as -> by (destruct ent; simpl in Hrun; by injection Hrun).
    by eapply (createFSEntity_names_ok site _ (root site) []).
  - pose proof (reachable_tree_ok _ _ Hreach) as Hok.
    rewrite AddDocumentFromReader_run in Hrun. unfold newFSEntity in Hrun.
    destruct (createFSEntity (root site) (strings.Split (prepareFileName name) "/") w)
      as [[ent w1]|] eqn:Hnew; rewrite ?Hnew in Hrun; [|done].
    assert (Hnames1 : names_ok site (heap w1))
      by by eapply (createFSEntity_names_ok site _ (root site) []).
    destruct ent as [e|]; simpl in Hrun; [|by injection Hrun as _ <-].
    destruct reader as [msg|doc]; [by injection Hrun as _ <-|].
    destruct (createFSEntity_spec site (strings.Split (prepareFileName name) "/")
                (root site) [] w Hok eq_refl)
      as (r' & w1' & Hnew' & _ & Hok1 & _ & _ & Hres).
    rewrite Hnew in Hnew'. injection Hnew' as <- <-. simpl in Hres.
    destruct (annotates_visitNode e doc w1) as (w2 & Hvisit & _ & Hs).
    { destruct Hok1 as [Hwf1 (rt & Hrt & _)]. eapply walk_valid; eauto. }
    rewrite Hvisit in Hrun. injection Hrun as _ <-. by eapply names_ok_same_tree.
  - destruct (Validate_reads tr site _ (reachable_tree_ok _ _ Hreach) w eq_refl)
      as (? & ? & Hrun' & Hh & _).
    assert (heap w' = heap w) as -> by congruence. done.
Qed.

(** X11: the full name of an entity is its path.  In every reachable
    world, an entity at the end of a path of non-empty names from the root
    has those names joined by [/] as its [fullname] (the root, at the
    empty path, has the empty full name); this is the name under which
    [Validate] reports the errors of a page. *)
Theorem fullname_is_the_path (site : Website) (w : world) (q : list string) (x : ptr)
    (ex : fsEntity) :
  reachable site w → Forall (λ c, c ≠ "") q →
  walk (heap w) (root site) q = Some x → heap w !! x = Some ex →
  fullname ex = joinPath q.
Proof. intros Hreach Hq Hwalk Hex. by eapply reachable_names_ok. Qed.

Lemma fullname_is_the_path_witness :
  fullname demo_post = joinPath ["blog"; "post.html"].
Proof.
  apply (fullname_is_the_path demo_site demo_world ["blog"; "post.html"] 3%nat demo_post
           demo_reachable).
  - repeat constructor; discriminate.
  - vm_compute. reflexivity.
  - exact demo_post_lookup.
Defined.

(** ** Validation *)

(** [isPathValid] reads the heap only. *)
Lemma isPathValid_heap_only (comps : list string) :
  ∀ (start : option ptr) (w w2 : world) (r : option ptr),
  heap w2 = heap w → isPathValid start comps w = Some (r, w) →
  isPathValid start comps w2 = Some (r, w2).
Proof.
  induction comps as [|c rest IH]; intros [p|] w w2 r Hheap; cbn [isPathValid];
    try (rewrite !ret_run; congruence);
    rewrite !bind_run; unfold deref; rewrite Hheap;
    destruct (heap w !! p) as [e|]; try done.
  - destruct (directory e); rewrite !ret_run; congruence.
  - destruct (String.eqb c ".."); [by apply IH|].
    destruct (children e !! c); [by apply IH|rewrite !ret_run; congruence].
Qed.

Section ValidationMore.
Variable transport : list string → string → string + Z.

(** What one reference that is not external adds to the errors: it
    depends on the heap alone, not on the errors so far nor on the probes. *)
Lemma validateHref_internal_at (site : Website) (w w2 : world) (entity : ptr)
    (page : fsEntity) (errors : list error) (href : string) :
  tree_ok site (heap w) → heap w !! entity = Some page → heap w2 = heap w →
  strings.HasPrefix (sanitize href) "http" = false →
  ∃ extra, (length extra ≤ 1)%nat ∧
    validateHref transport site entity errors href w2 = Some (errors ++ extra, w2) ∧
    validateHref transport site entity [] href w = Some (extra, w).
Proof.
  intros [Hwf (rt & Hrt & _)] Hpage Hw2 Hhttp. unfold validateHref. fold (sanitize href).
  rewrite !bind_run. unfold deref. rewrite Hw2, Hpage, Hhttp.
  destruct (String.eqb (sanitize href) "#").
  { eexists. split; [|split; reflexivity]. simpl; lia. }
  destruct (String.eqb (sanitize href) "/").
  { exists []. rewrite app_nil_r. split; [simpl; lia|done]. }
  destruct (strings.LastIndex (sanitize href) "#" =? 0).
  { destruct (ids page !! _).
    - exists []. rewrite app_nil_r. split; [simpl; lia|done].
    - eexists. split; [|split; reflexivity]. simpl; lia. }
  set (hashIndex := strings.LastIndex (sanitize href) "#").
  set (path := if 0 <? hashIndex then strings.TrimSpace (strings.slice_to _ _) else _).
  set (target := if 0 <? hashIndex then _ else _).
  set (start := if strings.HasPrefix path "/" then Some (root site) else parent page).
  assert (Hstart : ∀ p, start = Some p → is_Some (heap w !! p)).
  { intros p Hp. subst start. destruct (strings.HasPrefix path "/"); [injection Hp as <-; eauto|].
    pose proof (wf_parent _ Hwf _ _ _ Hpage Hp).
    apply lookup_lt_is_Some_2. apply lookup_lt_Some in Hpage. lia. }
  destruct (isPathValid_reads (heap w) (splitPath path) Hwf _ Hstart w eq_refl)
    as (r & w' & Hrun & _ & Hr).
  assert (w' = w) as -> by by eapply isPathValid_world.
  pose proof (isPathValid_heap_only _ _ _ _ _ Hw2 Hrun) as Hrun2.
  assert (Htail : ∃ extra, (length extra ≤ 1)%nat ∧
            match r with
            | None => Some (errors ++ [if strings.HasPrefix path "/"
                                       then BrokenAbsoluteLink (fullname page) path
                                       else BrokenRelativeLink (fullname page) path], w2)
            | Some t => checkTarget page errors hashIndex path target t w2
            end = Some (errors ++ extra, w2) ∧
            match r with
            | None => Some ([] ++ [if strings.HasPrefix path "/"
                                   then BrokenAbsoluteLink (fullname page) path
                                   else BrokenRelativeLink (fullname page) path], w)
            | Some t => checkTarget page [] hashIndex path target t w
            end = Some (extra, w)).
  { destruct r as [t|]; [|eexists; split; [|split; reflexivity]; simpl; lia].
    destruct (Hr t eq_refl) as [te Hte]. unfold checkTarget.
    destruct (0 <? hashIndex).
    - rewrite !bind_run. unfold deref. rewrite Hw2, Hte.
      destruct (ids te !! target).
      + exists []. rewrite app_nil_r. split; [simpl; lia|done].
      + eexists. split; [|split; reflexivity]. simpl; lia.
    - exists []. rewrite app_nil_r. split; [simpl; lia|done]. }
  destruct Htail as (extra & Hlen & Htail2 & Htail). exists extra. split; [done|].
  rewrite <- Htail2, <- Htail. subst start.
  destruct (strings.HasPrefix path "/"); rewrite !bind_run, Hrun, Hrun2; by destruct r.
Qed.

(** What one reference that is not external adds to the errors: it
    depends on the heap alone, not on the errors so far nor on the probes. *)
Lemma validateHref_internal (site : Website) (w : world) (entity : ptr) (page : fsEntity)
    (href : string) :
  tree_ok site (heap w) → heap w !! entity = Some page →
  strings.HasPrefix (sanitize href) "http" = false →
  ∃ extra, (length extra ≤ 1)%nat ∧
    ∀ errors w2, heap w2 = heap w →
      validateHref transport site entity errors href w2 = Some (errors ++ extra, w2).
Proof.
  intros Hok Hpage Hhttp.
  destruct (validateHref_internal_at site w w entity page [] href Hok Hpage eq_refl Hhttp)
    as (extra & Hlen & _ & Hrun).
  exists extra. split; [done|]. intros errors w2 Hw2.
  destruct (validateHref_internal_at site w w2 entity page errors href Hok Hpage Hw2 Hhttp)
    as (extra2 & _ & Hrun2 & Hrun0).
  rewrite Hrun2. congruence.
Qed.

Lemma validateHref_external (site : Website) (w : world) (entity : ptr) (page : fsEntity)
    (errors : list error) (href : string) :
  heap w !! entity = Some page →
  strings.HasPrefix (sanitize href) "http" = true →
  ∃ extra, (length extra ≤ 1)%nat ∧
    validateHref transport site entity errors href w
    = Some (errors ++ extra, mkWorld (heap w) (probes w ++ [sanitize href])).
Proof.
  intros Hpage Hhttp. unfold validateHref. fold (sanitize href). run_deref Hpage.
  rewrite Hhttp, bind_run, ping_run.
  destruct (transport (probes w) (sanitize href)) as [err|status]; cbn [fst snd].
  - eexists. split; [|reflexivity]. simpl; lia.
  - destruct (status =? 200); cbn [negb].
    + exists []. split; [simpl; lia|]. by rewrite app_nil_r.
    + eexists. split; [|reflexivity]. simpl; lia.
Qed.

(** X12: one reference never costs more than one error and never loses
    one: in a reachable world the loop body of [validate] returns the
    errors it was given followed by at most one new error; it leaves the
    heap as it is, and the probes too unless the reference is external, in
    which case exactly its URL is added. *)
Theorem one_reference_at_most_one_error (site : Website) (w : world) (entity : ptr)
    (page : fsEntity) (errors : list error) (href : string) :
  reachable site w → heap w !! entity = Some page →
  ∃ extra w',
    validateHref transport site entity errors href w = Some (errors ++ extra, w') ∧
    (length extra ≤ 1)%nat ∧
    heap w' = heap w ∧
    probes w' = (if strings.HasPrefix (sanitize href) "http"
                 then probes w ++ [sanitize href] else probes w).
Proof.
  intros Hreach Hpage. destruct (strings.HasPrefix (sanitize href) "http") eqn:Hhttp.
  - destruct (validateHref_external site w entity page errors href Hpage Hhttp)
      as (extra & Hlen & Hrun).
    by eexists extra, _.
  - destruct (validateHref_internal site w entity page href
                (reachable_tree_ok _ _ Hreach) Hpage Hhttp) as (extra & Hlen & Hrun).
    exists extra, w. by rewrite Hrun.
Qed.

End ValidationMore.

Lemma one_reference_at_most_one_error_witness :
  ∃ extra w',
    validateHref demo_transport demo_site 3%nat [IncompleteFragment "blog/post.html"]
      "no-such-file.html" demo_world
    = Some ([IncompleteFragment "blog/post.html"] ++ extra, w') ∧
    (length extra ≤ 1)%nat ∧
    heap w' = heap demo_world ∧
    probes w' = (if strings.HasPrefix (sanitize "no-such-file.html") "http"
                 then probes demo_world ++ [sanitize "no-such-file.html"]
                 else probes demo_world).
Proof.
  exact (one_reference_at_most_one_error demo_transport demo_site demo_world 3%nat demo_post
           [IncompleteFragment "blog/post.html"] "no-such-file.html"
           demo_reachable demo_post_lookup).
Defined.

Lemma duplicateIds_app (page : fsEntity) (l : list (string * Z)) (errors : list error) :
  duplicateIds page errors l = errors ++ duplicateIds page [] l.
Proof.
  revert errors. induction l as [|[id n] l IH]; intros errors; simpl.
  - by rewrite app_nil_r.
  - rewrite IH. rewrite (IH (if 1 <? n then _ else _)).
    destruct (1 <? n); [by rewrite <- app_assoc|done].
Qed.

Lemma duplicateIds_nil (page : fsEntity) (l : list (string * Z)) :
  duplicateIds page [] l = [] ↔ Forall (λ kv, kv.2 ≤ 1) l.
Proof.
  induction l as [|[id n] l IH]; simpl; [by split; [constructor|]|].
  rewrite duplicateIds_app. destruct (Z.ltb_spec 1 n) as [Hn|Hn].
  - split; [done|]. intros Hall. inversion Hall; subst. simpl in *. lia.
  - simpl. rewrite IH. split; [by constructor|]. by inversion 1.
Qed.

Section Reports.
Variable transport : list string → string → string + Z.

(** The references of one page, run through the loop body: the errors so
    far are kept, and the heap is left as it is. *)
Lemma validateHrefs_appends (site : Website) (h : list fsEntity) (entity : ptr)
    (page : fsEntity) (l : list string) :
  tree_ok site h → h !! entity = Some page →
  ∀ errors w, heap w = h →
    ∃ extras w', validateHrefs transport site entity errors l w = Some (errors ++ extras, w') ∧
                 heap w' = h.
Proof.
  intros Hok Hpage. induction l as [|href l IH]; intros errors w Hw; simpl.
  - exists [], w. by rewrite ret_run, app_nil_r.
  - subst h.
    assert (∃ extra w1, validateHref transport site entity errors href w
                        = Some (errors ++ extra, w1) ∧ heap w1 = heap w)
      as (extra & w1 & Hrun & Hw1).
    { destruct (strings.HasPrefix (sanitize href) "http") eqn:Hhttp.
      - destruct (validateHref_external transport site w entity page errors href Hpage Hhttp)
          as (extra & _ & Hrun). by eexists extra, _.
      - destruct (validateHref_internal transport site w entity page href Hok Hpage Hhttp)
          as (extra & _ & Hrun). exists extra, w. by rewrite Hrun. }
    destruct (IH (errors ++ extra) w1 Hw1) as (extras & w' & Hrun' & Hw').
    exists (extra ++ extras), w'. rewrite bind_run, Hrun, Hrun'. by rewrite app_assoc.
Qed.

Lemma validateHrefs_empty (site : Website) (h : list fsEntity) (entity : ptr)
    (page : fsEntity) (l : list string) :
  tree_ok site h → h !! entity = Some page →
  ∀ errors w w', heap w = h →
    validateHrefs transport site entity errors l w = Some ([], w') →
    errors = [] ∧
    ∀ href, href ∈ l → strings.HasPrefix (sanitize href) "http" = false →
      ∀ w0, heap w0 = h → validateHref transport site entity [] href w0 = Some ([], w0).
Proof.
  intros Hok Hpage. induction l as [|href l IH]; intros errors w w' Hw; simpl.
  - rewrite ret_run. intros [= -> _]. split; [done|]. intros href Hin.
    by apply elem_of_nil in Hin.
  - subst h. rewrite bind_run.
    destruct (validateHref transport site entity errors href w) as [[errors1 w1]|] eqn:Hrun;
      [|done].
    intros Hrest.
    assert (Hw1 : heap w1 = heap w ∧ ∃ extra, errors1 = errors ++ extra ∧
              (strings.HasPrefix (sanitize href) "http" = false →
               ∀ w0, heap w0 = heap w →
                 validateHref transport site entity [] href w0 = Some (extra, w0))).
    { destruct (strings.HasPrefix (sanitize href) "http") eqn:Hhttp.
      - destruct (validateHref_external transport site w entity page errors href Hpage Hhttp)
          as (extra & _ & Hrun'). rewrite Hrun in Hrun'. injection Hrun' as -> ->.
        split; [done|]. by exists extra.
      - destruct (validateHref_internal transport site w entity page href Hok Hpage Hhttp)
          as (extra & _ & Hrun'). rewrite (Hrun' errors w eq_refl) in Hrun.
        injection Hrun as <- <-. split; [done|]. exists extra. split; [done|].
        intros _ w0 Hw0. by rewrite (Hrun' [] w0 Hw0). }
    destruct Hw1 as (Hw1 & extra & -> & Hextra).
    destruct (IH _ _ _ Hw1 Hrest) as (Hnil & Hall).
    apply app_eq_nil in Hnil as [-> ->]. split; [done|].
    intros href' [->|Hin]%elem_of_cons; [exact Hextra|by apply Hall].
Qed.

Lemma validate_S (fuel : nat) (site : Website) (entity : ptr) :
  validate transport (S fuel) site entity =
  (e ← deref entity;
   if directory e
   then validateChildren transport fuel site [] (map_to_list (children e))
   else validateHrefs transport site entity
          (duplicateIds e [] (map_to_list (ids e))) (hrefs e)).
Proof. reflexivity. Qed.

Lemma validateChildren_cons (fuel : nat) (site : Website) (errors : list error)
    (c : string) (child : ptr) (l : list (string * ptr)) :
  validateChildren transport fuel site errors ((c, child) :: l) =
  (errs ← validate transport fuel site child;
   validateChildren transport fuel site (errors ++ errs) l).
Proof. reflexivity. Qed.

Lemma validateChildren_empty (site : Website) (h : list fsEntity) (fuel : nat)
    (l : list (string * ptr)) :
  tree_ok site h →
  Forall (λ kv, kv.2 < length h ∧ length h - kv.2 ≤ fuel)%nat l →
  ∀ errors w w', heap w = h →
    validateChildren transport fuel site errors l w = Some ([], w') →
    errors = [] ∧
    ∀ c y, (c, y) ∈ l →
      ∃ w1 w2, heap w1 = h ∧ validate transport fuel site y w1 = Some ([], w2).
Proof.
  intros Hok. induction 1 as [|[c y] l [Hy Hfuel] _ IH]; intros errors w w' Hw.
  - simpl. rewrite ret_run. intros [= -> _]. split; [done|].
    intros c y Hin. by apply elem_of_nil in Hin.
  - simpl in Hy, Hfuel. rewrite validateChildren_cons, bind_run.
    destruct (validate_reads transport site h Hok fuel y Hy Hfuel w Hw)
      as (errs & w1 & Hsub & Hw1 & _).
    rewrite Hsub. intros Hrest. destruct (IH _ _ _ Hw1 Hrest) as (Hnil & Hall).
    apply app_eq_nil in Hnil as [-> ->]. split; [done|].
    intros c' y' [[= -> ->]|Hin]%elem_of_cons; [by exists w, w1|by eapply Hall].
Qed.

Lemma children_in_range (h : list fsEntity) (entity : ptr) (e : fsEntity) (fuel : nat) :
  heap_wf h → h !! entity = Some e → (length h - entity ≤ S fuel)%nat →
  Forall (λ kv, kv.2 < length h ∧ length h - kv.2 ≤ fuel)%nat (map_to_list (children e)).
Proof.
  intros Hwf He Hfuel. apply Forall_forall. intros [c y] Hcy%elem_of_map_to_list. simpl.
  destruct (wf_child _ Hwf _ _ _ _ He Hcy) as (_ & e' & He' & Hp & _).
  pose proof (wf_parent _ Hwf _ _ _ He' Hp). apply lookup_lt_Some in He'. lia.
Qed.

(** An empty report from a subtree means every page in it is clean. *)
Lemma validate_empty_sound (site : Website) (h : list fsEntity) :
  tree_ok site h → ∀ (fuel : nat) (entity : ptr) (w w' : world),
  heap w = h → (entity < length h)%nat → (length h - entity ≤ fuel)%nat →
  validate transport fuel site entity w = Some ([], w') →
  ∀ q x ex, walk h entity q = Some x → h !! x = Some ex → directory ex = false →
    clean_page transport site h x ex.
Proof.
  intros Hok. pose proof Hok as [Hwf _].
  induction fuel as [|fuel IH]; intros entity w w' Hw Hlt Hfuel; [lia|].
  destruct (lookup_lt_is_Some_2 _ _ Hlt) as [e He].
  rewrite validate_S, bind_run. unfold deref. rewrite Hw, He.
  pose proof (children_in_range h entity e fuel Hwf He Hfuel) as Hkids.
  destruct (directory e) eqn:Hdir; intros Hrun q x ex Hwalk Hex Hleaf.
  - destruct q as [|c q]; simpl in Hwalk.
    { injection Hwalk as <-. congruence. }
    rewrite He in Hwalk. destruct (children e !! c) as [child|] eqn:Hc; [|done].
    destruct (validateChildren_empty site h fuel _ Hok Hkids _ _ _ Hw Hrun) as [_ Hall].
    destruct (Hall c child) as (w1 & w2 & Hw1 & Hsub); [by apply elem_of_map_to_list|].
    apply elem_of_map_to_list in Hc.
    eapply Forall_forall in Hkids; [|exact Hc]. simpl in Hkids.
    destruct Hkids as [Hk1 Hk2]. by eapply (IH child w1 w2).
  - assert (q = []) as -> by exact (walk_from_leaf h entity e q x Hwf He Hdir Hwalk).
    simpl in Hwalk. injection Hwalk as <-. assert (ex = e) as -> by congruence.
    destruct (validateHrefs_empty site h entity e _ Hok He _ _ _ Hw Hrun) as [Hdup Hrefs].
    split; [|exact Hrefs]. apply duplicateIds_nil in Hdup.
    intros id n Hid. apply elem_of_map_to_list in Hid.
    by eapply Forall_forall in Hdup; [|exact Hid].
Qed.

Lemma validateHrefs_clean (site : Website) (entity : ptr) (l : list string) (w : world) :
  (∀ href, href ∈ l → validateHref transport site entity [] href w = Some ([], w)) →
  validateHrefs transport site entity [] l w = Some ([], w).
Proof.
  induction l as [|href l IH]; intros Hall; simpl; [done|].
  rewrite bind_run, (Hall href) by apply list_elem_of_here.
  apply IH. intros href' Hin. by apply Hall, list_elem_of_further.
Qed.

Lemma validateChildren_clean (site : Website) (fuel : nat) (l : list (string * ptr))
    (w : world) :
  (∀ c y, (c, y) ∈ l → validate transport fuel site y w = Some ([], w)) →
  validateChildren transport fuel site [] l w = Some ([], w).
Proof.
  induction l as [|[c y] l IH]; intros Hall; [done|].
  rewrite validateChildren_cons, bind_run, (Hall c y) by apply list_elem_of_here.
  apply IH. intros c' y' Hin. by eapply Hall, list_elem_of_further.
Qed.

(** Clean pages throughout a subtree give an empty report, and the world
    back as it was. *)
Lemma validate_clean (site : Website) (w : world) :
  tree_ok site (heap w) → ∀ (fuel : nat) (entity : ptr),
  (entity < length (heap w))%nat → (length (heap w) - entity ≤ fuel)%nat →
  (∀ q x ex, walk (heap w) entity q = Some x → heap w !! x = Some ex →
     directory ex = false →
     (∀ id n, ids ex !! id = Some n → n ≤ 1) ∧
     ∀ href, href ∈ hrefs ex → validateHref transport site x [] href w = Some ([], w)) →
  validate transport fuel site entity w = Some ([], w).
Proof.
  intros [Hwf _]. induction fuel as [|fuel IH]; intros entity Hlt Hfuel Hclean; [lia|].
  destruct (lookup_lt_is_Some_2 _ _ Hlt) as [e He].
  rewrite validate_S, bind_run. unfold deref. rewrite He.
  pose proof (children_in_range _ entity e fuel Hwf He Hfuel) as Hkids.
  destruct (directory e) eqn:Hdir.
  - apply validateChildren_clean. intros c y Hcy.
    eapply Forall_forall in Hkids; [|exact Hcy]. simpl in Hkids.
    apply elem_of_map_to_list in Hcy.
    apply IH; [lia|lia|]. intros q x ex Hwalk. apply (Hclean (c :: q)).
    simpl. by rewrite He, Hcy.
  - destruct (Hclean [] entity e eq_refl He Hdir) as [Hdup Hrefs].
    replace (duplicateIds e [] (map_to_list (ids e))) with (@nil error).
    + by apply validateHrefs_clean.
    + symmetry. apply duplicateIds_nil, Forall_forall.
      intros [id n] Hid%elem_of_map_to_list. simpl. by eapply Hdup.
Qed.

(** X13: an empty report vouches for every page.  If [Validate] returns no
    error in a reachable world, then on every page of the tree (every leaf
    a path of names leads to from the root) no identifier occurs more than
    once, and each reference that is not external passes the loop body of
    [validate] on its own without an error. *)
Theorem empty_report_means_clean_pages (site : Website) (w w' : world) (q : list string)
    (x : ptr) (ex : fsEntity) :
  reachable site w → Validate transport site w = Some ([], w') →
  walk (heap w) (root site) q = Some x → heap w !! x = Some ex → directory ex = false →
  (∀ id n, ids ex !! id = Some n → n ≤ 1) ∧
  ∀ href, href ∈ hrefs ex → strings.HasPrefix (sanitize href) "http" = false →
    validateHref transport site x [] href w = Some ([], w).
Proof.
  intros Hreach Hrun Hwalk Hex Hleaf. pose proof (reachable_tree_ok _ _ Hreach) as Hok.
  destruct Hok as [Hwf (rt & Hrt & Hrest)].
  destruct (validate_empty_sound site (heap w) (conj Hwf (ex_intro _ rt (conj Hrt Hrest)))
              (length (heap w)) (root site) w w' eq_refl) with (q := q) (x := x) (ex := ex)
    as [Hdup Hrefs]; try done.
  - by eapply lookup_lt_Some.
  - lia.
  - split; [done|]. intros href Hin Hhttp. by apply Hrefs.
Qed.

(** X14: clean pages give an empty report.  If on every page of the tree no
    identifier occurs more than once and every reference passes the loop
    body of [validate] without an error and without a probe, then
    [Validate] returns no error and hands the world back untouched. *)
Theorem clean_pages_give_empty_report (site : Website) (w : world) :
  reachable site w →
  (∀ q x ex, walk (heap w) (root site) q = Some x → heap w !! x = Some ex →
     directory ex = false →
     (∀ id n, ids ex !! id = Some n → n ≤ 1) ∧
     ∀ href, href ∈ hrefs ex → validateHref transport site x [] href w = Some ([], w)) →
  Validate transport site w = Some ([], w).
Proof.
  intros Hreach Hclean. pose proof (reachable_tree_ok _ _ Hreach) as Hok.
  unfold Validate. apply validate_clean; [done| |lia|done].
  destruct Hok as [_ (rt & Hrt & _)]. by eapply lookup_lt_Some.
Qed.

End Reports.

Lemma clean_reachable : reachable demo_site clean_world.
Proof.
  eapply (registerAll_reachable demo_site clean_script _ _ clean_world).
  - eapply (reach_New _ init_world); [apply init_world_wf|reflexivity].
  - vm_compute. reflexivity.
Qed.

Lemma clean_world_heap :
  heap clean_world = [clean_root; clean_home; clean_blog; clean_index].
Proof. vm_compute. reflexivity. Qed.

Lemma clean_home_lookup : heap clean_world !! 1%nat = Some clean_home.
Proof. by rewrite clean_world_heap. Qed.

Lemma clean_world_pages (transport : list string → string → string + Z)
    (q : list string) (x : ptr) (ex : fsEntity) :
  walk (heap clean_world) (root demo_site) q = Some x →
  heap clean_world !! x = Some ex → directory ex = false →
  (∀ id n, ids ex !! id = Some n → n ≤ 1) ∧
  ∀ href, href ∈ hrefs ex →
    strings.HasPrefix (sanitize href) "http" = false ∧
    validateHref transport demo_site x [] href clean_world = Some ([], clean_world).
Proof.
  intros _ Hex Hleaf. rewrite clean_world_heap in Hex.
  destruct x as [|[|[|[|x]]]]; simpl in Hex; try discriminate;
    injection Hex as <-; try discriminate Hleaf.
  - split.
    + intros id n Hid. change (ids clean_home) with (<["intro" := 1]> (∅ : gmap string Z)) in Hid.
      apply lookup_insert_Some in Hid as [[_ <-]|[_ Hid]]; [lia|].
      by rewrite lookup_empty in Hid.
    + intros href Hin. change (hrefs clean_home) with ["blog/"] in Hin.
      apply list_elem_of_singleton in Hin as ->. split; vm_compute; reflexivity.
  - split.
    + intros id n Hid. change (ids clean_index) with (∅ : gmap string Z) in Hid.
      by rewrite lookup_empty in Hid.
    + intros href Hin. change (hrefs clean_index) with (@nil string) in Hin.
      by apply elem_of_nil in Hin.
Qed.

Lemma empty_report_means_clean_pages_witness :
  (∀ id n, ids clean_home !! id = Some n → n ≤ 1) ∧
  ∀ href, href ∈ hrefs clean_home → strings.HasPrefix (sanitize href) "http" = false →
    validateHref demo_transport demo_site 1%nat [] href clean_world = Some ([], clean_world).
Proof.
  exact (empty_report_means_clean_pages demo_transport demo_site clean_world clean_world
           ["index.html"] 1%nat clean_home clean_reachable
           ltac:(vm_compute; reflexivity) ltac:(vm_compute; reflexivity)
           clean_home_lookup eq_refl).
Defined.

Lemma clean_pages_give_empty_report_witness :
  Validate demo_transport demo_site clean_world = Some ([], clean_world).
Proof.
  exact (clean_pages_give_empty_report demo_transport demo_site clean_world clean_reachable
           (λ q x ex Hwalk Hex Hleaf,
              match clean_world_pages demo_transport q x ex Hwalk Hex Hleaf with
              | conj Hids Hrefs => conj Hids (λ href Hin, proj2 (Hrefs href Hin))
              end)).
Defined.

(** ** A website without external references *)

Lemma validateHref_offline (t1 t2 : list string → string → string + Z) (site : Website)
    (entity : ptr) (errors : list error) (href : string) (w : world) :
  strings.HasPrefix (sanitize href) "http" = false →
  validateHref t1 site entity errors href w = validateHref t2 site entity errors href w.
Proof.
  intros Hhttp. unfold validateHref. fold (sanitize href). rewrite !bind_run.
  destruct (deref entity w) as [[page w1]|]; [|done]. by rewrite Hhttp.
Qed.

(** The references of a page without an external one: what they add to
    the errors depends neither on the errors so far nor on the network. *)
Lemma validateHrefs_offline (t1 t2 : list string → string → string + Z) (site : Website)
    (h : list fsEntity) (entity : ptr) (page : fsEntity) (l : list string) :
  tree_ok site h → h !! entity = Some page →
  Forall (λ href, strings.HasPrefix (sanitize href) "http" = false) l →
  ∃ extras, ∀ errors w, heap w = h →
    validateHrefs t1 site entity errors l w = Some (errors ++ extras, w) ∧
    validateHrefs t2 site entity errors l w = Some (errors ++ extras, w).
Proof.
  intros Hok Hpage. induction 1 as [|href l Hhttp _ (extras & IH)].
  - exists []. intros errors w _. simpl. by rewrite ret_run, app_nil_r.
  - destruct (validateHref_internal t1 site (mkWorld h []) entity page href Hok Hpage Hhttp)
      as (extra & _ & Hrun).
    exists (extra ++ extras). intros errors w Hw. simpl.
    rewrite !bind_run, <- (validateHref_offline t1 t2) by done.
    rewrite (Hrun errors w Hw), app_assoc. by apply IH.
Qed.

Lemma duplicateIds_concat (page : fsEntity) (l : list (string * Z)) :
  duplicateIds page [] l = concat (duplicateId page <$> l).
Proof.
  induction l as [|[id n] l IH]; [done|]. simpl. rewrite duplicateIds_app, IH.
  unfold duplicateId at 2. simpl. by destruct (1 <? n).
Qed.

Lemma concat_fmap_Permutation {A B : Type} (f g : A → list B) (l1 l2 : list A) :
  l1 ≡ₚ l2 → (∀ x, x ∈ l2 → f x ≡ₚ g x) →
  concat (f <$> l1) ≡ₚ concat (g <$> l2).
Proof.
  intros Hl Hfg. transitivity (concat (f <$> l2)).
  - clear Hfg. induction Hl as [|x l1 l2 _ IH|x y l|l1 l2 l3 _ IH1 _ IH2]; simpl.
    + done.
    + by rewrite IH.
    + by rewrite !app_assoc, (Permutation_app_comm (f y)).
    + by rewrite IH1.
  - clear Hl. induction l2 as [|x l2 IH]; simpl; [done|].
    apply Permutation_app; [apply Hfg, list_elem_of_here|].
    apply IH. intros y Hy. by apply Hfg, list_elem_of_further.
Qed.

Lemma validateBy_S (transport : list string → string → string + Z)
    (rc : ptr → gmap string ptr → list (string * ptr))
    (ri : ptr → gmap string Z → list (string * Z))
    (fuel : nat) (site : Website) (entity : ptr) :
  validateBy transport rc ri (S fuel) site entity =
  (e ← deref entity;
   if directory e
   then rangeOver (validateBy transport rc ri fuel site) [] (rc entity (children e))
   else validateHrefs transport site entity
          (duplicateIds e [] (ri entity (ids e))) (hrefs e)).
Proof. reflexivity. Qed.

Lemma rangeOver_cons (visit : ptr → M (list error)) (errors : list error)
    (c : string) (child : ptr) (l : list (string * ptr)) :
  rangeOver visit errors ((c, child) :: l) =
  (errs ← visit child; rangeOver visit (errors ++ errs) l).
Proof. reflexivity. Qed.

(** A loop over children none of whose visits changes the world. *)
Lemma rangeOver_run (visit : ptr → M (list error)) (rep : ptr → list error)
    (h : list fsEntity) (l : list (string * ptr)) :
  (∀ c y, (c, y) ∈ l → ∀ w, heap w = h → visit y w = Some (rep y, w)) →
  ∀ errors w, heap w = h →
    rangeOver visit errors l w = Some (errors ++ concat ((λ kv, rep kv.2) <$> l), w).
Proof.
  induction l as [|[c y] l IH]; intros Hall errors w Hw.
  - simpl. by rewrite ret_run, app_nil_r.
  - rewrite rangeOver_cons, bind_run, (Hall c y (list_elem_of_here _ _) w Hw).
    rewrite IH; [|by intros c' y' Hin; apply (Hall c'), list_elem_of_further|done].
    simpl. by rewrite app_assoc.
Qed.

(** [validate] is [validateBy] with the order of [map_to_list]. *)
Lemma validateBy_ascending (transport : list string → string → string + Z) (fuel : nat)
    (site : Website) (entity : ptr) (w : world) :
  validateBy transport ascending ascending fuel site entity w
  = validate transport fuel site entity w.
Proof.
  revert entity w. induction fuel as [|fuel IH]; intros entity w; [done|].
  rewrite validateBy_S, validate_S, !bind_run.
  destruct (deref entity w) as [[e w1]|]; [|done].
  destruct (directory e); [|done]. unfold ascending.
  generalize (@nil error). revert w1.
  induction (map_to_list (children e)) as [|[c y] l IHl]; intros w1 errors; [done|].
  rewrite rangeOver_cons, validateChildren_cons, !bind_run, IH.
  destruct (validate transport fuel site y w1) as [[errs w2]|]; [|done]. apply IHl.
Qed.

Lemma validateBy_offline (t1 t2 : list string → string → string + Z)
    (rc1 rc2 : ptr → gmap string ptr → list (string * ptr))
    (ri1 ri2 : ptr → gmap string Z → list (string * Z))
    (site : Website) (h : list fsEntity) :
  tree_ok site h →
  range_order rc1 → range_order ri1 → range_order rc2 → range_order ri2 →
  ∀ (fuel : nat) (entity : ptr),
  (entity < length h)%nat → (length h - entity ≤ fuel)%nat →
  (∀ q x ex, walk h entity q = Some x → h !! x = Some ex →
     Forall (λ href, strings.HasPrefix (sanitize href) "http" = false) (hrefs ex)) →
  ∃ errs1 errs2, errs1 ≡ₚ errs2 ∧
    ∀ w, heap w = h →
      validateBy t1 rc1 ri1 fuel site entity w = Some (errs1, w) ∧
      validateBy t2 rc2 ri2 fuel site entity w = Some (errs2, w).
Proof.
  intros Hok Hrc1 Hri1 Hrc2 Hri2. pose proof Hok as [Hwf _].
  induction fuel as [|fuel IH]; intros entity Hlt Hfuel Hoff; [lia|].
  destruct (lookup_lt_is_Some_2 _ _ Hlt) as [e He].
  pose proof (children_in_range _ entity e fuel Hwf He Hfuel) as Hkids.
  destruct (directory e) eqn:Hdir.
  - set (w0 := mkWorld h []).
    set (rep1 := λ y, match validateBy t1 rc1 ri1 fuel site y w0 with
                      | Some (r, _) => r | None => [] end).
    set (rep2 := λ y, match validateBy t2 rc2 ri2 fuel site y w0 with
                      | Some (r, _) => r | None => [] end).
    assert (Hsub : ∀ c y, (c, y) ∈ map_to_list (children e) →
              rep1 y ≡ₚ rep2 y ∧
              ∀ w, heap w = h →
                validateBy t1 rc1 ri1 fuel site y w = Some (rep1 y, w) ∧
                validateBy t2 rc2 ri2 fuel site y w = Some (rep2 y, w)).
    { intros c y Hcy. eapply Forall_forall in Hkids; [|exact Hcy]. simpl in Hkids.
      apply elem_of_map_to_list in Hcy.
      destruct (IH y) as (r1 & r2 & Hperm & Hrun); [lia|lia| |].
      { intros q x ex Hwalk. apply (Hoff (c :: q)). simpl. by rewrite He, Hcy. }
      destruct (Hrun w0 eq_refl) as [Hr1 Hr2]. unfold rep1, rep2. by rewrite Hr1, Hr2. }
    exists (concat ((λ kv, rep1 kv.2) <$> rc1 entity (children e))),
           (concat ((λ kv, rep2 kv.2) <$> rc2 entity (children e))).
    split.
    + apply concat_fmap_Permutation; [by rewrite Hrc1, Hrc2|].
      intros [c y] Hin. rewrite Hrc2 in Hin. by apply (Hsub c y).
    + intros w Hw. rewrite !validateBy_S, !bind_run. unfold deref. rewrite Hw, He, Hdir.
      split.
      * apply (rangeOver_run _ rep1 h); [|done]. intros c y Hin w1 Hw1.
        rewrite Hrc1 in Hin. by apply (Hsub c y).
      * apply (rangeOver_run _ rep2 h); [|done]. intros c y Hin w1 Hw1.
        rewrite Hrc2 in Hin. by apply (Hsub c y).
  - destruct (validateHrefs_offline t1 t2 site h entity e (hrefs e) Hok He)
      as (extras & Hrun); [by apply (Hoff [] entity e)|].
    exists (duplicateIds e [] (ri1 entity (ids e)) ++ extras),
           (duplicateIds e [] (ri2 entity (ids e)) ++ extras).
    split.
    + apply Permutation_app; [|done]. rewrite !duplicateIds_concat.
      apply concat_fmap_Permutation; [by rewrite Hri1, Hri2|done].
    + intros w Hw. rewrite !validateBy_S, !bind_run. unfold deref. rewrite Hw, He, Hdir.
      split; by apply Hrun.
Qed.

Lemma descending_range_order {A : Type} : range_order (@descending A).
Proof. intros p m. apply reverse_Permutation. Qed.

Lemma ascending_range_order {A : Type} : range_order (@ascending A).
Proof. by intros p m. Qed.

(** X15: a website without external references needs no network.  If no
    page of the tree holds a reference that starts with [http], then
    [Validate] returns without a probe and hands the world back as it was,
    and so does every run of the validation, in whatever order its
    [range] loops take the entries of the [children] and [ids] maps; the
    reports of any two such runs hold the same errors the same number of
    times, whatever the network would have answered, and differ at most in
    the order of the errors. *)
Theorem no_external_reference_no_network (t1 t2 : list string → string → string + Z)
    (rc1 rc2 : ptr → gmap string ptr → list (string * ptr))
    (ri1 ri2 : ptr → gmap string Z → list (string * Z))
    (site : Website) (w : world) :
  reachable site w →
  range_order rc1 → range_order ri1 → range_order rc2 → range_order ri2 →
  (∀ q x ex href, walk (heap w) (root site) q = Some x → heap w !! x = Some ex →
     href ∈ hrefs ex → strings.HasPrefix (sanitize href) "http" = false) →
  ∃ errs errs1 errs2,
    Validate t1 site w = Some (errs, w) ∧
    ValidateBy t1 rc1 ri1 site w = Some (errs1, w) ∧
    ValidateBy t2 rc2 ri2 site w = Some (errs2, w) ∧
    errs ≡ₚ errs1 ∧ errs1 ≡ₚ errs2.
Proof.
  intros Hreach Hrc1 Hri1 Hrc2 Hri2 Hoff. pose proof (reachable_tree_ok _ _ Hreach) as Hok.
  assert (Hroot : (root site < length (heap w))%nat).
  { destruct Hok as [_ (rt & Hrt & _)]. by eapply lookup_lt_Some. }
  assert (Hoff' : ∀ q x ex, walk (heap w) (root site) q = Some x → heap w !! x = Some ex →
            Forall (λ href, strings.HasPrefix (sanitize href) "http" = false) (hrefs ex)).
  { intros q x ex Hwalk Hex. apply Forall_forall. intros href Hin. by eapply Hoff. }
  destruct (validateBy_offline t1 t2 rc1 rc2 ri1 ri2 site (heap w) Hok Hrc1 Hri1 Hrc2 Hri2
              (length (heap w)) (root site) Hroot ltac:(lia) Hoff')
    as (errs1 & errs2 & Hperm & Hrun).
  destruct (validateBy_offline t1 t1 ascending rc1 ascending ri1 site (heap w) Hok
              ascending_range_order ascending_range_order Hrc1 Hri1
              (length (heap w)) (root site) Hroot ltac:(lia) Hoff')
    as (errs & errs1' & Hperm' & Hrun').
  destruct (Hrun w eq_refl) as [Hr1 Hr2]. destruct (Hrun' w eq_refl) as [Hr Hr1'].
  rewrite Hr1 in Hr1'. injection Hr1' as <-.
  exists errs, errs1, errs2. unfold Validate, ValidateBy.
  by rewrite <- validateBy_ascending.
Qed.

Lemma offline_reachable : reachable demo_site offline_world.
Proof.
  eapply (registerAll_reachable demo_site offline_script _ _ offline_world).
  - eapply (reach_New _ init_world); [apply init_world_wf|reflexivity].
  - vm_compute. reflexivity.
Qed.

Lemma offline_world_heap :
  heap offline_world =
  [ mkFSEntity "/" "" true (<["b.html" := 2%nat]> (<["a.html" := 1%nat]> ∅)) None ∅ [];
    mkFSEntity "a.html" "a.html" false ∅ (Some 0%nat) ∅ ["#a#b"];
    mkFSEntity "b.html" "b.html" false ∅ (Some 0%nat) (<["a" := 2]> ∅) [] ].
Proof. vm_compute. reflexivity. Qed.

Lemma offline_world_offline (q : list string) (x : ptr) (ex : fsEntity) (href : string) :
  walk (heap offline_world) (root demo_site) q = Some x → heap offline_world !! x = Some ex →
  href ∈ hrefs ex → strings.HasPrefix (sanitize href) "http" = false.
Proof.
  intros _ Hex Hin. rewrite offline_world_heap in Hex.
  destruct x as [|[|[|x]]]; simpl in Hex; try discriminate; injection Hex as <-;
    repeat (apply elem_of_cons in Hin as [->|Hin]; [vm_compute; reflexivity|]);
    by apply elem_of_nil in Hin.
Qed.

(** The two orders give the errors of the two pages in opposite order. *)
Example range_order_shows_in_the_report :
  fst <$> ValidateBy demo_transport ascending ascending demo_site offline_world
  = Some [BrokenRelativeLink "a.html" "#a"; DuplicateIdentifier "b.html" "a" 2] ∧
  fst <$> ValidateBy dead_transport descending descending demo_site offline_world
  = Some [DuplicateIdentifier "b.html" "a" 2; BrokenRelativeLink "a.html" "#a"].
Proof. split; vm_compute; reflexivity. Qed.

Lemma no_external_reference_no_network_witness :
  ∃ errs errs1 errs2,
    Validate demo_transport demo_site offline_world = Some (errs, offline_world) ∧
    ValidateBy demo_transport ascending ascending demo_site offline_world
    = Some (errs1, offline_world) ∧
    ValidateBy dead_transport descending descending demo_site offline_world
    = Some (errs2, offline_world) ∧
    errs ≡ₚ errs1 ∧ errs1 ≡ₚ errs2.
Proof.
  exact (no_external_reference_no_network demo_transport dead_transport
           ascending descending ascending descending demo_site offline_world
           offline_reachable ascending_range_order ascending_range_order
           descending_range_order descending_range_order offline_world_offline).
Defined.

(** ** Scanning a document *)

Lemma note_nil (e : fsEntity) : note [] [] e = e.
Proof. destruct e. unfold note, with_ids, with_hrefs. simpl. by rewrite app_nil_r. Qed.

Lemma note_note (hs1 ns1 hs2 ns2 : list string) (e : fsEntity) :
  note hs2 ns2 (note hs1 ns1 e) = note (hs1 ++ hs2) (ns1 ++ ns2) e.
Proof.
  destruct e. unfold note, with_ids, with_hrefs. simpl. by rewrite foldl_app, app_assoc.
Qed.

Lemma notes_ret (entity : ptr) : notes entity (mret tt) [] [].
Proof.
  intros [h p] e He. simpl in *. by rewrite note_nil, list_insert_id.
Qed.

Lemma notes_seq (entity : ptr) (m k : M unit) (hs1 ns1 hs2 ns2 : list string) :
  notes entity m hs1 ns1 → notes entity k hs2 ns2 →
  notes entity (m ;; k) (hs1 ++ hs2) (ns1 ++ ns2).
Proof.
  intros Hm Hk w e He. rewrite bind_run, (Hm w e He).
  rewrite (Hk _ (note hs1 ns1 e)).
  - cbn [heap probes]. by rewrite list_insert_insert_eq, note_note.
  - cbn [heap]. apply list_lookup_insert_eq. by eapply lookup_lt_Some.
Qed.

Lemma notes_appendHref (entity : ptr) (href : string) :
  notes entity (appendHref entity href) [href] [].
Proof. intros w e He. unfold appendHref. by rewrite (modify_run _ _ _ _ He). Qed.

Lemma notes_appendSrcset (entity : ptr) (images : list string) :
  notes entity (appendSrcset entity images) (cutDescriptor <$> images) [].
Proof.
  induction images as [|image images IH]; [apply notes_ret|].
  cbn [appendSrcset fmap list_fmap].
  apply (notes_seq entity _ _ [cutDescriptor image] [] _ []); [|done].
  unfold cutDescriptor. destruct (_ <? 0); apply notes_appendHref.
Qed.

Lemma notes_bump (entity : ptr) (id : string) :
  notes entity
    (modify entity (λ e, with_ids (<[id := wrap_int (default 0 (ids e !! id) + 1)]> (ids e)) e))
    [] [id].
Proof.
  intros w e He. rewrite (modify_run _ _ _ _ He). do 3 f_equal.
  destruct e. unfold note, with_ids, with_hrefs, bump. simpl. by rewrite app_nil_r.
Qed.

Lemma notes_visitNode (entity : ptr) (s : node) :
  notes entity (visitNode entity s) (links s) (idsOf s).
Proof.
  induction s as [n attrs kids IH] using node_kids_ind. cbn [visitNode links idsOf].
  apply (notes_seq entity _ _ (nodeLinks n attrs) [] _ _);
    [|apply (notes_seq entity _ _ [] _ _ _)].
  - unfold nodeLinks, whenAttr. destruct (isLinkTag n).
    { destruct (Attr attrs "href"); [apply notes_appendHref|apply notes_ret]. }
    destruct (isSourceTag n); [|apply notes_ret].
    apply (notes_seq entity _ _ _ [] _ []).
    + destruct (Attr attrs "src"); [apply notes_appendHref|apply notes_ret].
    + destruct (Attr attrs "srcset"); [apply notes_appendSrcset|apply notes_ret].
  - unfold whenAttr. destruct (Attr attrs "id"); [apply notes_bump|apply notes_ret].
  - induction IH as [|k kids Hk _ IHkids]; [apply notes_ret|]. by apply notes_seq.
Qed.

(** X16: a scan is two folds over the document.  On a live entity
    [visitNode] returns, and all it does is append the references of the
    document, in document order, to the references of that entity, and
    count its identifiers one after the other; every other entity, and
    every other field of this one, is as before, and no probe is made. *)
Theorem scan_appends_links_and_counts_ids (entity : ptr) (s : node) (w : world)
    (e : fsEntity) :
  heap w !! entity = Some e →
  visitNode entity s w =
  Some (tt, mkWorld (<[entity := with_ids (foldl bump (ids e) (idsOf s))
                                   (with_hrefs (hrefs e ++ links s) e)]> (heap w))
                    (probes w)).
Proof. apply notes_visitNode. Qed.

Lemma clean_index_lookup : heap clean_world !! 3%nat = Some clean_index.
Proof. by rewrite clean_world_heap. Qed.

Lemma scan_appends_links_and_counts_ids_witness :
  visitNode 3%nat post_doc clean_world =
  Some (tt, mkWorld (<[3%nat := with_ids (foldl bump (ids clean_index) (idsOf post_doc))
                                  (with_hrefs (hrefs clean_index ++ links post_doc)
                                     clean_index)]> (heap clean_world))
                    (probes clean_world)).
Proof.
  exact (scan_appends_links_and_counts_ids 3%nat post_doc clean_world clean_index
           clean_index_lookup).
Defined.

(** ** What a report holds *)

Lemma duplicateIds_elem (page : fsEntity) (l : list (string * Z)) (err : error) :
  err ∈ duplicateIds page [] l ↔
  ∃ id n, (id, n) ∈ l ∧ 1 < n ∧ err = DuplicateIdentifier (fullname page) id n.
Proof.
  induction l as [|[id n] l IH]; simpl.
  - split; [by intros ?%elem_of_nil|]. by intros (? & ? & ?%elem_of_nil & _).
  - rewrite duplicateIds_app, elem_of_app, IH. split.
    + intros [Hin|(id' & n' & Hin & Hn & ->)].
      * destruct (Z.ltb_spec 1 n) as [Hn|Hn]; [|by apply elem_of_nil in Hin].
        apply list_elem_of_singleton in Hin as ->. exists id, n.
        split_and!; [apply list_elem_of_here|done..].
      * exists id', n'. split_and!; [by apply list_elem_of_further|done..].
    + intros (id' & n' & [[= -> ->]|Hin]%elem_of_cons & Hn & ->).
      * left. apply Z.ltb_lt in Hn as ->. apply list_elem_of_here.
      * right. by exists id', n'.
Qed.

Section ReportContents.
Variable transport : list string → string → string + Z.

(** One reference: what it adds to the errors does not depend on the
    errors so far, and for a reference inside the site not on the probes
    either. *)
Lemma validateHref_step (site : Website) (w : world) (entity : ptr) (page : fsEntity)
    (href : string) :
  tree_ok site (heap w) → heap w !! entity = Some page →
  ∃ extra w1,
    (∀ errors, validateHref transport site entity errors href w = Some (errors ++ extra, w1)) ∧
    heap w1 = heap w ∧ (length extra ≤ 1)%nat ∧
    (strings.HasPrefix (sanitize href) "http" = false →
     ∀ w0, heap w0 = heap w → validateHref transport site entity [] href w0 = Some (extra, w0)).
Proof.
  intros Hok Hpage. destruct (strings.HasPrefix (sanitize href) "http") eqn:Hhttp.
  - exists (match transport (probes w) (sanitize href) with
            | inl _ => [ExternalProbeFailed (fullname page) (sanitize href)]
            | inr status =>
                if negb (status =? 200)
                then [ExternalStatusError (fullname page) status (sanitize href)]
                else []
            end), (mkWorld (heap w) (probes w ++ [sanitize href])).
    split_and!; [|done| |done].
    + intros errors. unfold validateHref. fold (sanitize href). run_deref Hpage.
      rewrite Hhttp, bind_run, ping_run.
      destruct (transport (probes w) (sanitize href)) as [err|status]; cbn [fst snd]; [done|].
      destruct (negb (status =? 200)); [done|]. by rewrite app_nil_r.
    + destruct (transport (probes w) (sanitize href)) as [err|status]; [simpl; lia|].
      destruct (negb (status =? 200)); simpl; lia.
  - destruct (validateHref_internal transport site w entity page href Hok Hpage Hhttp)
      as (extra & Hlen & Hrun).
    exists extra, w. split_and!; [by intros errors; apply Hrun|done..|].
    intros _ w0 Hw0. by rewrite (Hrun [] w0 Hw0).
Qed.

Lemma validateHrefs_reports (site : Website) (h : list fsEntity) (entity : ptr)
    (page : fsEntity) (l : list string) :
  tree_ok site h → h !! entity = Some page →
  ∀ errors w, heap w = h →
    ∃ extras w',
      validateHrefs transport site entity errors l w = Some (errors ++ extras, w') ∧
      heap w' = h ∧
      (∀ href err w0, href ∈ l → strings.HasPrefix (sanitize href) "http" = false →
         heap w0 = h → validateHref transport site entity [] href w0 = Some ([err], w0) →
         err ∈ extras) ∧
      (∀ err, err ∈ extras →
         ∃ href w0 w1, href ∈ l ∧ heap w0 = h ∧
           validateHref transport site entity [] href w0 = Some ([err], w1)).
Proof.
  intros Hok Hpage. induction l as [|href l IH]; intros errors w Hw; simpl.
  - exists [], w. rewrite ret_run, app_nil_r. split_and!; [done..| |].
    + by intros ? ? ? ?%elem_of_nil.
    + by intros ? ?%elem_of_nil.
  - subst h.
    destruct (validateHref_step site w entity page href Hok Hpage)
      as (extra & w1 & Hrun & Hw1 & Hlen & Hint).
    rewrite bind_run, Hrun.
    destruct (IH (errors ++ extra) w1 Hw1) as (extras & w' & -> & Hw' & Hcomp & Hsound).
    exists (extra ++ extras), w'. rewrite app_assoc. split_and!; [done|done| |].
    + intros href' err w0 [->|Hin]%elem_of_cons Hhttp Hw0 Hone; apply elem_of_app.
      * left. rewrite (Hint Hhttp w0 Hw0) in Hone. injection Hone as ->.
        apply list_elem_of_here.
      * right. by eapply Hcomp.
    + intros err [Hin|Hin]%elem_of_app.
      * exists href, w, w1. split_and!; [apply list_elem_of_here|done|].
        rewrite (Hrun []). destruct extra as [|err' [|? ?]]; [by apply elem_of_nil in Hin| |simpl in Hlen; lia].
        by apply list_elem_of_singleton in Hin as ->.
      * destruct (Hsound err Hin) as (href' & w0 & w2 & Hin' & Hw0 & Hone).
        exists href', w0, w2. split_and!; [by apply list_elem_of_further|done..].
Qed.

Lemma validateChildren_reports (site : Website) (h : list fsEntity) (fuel : nat)
    (P Q : ptr → error → Prop) (l : list (string * ptr)) :
  (∀ c y, (c, y) ∈ l → ∀ w, heap w = h →
     ∃ errs w', validate transport fuel site y w = Some (errs, w') ∧ heap w' = h ∧
       (∀ err, P y err → err ∈ errs) ∧ (∀ err, err ∈ errs → Q y err)) →
  ∀ errors w, heap w = h →
    ∃ errs w', validateChildren transport fuel site errors l w = Some (errors ++ errs, w') ∧
      heap w' = h ∧
      (∀ c y err, (c, y) ∈ l → P y err → err ∈ errs) ∧
      (∀ err, err ∈ errs → ∃ c y, (c, y) ∈ l ∧ Q y err).
Proof.
  induction l as [|[c y] l IH]; intros Hsub errors w Hw.
  - exists [], w. simpl. rewrite ret_run, app_nil_r. split_and!; [done..| |].
    + by intros ? ? ? ?%elem_of_nil.
    + by intros ? ?%elem_of_nil.
  - rewrite validateChildren_cons, bind_run.
    destruct (Hsub c y (list_elem_of_here _ _) w Hw) as (errs1 & w1 & -> & Hw1 & Hcomp1 & Hsound1).
    destruct (IH (λ c' y' Hin, Hsub c' y' (list_elem_of_further _ _ _ Hin))
                 (errors ++ errs1) w1 Hw1) as (errs & w' & -> & Hw' & Hcomp & Hsound).
    exists (errs1 ++ errs), w'. rewrite app_assoc. split_and!; [done|done| |].
    + intros c' y' err [[= -> ->]|Hin]%elem_of_cons HP; apply elem_of_app.
      * left. by apply Hcomp1.
      * right. by eapply Hcomp.
    + intros err [Hin|Hin]%elem_of_app.
      * exists c, y. split; [apply list_elem_of_here|by apply Hsound1].
      * destruct (Hsound err Hin) as (c' & y' & Hin' & HQ).
        exists c', y'. split; [by apply list_elem_of_further|done].
Qed.

(** The report of a subtree: it holds every duplicated identifier and
    every failing internal reference of every page below the entity, and
    nothing that is not an error of one of these pages. *)
Lemma validate_reports (site : Website) (h : list fsEntity) :
  tree_ok site h → ∀ (fuel : nat) (entity : ptr),
  (entity < length h)%nat → (length h - entity ≤ fuel)%nat →
  ∀ w, heap w = h →
    ∃ errs w', validate transport fuel site entity w = Some (errs, w') ∧ heap w' = h ∧
      (∀ err, (∃ q x ex, walk h entity q = Some x ∧ h !! x = Some ex ∧ directory ex = false ∧
                 (duplicated ex err ∨
                  ∃ href w0, href ∈ hrefs ex ∧
                    strings.HasPrefix (sanitize href) "http" = false ∧ heap w0 = h ∧
                    validateHref transport site x [] href w0 = Some ([err], w0))) →
              err ∈ errs) ∧
      (∀ err, err ∈ errs →
         ∃ q x ex, walk h entity q = Some x ∧ h !! x = Some ex ∧ directory ex = false ∧
           (duplicated ex err ∨
            ∃ href w0 w1, href ∈ hrefs ex ∧ heap w0 = h ∧
              validateHref transport site x [] href w0 = Some ([err], w1))).
Proof.
  intros Hok. pose proof Hok as [Hwf _].
  induction fuel as [|fuel IH]; intros entity Hlt Hfuel w Hw; [lia|].
  destruct (lookup_lt_is_Some_2 _ _ Hlt) as [e He].
  rewrite validate_S, bind_run. unfold deref. rewrite Hw, He.
  pose proof (children_in_range _ entity e fuel Hwf He Hfuel) as Hkids.
  destruct (directory e) eqn:Hdir.
  - edestruct (validateChildren_reports site h fuel) as (errs & w' & Hrun & Hw' & Hcomp & Hsound);
      [|exact Hw|].
    { intros c y Hcy. eapply Forall_forall in Hkids; [|exact Hcy]. simpl in Hkids.
      intros w1 Hw1. apply (IH y); [lia|lia|done]. }
    rewrite Hrun. exists errs, w'. split_and!; [done|done| |].
    + intros err (q & x & ex & Hwalk & Hex & Hleaf & Hcause).
      destruct q as [|c q]; simpl in Hwalk; [injection Hwalk as <-; congruence|].
      rewrite He in Hwalk. destruct (children e !! c) as [y|] eqn:Hc; [|done].
      apply (Hcomp c y); [by apply elem_of_map_to_list|]. by exists q, x, ex.
    + intros err Hin. destruct (Hsound err Hin) as (c & y & Hcy & q & x & ex & Hwalk & Hrest).
      apply elem_of_map_to_list in Hcy.
      exists (c :: q), x, ex. split; [|done]. simpl. by rewrite He, Hcy.
  - destruct (validateHrefs_reports site h entity e (hrefs e) Hok He
                (duplicateIds e [] (map_to_list (ids e))) w Hw)
      as (extras & w' & -> & Hw' & Hcomp & Hsound).
    eexists _, w'. split_and!; [done|done| |].
    + intros err (q & x & ex & Hwalk & Hex & Hleaf & Hcause).
      assert (q = []) as -> by exact (walk_from_leaf h entity e q x Hwf He Hdir Hwalk).
      simpl in Hwalk. injection Hwalk as <-. assert (ex = e) as -> by congruence.
      apply elem_of_app. destruct Hcause as [(id & n & Hid & Hn & ->)|(href & w0 & Hin & Hhttp & Hw0 & Hone)].
      * left. apply duplicateIds_elem. exists id, n. by rewrite elem_of_map_to_list.
      * right. by eapply Hcomp.
    + intros err [Hin|Hin]%elem_of_app; exists [], entity, e; split_and!; try done.
      * left. apply duplicateIds_elem in Hin as (id & n & Hid%elem_of_map_to_list & Hn & ->).
        by exists id, n.
      * right. by apply Hsound.
Qed.

Lemma Validate_reports (site : Website) (w : world) :
  reachable site w →
  ∃ errs w', Validate transport site w = Some (errs, w') ∧
    (∀ err, (∃ q x ex, walk (heap w) (root site) q = Some x ∧ heap w !! x = Some ex ∧
               directory ex = false ∧
               (duplicated ex err ∨
                ∃ href w0, href ∈ hrefs ex ∧
                  strings.HasPrefix (sanitize href) "http" = false ∧ heap w0 = heap w ∧
                  validateHref transport site x [] href w0 = Some ([err], w0))) →
            err ∈ errs) ∧
    (∀ err, err ∈ errs →
       ∃ q x ex, walk (heap w) (root site) q = Some x ∧ heap w !! x = Some ex ∧
         directory ex = false ∧
         (duplicated ex err ∨
          ∃ href w0 w1, href ∈ hrefs ex ∧ heap w0 = heap w ∧
            validateHref transport site x [] href w0 = Some ([err], w1))).
Proof.
  intros Hreach. pose proof (reachable_tree_ok _ _ Hreach) as Hok.
  destruct (validate_reports site (heap w) Hok (length (heap w)) (root site))
    with (w := w) as (errs & w' & Hrun & _ & Hcomp & Hsound); [|lia|done|by exists errs, w'].
  destruct Hok as [_ (rt & Hrt & _)]. by eapply lookup_lt_Some.
Qed.

(** X17: an identifier that occurs more than once on a page is reported.
    In a reachable world, if the count of an identifier on a page of the
    tree is above one, [Validate] returns a report that holds the
    duplicate-identifier error of that page, identifier and count. *)
Theorem duplicated_identifier_is_reported (site : Website) (w : world) (q : list string)
    (x : ptr) (ex : fsEntity) (id : string) (n : Z) :
  reachable site w →
  walk (heap w) (root site) q = Some x → heap w !! x = Some ex → directory ex = false →
  ids ex !! id = Some n → 1 < n →
  ∃ errs w', Validate transport site w = Some (errs, w') ∧
             DuplicateIdentifier (fullname ex) id n ∈ errs.
Proof.
  intros Hreach Hwalk Hex Hleaf Hid Hn.
  destruct (Validate_reports site w Hreach) as (errs & w' & Hrun & Hcomp & _).
  exists errs, w'. split; [done|]. apply Hcomp. exists q, x, ex. split_and!; [done..|].
  left. by exists id, n.
Qed.

(** X18: a failing reference inside the site is reported.  In a reachable
    world, if a reference of a page of the tree is not external and the
    loop body of [validate], run on it alone, yields an error, then
    [Validate] returns a report that holds this error. *)
Theorem broken_reference_is_reported (site : Website) (w : world) (q : list string)
    (x : ptr) (ex : fsEntity) (href : string) (err : error) :
  reachable site w →
  walk (heap w) (root site) q = Some x → heap w !! x = Some ex → directory ex = false →
  href ∈ hrefs ex → strings.HasPrefix (sanitize href) "http" = false →
  validateHref transport site x [] href w = Some ([err], w) →
  ∃ errs w', Validate transport site w = Some (errs, w') ∧ err ∈ errs.
Proof.
  intros Hreach Hwalk Hex Hleaf Hin Hhttp Hone.
  destruct (Validate_reports site w Hreach) as (errs & w' & Hrun & Hcomp & _).
  exists errs, w'. split; [done|]. apply Hcomp. exists q, x, ex. split_and!; [done..|].
  right. by exists href, w.
Qed.

(** X19: nothing is reported without a cause.  Every error of the report
    of [Validate] in a reachable world belongs to a page of the tree: it
    is the duplicate-identifier error of an identifier whose count on that
    page is above one, or the error the loop body of [validate] yields for
    one of the references of that page on a world with the same tree. *)
Theorem reported_error_has_a_cause (site : Website) (w w' : world) (errs : list error)
    (err : error) :
  reachable site w → Validate transport site w = Some (errs, w') → err ∈ errs →
  ∃ q x ex, walk (heap w) (root site) q = Some x ∧ heap w !! x = Some ex ∧
    directory ex = false ∧
    ((∃ id n, ids ex !! id = Some n ∧ 1 < n ∧ err = DuplicateIdentifier (fullname ex) id n) ∨
     ∃ href w0 w1, href ∈ hrefs ex ∧ heap w0 = heap w ∧
       validateHref transport site x [] href w0 = Some ([err], w1)).
Proof.
  intros Hreach Hrun Hin.
  destruct (Validate_reports site w Hreach) as (errs' & w'' & Hrun' & _ & Hsound).
  rewrite Hrun in Hrun'. injection Hrun' as <- <-. by apply Hsound.
Qed.

End ReportContents.

Lemma twice_reachable : reachable demo_site twice_world.
Proof.
  eapply (registerAll_reachable demo_site twice_script _ _ twice_world).
  - eapply (reach_New _ init_world); [apply init_world_wf|reflexivity].
  - vm_compute. reflexivity.
Qed.

Lemma duplicated_identifier_is_reported_witness :
  ∃ errs w', Validate demo_transport demo_site twice_world = Some (errs, w') ∧
             DuplicateIdentifier (fullname twice_page) "a" 2 ∈ errs.
Proof.
  exact (duplicated_identifier_is_reported demo_transport demo_site twice_world ["p.html"]
           1%nat twice_page "a" 2 twice_reachable
           ltac:(vm_compute; reflexivity) ltac:(vm_compute; reflexivity) eq_refl
           ltac:(vm_compute; reflexivity) ltac:(lia)).
Defined.

Lemma broken_reference_is_reported_witness :
  ∃ errs w', Validate demo_transport demo_site demo_world = Some (errs, w') ∧
             IncompleteFragment "blog/post.html" ∈ errs.
Proof.
  exact (broken_reference_is_reported demo_transport demo_site demo_world
           ["blog"; "post.html"] 3%nat demo_post " # " (IncompleteFragment "blog/post.html")
           demo_reachable ltac:(vm_compute; reflexivity) demo_post_lookup eq_refl
           (list_elem_of_here _ _) ltac:(vm_compute; reflexivity)
           ltac:(vm_compute; reflexivity)).
Defined.

Lemma reported_error_has_a_cause_witness :
  ∃ q x ex, walk (heap demo_world) (root demo_site) q = Some x ∧
    heap demo_world !! x = Some ex ∧ directory ex = false ∧
    ((∃ id n, ids ex !! id = Some n ∧ 1 < n ∧
        ExternalStatusError "blog/post.html" 404 "http://example.com/"
        = DuplicateIdentifier (fullname ex) id n) ∨
     ∃ href w0 w1, href ∈ hrefs ex ∧ heap w0 = heap demo_world ∧
       validateHref demo_transport demo_site x [] href w0
       = Some ([ExternalStatusError "blog/post.html" 404 "http://example.com/"], w1)).
Proof.
  exact (reported_error_has_a_cause demo_transport demo_site demo_world
           (mkWorld (heap demo_world) ["http://example.com/"])
           [IncompleteFragment "blog/post.html";
            ExternalStatusError "blog/post.html" 404 "http://example.com/"]
           (ExternalStatusError "blog/post.html" 404 "http://example.com/")
           demo_reachable ltac:(vm_compute; reflexivity)
           (list_elem_of_further _ _ _ (list_elem_of_here _ _))).
Defined.

(** ** Counting identifiers *)

Lemma wrap_int_small (z : Z) : - 2 ^ 63 ≤ z < 2 ^ 63 → wrap_int z = z.
Proof. intros Hz. unfold wrap_int. rewrite Z.mod_small; lia. Qed.

Lemma occurrences_cons (id a : string) (l : list string) :
  occurrences id (a :: l) = if decide (a = id) then S (occurrences id l) else occurrences id l.
Proof. unfold occurrences. rewrite filter_cons. by destruct (decide (a = id)). Qed.

Lemma tally_lookup (l : list string) (m : gmap string Z) (id : string) :
  - 2 ^ 63 ≤ default 0 (m !! id) →
  default 0 (m !! id) + Z.of_nat (occurrences id l) < 2 ^ 63 →
  foldl bump m l !! id =
  match occurrences id l with
  | O => m !! id
  | S _ => Some (default 0 (m !! id) + Z.of_nat (occurrences id l))
  end.
Proof.
  revert m. induction l as [|a l IH]; intros m Hlo Hhi; [done|].
  rewrite occurrences_cons in Hhi |- *. cbn [foldl]. unfold bump at 2.
  destruct (decide (a = id)) as [->|Hne].
  - assert (Hid : <[id := wrap_int (default 0 (m !! id) + 1)]> m !! id
                  = Some (default 0 (m !! id) + 1)).
    { rewrite lookup_insert_eq, wrap_int_small; [done|lia]. }
    rewrite IH; rewrite Hid; simpl; [|lia|lia].
    destruct (occurrences id l); f_equal; lia.
  - rewrite IH; rewrite lookup_insert_ne by done; [done..].
Qed.

(** X20: the count of an identifier is the number of its occurrences.
    After [visitNode] has scanned a document into a live entity, the count
    of an identifier that does not occur in the document is what it was
    (none, if there was none), and the count of one that occurs is the
    count before (zero, if there was none) plus the number of elements of
    the document that carry it, as long as this stays in the range of
    [int]. *)
Theorem id_count_is_number_of_occurrences (entity : ptr) (s : node) (w : world)
    (e : fsEntity) (id : string) :
  heap w !! entity = Some e →
  - 2 ^ 63 ≤ default 0 (ids e !! id) →
  default 0 (ids e !! id) + Z.of_nat (occurrences id (idsOf s)) < 2 ^ 63 →
  ∃ w' e', visitNode entity s w = Some (tt, w') ∧ heap w' !! entity = Some e' ∧
    ids e' !! id =
    match occurrences id (idsOf s) with
    | O => ids e !! id
    | S _ => Some (default 0 (ids e !! id) + Z.of_nat (occurrences id (idsOf s)))
    end.
Proof.
  intros He Hlo Hhi. eexists _, _. split; [by apply notes_visitNode|]. split.
  - cbn [heap]. apply list_lookup_insert_eq. by eapply lookup_lt_Some.
  - unfold note. cbn [ids with_ids]. by apply tally_lookup.
Qed.

Lemma id_count_is_number_of_occurrences_witness :
  ∃ w' e', visitNode 3%nat twice_doc clean_world = Some (tt, w') ∧
    heap w' !! 3%nat = Some e' ∧
    ids e' !! "a" =
    match occurrences "a" (idsOf twice_doc) with
    | O => ids clean_index !! "a"
    | S _ => Some (default 0 (ids clean_index !! "a")
                   + Z.of_nat (occurrences "a" (idsOf twice_doc)))
    end.
Proof.
  exact (id_count_is_number_of_occurrences 3%nat twice_doc clean_world clean_index "a"
           clean_index_lookup ltac:(vm_compute; discriminate) ltac:(vm_compute; reflexivity)).
Defined.

(** ** Documents on disk *)

(** X21: [AddDocument] returns, and registers nothing when the file cannot
    be opened.  In a reachable world [AddDocument] returns without a probe
    and leaves a well-formed tree.  The file it opens is the name without
    its leading slash: if [os.Open] fails on it, the error is returned and
    the world is untouched; otherwise the world after the call is a
    reachable one. *)
Theorem AddDocument_returns (fs : string → string + (string + node)) (site : Website)
    (name : string) (w : world) :
  reachable site w →
  ∃ r w', AddDocument fs site name w = Some (r, w') ∧
    probes w' = probes w ∧ tree_ok site (heap w') ∧
    match fs (prepareFileName name) with
    | inl err => r = Some (ReadError err) ∧ w' = w
    | inr file => reachable site w'
    end.
Proof.
  intros Hreach. unfold AddDocument. pose proof (reachable_tree_ok _ _ Hreach) as Hok.
  destruct (fs (prepareFileName name)) as [err|file].
  - by exists (Some (ReadError err)), w.
  - destruct (AddDocumentFromReader_tree_ok site (prepareFileName name) file w Hok)
      as (r & w' & Hrun & Hok' & Hpr).
    exists r, w'. split_and!; [done..|]. by eapply reach_AddDocument.
Qed.

(** A disk with one document on it. *)
Lemma AddDocument_returns_witness :
  ∃ r w',
    AddDocument (λ name, if String.eqb name "about.html" then inr (inr one_link_doc)
                         else inl "open: no such file or directory")
      demo_site "/about.html" demo_world = Some (r, w') ∧
    probes w' = probes demo_world ∧ tree_ok demo_site (heap w') ∧
    reachable demo_site w'.
Proof.
  exact (AddDocument_returns
           (λ name, if String.eqb name "about.html" then inr (inr one_link_doc)
                    else inl "open: no such file or directory")
           demo_site "/about.html" demo_world demo_reachable).
Defined.
